(** * Mermaid diagram converter: parser, validator and flowchart layout

    A shallow embedding of [mermaid-parser.js] (shape lexicon, the four
    dialect scanners, [parseMermaid], [validateMermaid]) and of the parts of
    [drawio-converter.js] that decide the properties below (the Start/Stop
    synthesis of [convertToDrawio] and the level assignment of
    [calculatePositions]).

    JavaScript strings are modelled as [string]: one [ascii] per UTF-16 code
    unit, restricted to code units below 256.  Regular expressions are kept
    as syntax trees and run by a backtracking matcher that follows the
    ECMAScript matching order (leftmost start, alternatives left to right,
    greedy or lazy repetition, captures undone on backtracking). *)

From Stdlib Require Import Ascii String NArith Arith Bool Lia.
From Stdlib Require Import DecimalString DecimalNat.
From stdpp Require Import base option list gmap strings.

Local Open Scope bool_scope.

(** ** Characters *)

Module Char.

Definition code (c : ascii) : N := N_of_ascii c.

Definition in_range (lo hi : N) (c : ascii) : bool :=
  (lo <=? code c)%N && (code c <=? hi)%N.

(** [\s] and the set removed by [String.prototype.trim], below code unit 256:
    TAB, LF, VT, FF, CR, SPACE and NBSP. *)
Definition is_space (c : ascii) : bool :=
  in_range 9 13 c || (code c =? 32)%N || (code c =? 160)%N.

(** [\w] is [A-Za-z0-9_]. *)
Definition is_word (c : ascii) : bool :=
  in_range 65 90 c || in_range 97 122 c || in_range 48 57 c || (code c =? 95)%N.

(** [.] matches anything but a line terminator (LF, CR below 256). *)
Definition is_dot (c : ascii) : bool :=
  negb ((code c =? 10)%N || (code c =? 13)%N).

(** The line feed. *)
Definition LF : ascii := "010"%char.

Definition only (a : ascii) (c : ascii) : bool := Ascii.eqb a c.
Definition except (a : ascii) (c : ascii) : bool := negb (Ascii.eqb a c).

Fixpoint one_of (set : string) (c : ascii) : bool :=
  match set with
  | EmptyString => false
  | String a set' => Ascii.eqb a c || one_of set' c
  end.

(** [toLowerCase] on one code unit: A-Z and the Latin-1 capitals. *)
Definition lower (c : ascii) : ascii :=
  if in_range 65 90 c || in_range 192 214 c || in_range 216 222 c
  then ascii_of_N (code c + 32) else c.

(** [toUpperCase] on one code unit, for the ASCII letters (the converter only
    upper-cases a captured direction token). *)
Definition upper (c : ascii) : ascii :=
  if in_range 97 122 c then ascii_of_N (code c - 32) else c.

End Char.

(** ** String primitives of the JavaScript runtime *)

Module Str.

Fixpoint len (s : string) : nat :=
  match s with
  | EmptyString => 0
  | String _ s' => S (len s')
  end.

Definition is_empty (s : string) : bool :=
  match s with EmptyString => true | String _ _ => false end.

Fixpoint take (n : nat) (s : string) : string :=
  match n, s with
  | S n', String c s' => String c (take n' s')
  | _, _ => EmptyString
  end.

Fixpoint drop (n : nat) (s : string) : string :=
  match n, s with
  | S n', String _ s' => drop n' s'
  | _, _ => s
  end.

(** Every code unit of [s] satisfies [p]. *)
Fixpoint all (p : ascii -> bool) (s : string) : bool :=
  match s with
  | EmptyString => true
  | String c s' => p c && all p s'
  end.

(** [s.startsWith(p)] *)
Fixpoint startsWith (p s : string) : bool :=
  match p with
  | EmptyString => true
  | String a p' =>
      match s with
      | EmptyString => false
      | String c s' => Ascii.eqb a c && startsWith p' s'
      end
  end.

(** [s.includes(p)] *)
Fixpoint includes (p s : string) : bool :=
  startsWith p s ||
  match s with
  | EmptyString => false
  | String _ s' => includes p s'
  end.

Fixpoint map (f : ascii -> ascii) (s : string) : string :=
  match s with
  | EmptyString => EmptyString
  | String c s' => String (f c) (map f s')
  end.

Definition toLowerCase : string -> string := map Char.lower.
Definition toUpperCase : string -> string := map Char.upper.

Fixpoint trimStart (s : string) : string :=
  match s with
  | EmptyString => EmptyString
  | String c s' => if Char.is_space c then trimStart s' else s
  end.

Fixpoint trimEnd (s : string) : string :=
  match s with
  | EmptyString => EmptyString
  | String c s' =>
      let t := trimEnd s' in
      if Char.is_space c && is_empty t then EmptyString else String c t
  end.

(** [s.trim()] *)
Definition trim (s : string) : string := trimEnd (trimStart s).

(** [s.split('\n')]: always at least one piece. *)
Fixpoint split_lines (s : string) : list string :=
  match s with
  | EmptyString => [EmptyString]
  | String c s' =>
      if Ascii.eqb c Char.LF then EmptyString :: split_lines s'
      else match split_lines s' with
           | l :: ls => String c l :: ls
           | [] => [String c EmptyString]
           end
  end.

(** Truthiness of [l.trim()]. *)
Definition nonblank (l : string) : bool := negb (is_empty (trim l)).

(** Decimal rendering of a template hole [${n}]. *)
Definition of_nat (n : nat) : string := NilEmpty.string_of_uint (Nat.to_uint n).

End Str.

(** ** Regular expressions *)

Module Regex.

Inductive re : Type :=
| Eps : re
| Chr : (ascii -> bool) -> re
| Seq : re -> re -> re
| Alt : re -> re -> re
| Star : bool -> re -> re          (* [true]: greedy [r*]; [false]: lazy [r*?] *)
| Grp : nat -> re -> re            (* capture group number [i] *)
| Bol : re                         (* [^] *)
| Eol : re                         (* [$] *)
| WordB : re.                      (* [\b] *)

Fixpoint lit (s : string) : re :=
  match s with
  | EmptyString => Eps
  | String c s' => Seq (Chr (Char.only c)) (lit s')
  end.

Definition Plus (g : bool) (r : re) : re := Seq r (Star g r).
Definition Opt (r : re) : re := Alt r Eps.

Fixpoint seqs (rs : list re) : re :=
  match rs with
  | [] => Eps
  | [r] => r
  | r :: rs' => Seq r (seqs rs')
  end.

Fixpoint alts (r : re) (rs : list re) : re :=
  match rs with
  | [] => r
  | r' :: rs' => Alt r (alts r' rs')
  end.

(** The matcher state: the code unit just before the cursor ([None] at the
    start of the subject), the text after the cursor and the captures made on
    the current path (latest first). *)
Record mstate : Type := MState {
  prev : option ascii;
  rest : string;
  caps : list (nat * string)
}.

Fixpoint get_cap (i : nat) (cs : list (nat * string)) : option string :=
  match cs with
  | [] => None
  | (j, v) :: cs' => if Nat.eqb i j then Some v else get_cap i cs'
  end.

(** The text consumed between two states of one run. *)
Definition consumed (st st' : mstate) : string :=
  Str.take (Str.len (rest st) - Str.len (rest st')) (rest st).

Definition word_before (st : mstate) : bool :=
  match prev st with Some c => Char.is_word c | None => false end.
Definition word_after (st : mstate) : bool :=
  match rest st with String c _ => Char.is_word c | EmptyString => false end.

(** The code unit before the cursor once [w] has been consumed. *)
Fixpoint last_or (pv : option ascii) (w : string) : option ascii :=
  match w with
  | EmptyString => pv
  | String c w' => last_or (Some c) w'
  end.

Section Matcher.
Context {A : Type}.

(** The loop of a repetition [r*] or [r*?]: [mr] runs one iteration of the
    body and [n] counts the iterations still allowed.  An iteration that
    consumes nothing is rejected, so a repetition iterates at most once per
    remaining code unit; the counter starts at the length of the remaining
    text and is never exhausted early (lemma [star_loop_fuel] below). *)
Definition star_loop (g : bool)
    (mr : (mstate -> option A) -> mstate -> option A) (k : mstate -> option A)
  : nat -> mstate -> option A :=
  fix loop (n : nat) (st : mstate) {struct n} : option A :=
    match n with
    | O => k st
    | S n' =>
        let step st' :=
          if Str.len (rest st') <? Str.len (rest st) then loop n' st' else None in
        if g then
          match mr step st with
          | Some x => Some x
          | None => k st
          end
        else
          match k st with
          | Some x => Some x
          | None => mr step st
          end
    end.

(** Backtracking matcher in continuation-passing style: [m r k st] tries the
    ways [r] can match at [st] in priority order and returns the first one
    the continuation [k] accepts. *)
Fixpoint m (r : re) (k : mstate -> option A) (st : mstate) {struct r} : option A :=
  match r with
  | Eps => k st
  | Chr p =>
      match rest st with
      | String c s' => if p c then k (MState (Some c) s' (caps st)) else None
      | EmptyString => None
      end
  | Seq r1 r2 => m r1 (m r2 k) st
  | Alt r1 r2 =>
      match m r1 k st with
      | Some x => Some x
      | None => m r2 k st
      end
  | Star g r1 => star_loop g (m r1) k (Str.len (rest st)) st
  | Grp i r1 =>
      m r1 (fun st' => k (MState (prev st') (rest st') ((i, consumed st st') :: caps st'))) st
  | Bol => match prev st with None => k st | Some _ => None end
  | Eol => match rest st with EmptyString => k st | String _ _ => None end
  | WordB => if xorb (word_before st) (word_after st) then k st else None
  end.

End Matcher.

(** A successful match: where it starts, and the state where it ends. *)
Record mresult : Type := MResult {
  index : nat;
  final : mstate
}.

(** [RegExp.prototype.exec] without flags: the leftmost start position at
    which the pattern matches. *)
Fixpoint exec_at (r : re) (p : option ascii) (s : string) (idx : nat) : option mresult :=
  match m r Some (MState p s []) with
  | Some st' => Some (MResult idx st')
  | None =>
      match s with
      | EmptyString => None
      | String c s' => exec_at r (Some c) s' (S idx)
      end
  end.

Definition exec (r : re) (s : string) : option mresult := exec_at r None s 0.

(** [r.test(s)] *)
Definition test (r : re) (s : string) : bool :=
  match exec r s with Some _ => true | None => false end.

(** [match[i]] for a capture group: [None] is [undefined]. *)
Definition group (i : nat) (res : mresult) : option string := get_cap i (caps (final res)).

(** [s.replace(r, '')] for a pattern without the [g] flag. *)
Definition remove_first (r : re) (s : string) : string :=
  match exec r s with
  | Some res => Str.take (index res) s +:+ rest (final res)
  | None => s
  end.

(** [(s.match(/lit/g) || []).length]: the matches of a literal pattern, found
    left to right, each search resuming after the previous match. *)
Fixpoint count_lit_from (p : string) (skip : nat) (s : string) : nat :=
  match s with
  | EmptyString => 0
  | String _ s' =>
      match skip with
      | S skip' => count_lit_from p skip' s'
      | O =>
          if Str.startsWith p s then S (count_lit_from p (Str.len p - 1) s')
          else count_lit_from p 0 s'
      end
  end.

Definition count_lit (p s : string) : nat := count_lit_from p 0 s.

(** The matcher read as a relation: [steps r st st'] when [r] can match from
    [st] and leave the cursor and the captures as in [st']. *)
Inductive steps : re -> mstate -> mstate -> Prop :=
| steps_eps st : steps Eps st st
| steps_chr (p : ascii -> bool) pv c s cs :
    p c = true -> steps (Chr p) (MState pv (String c s) cs) (MState (Some c) s cs)
| steps_seq r1 r2 st st1 st2 :
    steps r1 st st1 -> steps r2 st1 st2 -> steps (Seq r1 r2) st st2
| steps_alt_l r1 r2 st st' : steps r1 st st' -> steps (Alt r1 r2) st st'
| steps_alt_r r1 r2 st st' : steps r2 st st' -> steps (Alt r1 r2) st st'
| steps_star_stop g r st : steps (Star g r) st st
| steps_star_more g r st st1 st2 :
    steps r st st1 -> steps (Star g r) st1 st2 -> steps (Star g r) st st2
| steps_grp i r st st' :
    steps r st st' ->
    steps (Grp i r) st (MState (prev st') (rest st') ((i, consumed st st') :: caps st'))
| steps_bol st : prev st = None -> steps Bol st st
| steps_eol st : rest st = EmptyString -> steps Eol st st
| steps_wordb st : xorb (word_before st) (word_after st) = true -> steps WordB st st.

End Regex.

(** ** Insertion-ordered maps (the JavaScript [Map] with string keys)

    [Array.from(map.values())] lists the values in the order of first
    insertion, and [set] on an existing key keeps the key's position. *)

Module JsMap.
Section JsMap.
Context {V : Type}.

Fixpoint get (k : string) (mp : list (string * V)) : option V :=
  match mp with
  | [] => None
  | (k', v) :: mp' => if String.eqb k' k then Some v else get k mp'
  end.

Definition has (k : string) (mp : list (string * V)) : bool :=
  match get k mp with Some _ => true | None => false end.

Fixpoint set (k : string) (v : V) (mp : list (string * V)) : list (string * V) :=
  match mp with
  | [] => [(k, v)]
  | (k', v') :: mp' =>
      if String.eqb k' k then (k, v) :: mp' else (k', v') :: set k v mp'
  end.

Definition values (mp : list (string * V)) : list V := List.map snd mp.

Definition keys (mp : list (string * V)) : list string := List.map fst mp.

(** Each value carries its key as identifier. *)
Definition keyed (ident : V -> string) (mp : list (string * V)) : Prop :=
  forall k v, In (k, v) mp -> ident v = k.

End JsMap.
End JsMap.

(** ** Shape and arrow lexicon *)

Import Regex.

Inductive Shape : Type :=
  stadium | circle | subroutine | rectangle | roundedRect | diamond.

Definition shape_name (s : Shape) : string :=
  match s with
  | stadium => "stadium" | circle => "circle" | subroutine => "subroutine"
  | rectangle => "rectangle" | roundedRect => "roundedRect" | diamond => "diamond"
  end.

Record ShapeConfig : Type := {
  cfg_pattern : re;
  cfg_style : string;
  cfg_fillColor : string;
  cfg_strokeColor : string
}.

(** "/^OPEN([^C]+)CLOSE$/", the form shared by the six shape patterns. *)
Definition delimited (open : string) (c : ascii) (close : string) : re :=
  seqs [Bol; lit open; Grp 1 (Plus true (Chr (Char.except c))); lit close; Eol].

(** The entries of [SHAPE_MAPPINGS], by key. *)
Definition shape_config (s : Shape) : ShapeConfig :=
  match s with
  | stadium =>
      {| cfg_pattern := delimited "([" "]" "])";
         cfg_style := "rounded=1;arcSize=50;whiteSpace=wrap;html=1;";
         cfg_fillColor := "#d5e8d4"; cfg_strokeColor := "#82b366" |}
  | circle =>
      {| cfg_pattern := delimited "((" ")" "))";
         cfg_style := "ellipse;whiteSpace=wrap;html=1;";
         cfg_fillColor := "#f8cecc"; cfg_strokeColor := "#b85450" |}
  | subroutine =>
      {| cfg_pattern := delimited "[[" "]" "]]";
         cfg_style := "shape=process;whiteSpace=wrap;html=1;";
         cfg_fillColor := "#e1d5e7"; cfg_strokeColor := "#9673a6" |}
  | rectangle =>
      {| cfg_pattern := delimited "[" "]" "]";
         cfg_style := "rounded=0;whiteSpace=wrap;html=1;";
         cfg_fillColor := "#dae8fc"; cfg_strokeColor := "#6c8ebf" |}
  | roundedRect =>
      {| cfg_pattern := delimited "(" ")" ")";
         cfg_style := "rounded=1;whiteSpace=wrap;html=1;";
         cfg_fillColor := "#fff2cc"; cfg_strokeColor := "#d6b656" |}
  | diamond =>
      {| cfg_pattern := delimited "{" "}" "}";
         cfg_style := "rhombus;whiteSpace=wrap;html=1;";
         cfg_fillColor := "#ffe6cc"; cfg_strokeColor := "#d79b00" |}
  end.

(** [Object.entries(SHAPE_MAPPINGS)]: the keys in the order they are written. *)
Definition SHAPE_MAPPINGS : list (Shape * ShapeConfig) :=
  List.map (fun s => (s, shape_config s))
    [stadium; circle; subroutine; rectangle; roundedRect; diamond].

Record ShapeInfo : Type := {
  si_shape : Shape;
  si_label : string;
  si_style : string;
  si_fillColor : string;
  si_strokeColor : string
}.

(** A capture group that takes part in every match of its pattern. *)
Definition group_text (i : nat) (res : mresult) : string :=
  match group i res with Some v => v | None => "" end.

Fixpoint first_shape (table : list (Shape * ShapeConfig)) (nodeContent : string)
  : option ShapeInfo :=
  match table with
  | [] => None
  | (shapeName, config) :: table' =>
      match exec (cfg_pattern config) nodeContent with
      | Some mt =>
          Some {| si_shape := shapeName;
                  si_label := Str.trim (group_text 1 mt);
                  si_style := cfg_style config;
                  si_fillColor := cfg_fillColor config;
                  si_strokeColor := cfg_strokeColor config |}
      | None => first_shape table' nodeContent
      end
  end.

Definition parseNodeShape (nodeContent : string) : ShapeInfo :=
  match first_shape SHAPE_MAPPINGS nodeContent with
  | Some info => info
  | None =>
      {| si_shape := rectangle;
         si_label := Str.trim nodeContent;
         si_style := cfg_style (shape_config rectangle);
         si_fillColor := cfg_fillColor (shape_config rectangle);
         si_strokeColor := cfg_strokeColor (shape_config rectangle) |}
  end.

Inductive LineType : Type := solid | dashed | thick.
Inductive ArrowHead : Type := classic | none.

Record ArrowConfig : Type := {
  arrow_type : LineType;
  arrow_head : ArrowHead;
  hasLabel : bool
}.

Definition arrowTypes : list (string * ArrowConfig) :=
  [ ("-->",  {| arrow_type := solid;  arrow_head := classic; hasLabel := false |});
    ("---",  {| arrow_type := solid;  arrow_head := none;    hasLabel := false |});
    ("-.->", {| arrow_type := dashed; arrow_head := classic; hasLabel := false |});
    ("-.-",  {| arrow_type := dashed; arrow_head := none;    hasLabel := false |});
    ("==>",  {| arrow_type := thick;  arrow_head := classic; hasLabel := false |});
    ("-->|", {| arrow_type := solid;  arrow_head := classic; hasLabel := true |});
    ("--|",  {| arrow_type := solid;  arrow_head := none;    hasLabel := true |}) ].

Fixpoint first_arrow (table : list (string * ArrowConfig)) (arrowStr : string)
  : option ArrowConfig :=
  match table with
  | [] => None
  | (pat, config) :: table' =>
      if Str.includes pat arrowStr then Some config else first_arrow table' arrowStr
  end.

Definition parseArrow (arrowStr : string) : ArrowConfig :=
  match first_arrow arrowTypes arrowStr with
  | Some config => config
  | None => {| arrow_type := solid; arrow_head := classic; hasLabel := false |}
  end.

(** ** Nodes and connection lines *)

Record Node : Type := {
  id : string;
  label : string;
  shape : Shape;
  style : string;
  fillColor : string;
  strokeColor : string
}.

(** [{ id, ...shapeInfo }] *)
Definition node_of (nodeId : string) (info : ShapeInfo) : Node :=
  {| id := nodeId; label := si_label info; shape := si_shape info;
     style := si_style info; fillColor := si_fillColor info;
     strokeColor := si_strokeColor info |}.

(** The node a bare reference creates. *)
Definition default_node (nodeId : string) : Node :=
  {| id := nodeId; label := nodeId; shape := rectangle;
     style := cfg_style (shape_config rectangle);
     fillColor := cfg_fillColor (shape_config rectangle);
     strokeColor := cfg_strokeColor (shape_config rectangle) |}.

Record Connection : Type := {
  c_source : string;
  c_target : string;
  c_label : string;
  c_arrowType : ArrowConfig;
  c_sourceNode : option Node;
  c_targetNode : option Node
}.

Definition openers : string := "[({".
Definition closers : string := "])}".

(** The pattern of a connection line, one fragment per row. *)
Definition connectionPattern : re :=
  seqs [ Bol;                                                   (* ^ *)
         Grp 1 (Plus true (Chr Char.is_word));                  (* (\w+) *)
         Opt (Grp 2 (seqs [Chr (Char.one_of openers);           (* ([\[\(\{] *)
                           Star false (Chr Char.is_dot);        (*  .*? *)
                           Chr (Char.one_of closers)]));        (*  [\]\)\}])? *)
         Star true (Chr Char.is_space);                         (* \s* *)
         Grp 3 (alts (lit "-->")                                (* (-->|---|-\.->|-\.-|==>) *)
                  [lit "---"; lit "-.->"; lit "-.-"; lit "==>"]);
         Opt (Grp 4 (seqs [lit "|";                             (* (\| *)
                           Grp 5 (Star true (Chr (Char.except "|")));  (*  ([^|]* ) *)
                           lit "|"]));                          (*  \|)? *)
         Star true (Chr Char.is_space);                         (* \s* *)
         Grp 6 (Plus true (Chr Char.is_dot));                   (* (.+) *)
         Eol ].                                                 (* $ *)

(** The source pattern is "/^(\w+)([\[\(\{].*?[\]\)\}])$/". *)
Definition inlineDefPattern : re :=
  seqs [ Bol;
         Grp 1 (Plus true (Chr Char.is_word));
         Grp 2 (seqs [Chr (Char.one_of openers);
                      Star false (Chr Char.is_dot);
                      Chr (Char.one_of closers)]);
         Eol ].

(** Truthiness of a capture: defined and not the empty string. *)
Definition truthy (o : option string) : option string :=
  match o with
  | Some v => if Str.is_empty v then None else Some v
  | None => None
  end.

Definition parseConnection (line : string) : option Connection :=
  match exec connectionPattern line with
  | None => None
  | Some mt =>
      let sourceId := group_text 1 mt in
      let sourceShape := group 2 mt in
      let arrow := group_text 3 mt in
      let edgeLabel := group 5 mt in
      let targetPart := group_text 6 mt in
      let arrowConfig := parseArrow arrow in
      let sourceNode :=
        match truthy sourceShape with
        | Some sh => Some (node_of sourceId (parseNodeShape sh))
        | None => None
        end in
      let '(targetId, targetNode) :=
        match exec inlineDefPattern targetPart with
        | Some im =>
            (group_text 1 im,
             Some (node_of (group_text 1 im) (parseNodeShape (group_text 2 im))))
        | None => (Str.trim targetPart, None)
        end in
      Some {| c_source := sourceId;
              c_target := targetId;
              c_label := match truthy edgeLabel with Some v => v | None => "" end;
              c_arrowType := arrowConfig;
              c_sourceNode := sourceNode;
              c_targetNode := targetNode |}
  end.

(** ** Diagram type detection *)

Record Detected : Type := {
  d_type : string;
  d_direction : option string
}.

(** The source pattern is "/\b(td|tb|bt|lr|rl)\b/i"; [ci] is a literal under
    the [i] flag, which only relates ASCII letters of the two cases. *)
Definition ci (s : string) : re :=
  (fix go (s : string) : re :=
     match s with
     | EmptyString => Eps
     | String c s' =>
         Seq (Chr (fun x => Ascii.eqb (Char.lower x) (Char.lower c) && Char.in_range 0 127 x))
             (go s')
     end) s.

Definition directionPattern : re :=
  seqs [WordB; Grp 1 (alts (ci "td") [ci "tb"; ci "bt"; ci "lr"; ci "rl"]); WordB].

Definition detectDiagramType (lines : list string) : Detected :=
  let firstLine := Str.toLowerCase (Str.trim (List.hd "" lines)) in
  if Str.startsWith "flowchart" firstLine || Str.startsWith "graph" firstLine then
    let direction :=
      match exec directionPattern firstLine with
      | Some mt =>
          match truthy (option_map Str.toUpperCase (group 1 mt)) with
          | Some d => d
          | None => "TD"
          end
      | None => "TD"
      end in
    {| d_type := "flowchart"; d_direction := Some direction |}
  else if Str.startsWith "sequencediagram" firstLine then
    {| d_type := "sequence"; d_direction := None |}
  else if Str.startsWith "classdiagram" firstLine then
    {| d_type := "class"; d_direction := None |}
  else if Str.startsWith "erdiagram" firstLine then
    {| d_type := "erDiagram"; d_direction := None |}
  else if Str.startsWith "statediagram" firstLine then
    {| d_type := "state"; d_direction := None |}
  else if Str.startsWith "gitgraph" firstLine then
    {| d_type := "gitgraph"; d_direction := None |}
  else if Str.startsWith "mindmap" firstLine then
    {| d_type := "mindmap"; d_direction := None |}
  else
    {| d_type := "unknown"; d_direction := None |}.

(** ** Parsed diagrams *)

Record Edge : Type := {
  e_id : string;
  e_source : string;
  e_target : string;
  e_label : string;
  e_arrowType : option ArrowConfig      (* [None]: absent or [null] *)
}.

Record Subgraph : Type := {
  sg_id : string;
  sg_label : string;
  sg_nodes : list string
}.

Record Participant : Type := {
  p_id : string;
  p_label : string;
  p_isActor : bool
}.

Record Message : Type := {
  msg_from : string;
  msg_to : string;
  msg_message : string;
  msg_type : LineType;
  msg_isAsync : bool
}.

Record Attribute : Type := {
  attr_type : string;
  attr_name : string
}.

Record Entity : Type := {
  ent_id : string;
  ent_label : string;
  ent_attributes : list Attribute
}.

Record Relationship : Type := {
  r_id : string;
  r_source : string;
  r_target : string;
  r_cardinality1 : string;
  r_cardinality2 : string;
  r_label : string
}.

Record MindNode : Type := {
  mn_id : string;
  mn_label : string;
  mn_shape : Shape;
  mn_level : nat;
  mn_style : string;
  mn_fillColor : string;
  mn_strokeColor : string
}.

(** The dialect-specific fields of the object a scanner returns. *)
Inductive Body : Type :=
| FlowBody (direction : option string) (nodes : list Node) (edges : list Edge)
           (subgraphs : list Subgraph)
| SeqBody (participants : list Participant) (messages : list Message)
          (edges : list Edge)
| ERBody (entities : list Entity) (relationships : list Relationship)
| MindBody (nodes : list MindNode) (edges : list Edge) (direction : string).

Record Diagram : Type := {
  type : string;
  body : Body
}.

(** The ids of [diagram.nodes] and the endpoints of [diagram.edges]; for a
    sequence diagram [nodes] is the participants array, for an ER diagram
    [nodes] and [edges] are the entities and the relationships. *)
Definition node_ids (d : Diagram) : list string :=
  match body d with
  | FlowBody _ ns _ _ => List.map id ns
  | SeqBody ps _ _ => List.map p_id ps
  | ERBody es _ => List.map ent_id es
  | MindBody ns _ _ => List.map mn_id ns
  end.

Definition edge_ends (d : Diagram) : list (string * string) :=
  match body d with
  | FlowBody _ _ es _ => List.map (fun e => (e_source e, e_target e)) es
  | SeqBody _ _ es => List.map (fun e => (e_source e, e_target e)) es
  | ERBody _ rs => List.map (fun r => (r_source r, r_target r)) rs
  | MindBody _ es _ => List.map (fun e => (e_source e, e_target e)) es
  end.

(** ** Flowchart scanner *)

Record FlowState : Type := {
  fs_nodes : list (string * Node);
  fs_edges : list Edge;
  fs_subgraphs : list Subgraph;
  fs_current : option Subgraph
}.

(** The source pattern is "/subgraph\s+(\w+)(?:\s*\[([^\]]+)\])?/". *)
Definition subgraphPattern : re :=
  seqs [ lit "subgraph";
         Plus true (Chr Char.is_space);
         Grp 1 (Plus true (Chr Char.is_word));
         Opt (seqs [Star true (Chr Char.is_space); lit "[";
                    Grp 2 (Plus true (Chr (Char.except "]"))); lit "]"]) ].

(** The source pattern is "/^(\w+)([\[\(\{].+[\]\)\}])$/". *)
Definition nodeDefPattern : re :=
  seqs [ Bol;
         Grp 1 (Plus true (Chr Char.is_word));
         Grp 2 (seqs [Chr (Char.one_of openers);
                      Plus true (Chr Char.is_dot);
                      Chr (Char.one_of closers)]);
         Eol ].

(** [array.includes(x)] *)
Definition includes_id (x : string) (l : list string) : bool :=
  List.existsb (String.eqb x) l.

Definition push_unique (x : string) (l : list string) : list string :=
  if includes_id x l then l else l ++ [x].

(** Upsert of one endpoint of a connection: an inline shape always replaces
    the entry, a bare reference only creates a missing one. *)
Definition upsert (k : string) (inline : option Node) (nodes : list (string * Node))
  : list (string * Node) :=
  match inline with
  | Some n => JsMap.set k n nodes
  | None => if JsMap.has k nodes then nodes else JsMap.set k (default_node k) nodes
  end.

(** One iteration of the loop of [parseFlowchart] on the raw line [raw]. *)
Definition flow_step (st : FlowState) (raw : string) : FlowState :=
  let line := Str.trim raw in
  if Str.is_empty line || Str.startsWith "%%" line then st
  else if Str.startsWith "subgraph" line then
    match exec subgraphPattern line with
    | Some mt =>
        let sid := group_text 1 mt in
        {| fs_nodes := fs_nodes st; fs_edges := fs_edges st;
           fs_subgraphs := fs_subgraphs st;
           fs_current :=
             Some {| sg_id := sid;
                     sg_label := match truthy (group 2 mt) with Some v => v | None => sid end;
                     sg_nodes := [] |} |}
    | None => st
    end
  else if String.eqb line "end" then
    match fs_current st with
    | Some sg =>
        {| fs_nodes := fs_nodes st; fs_edges := fs_edges st;
           fs_subgraphs := fs_subgraphs st ++ [sg];
           fs_current := None |}
    | None => st
    end
  else
    match parseConnection line with
    | Some connection =>
        let nodes1 := upsert (c_source connection) (c_sourceNode connection) (fs_nodes st) in
        let nodes2 := upsert (c_target connection) (c_targetNode connection) nodes1 in
        let current :=
          match fs_current st with
          | Some sg =>
              Some {| sg_id := sg_id sg; sg_label := sg_label sg;
                      sg_nodes := push_unique (c_target connection)
                                    (push_unique (c_source connection) (sg_nodes sg)) |}
          | None => None
          end in
        {| fs_nodes := nodes2;
           fs_edges := fs_edges st ++
             [{| e_id := "e" +:+ Str.of_nat (length (fs_edges st) + 1);
                 e_source := c_source connection;
                 e_target := c_target connection;
                 e_label := c_label connection;
                 e_arrowType := Some (c_arrowType connection) |}];
           fs_subgraphs := fs_subgraphs st;
           fs_current := current |}
    | None =>
        match exec nodeDefPattern line with
        | Some mt =>
            let nodeId := group_text 1 mt in
            {| fs_nodes := JsMap.set nodeId (node_of nodeId (parseNodeShape (group_text 2 mt)))
                             (fs_nodes st);
               fs_edges := fs_edges st;
               fs_subgraphs := fs_subgraphs st;
               fs_current :=
                 match fs_current st with
                 | Some sg =>
                     Some {| sg_id := sg_id sg; sg_label := sg_label sg;
                             sg_nodes := sg_nodes sg ++ [nodeId] |}
                 | None => None
                 end |}
        | None => st
        end
    end.

Definition flow_init : FlowState :=
  {| fs_nodes := []; fs_edges := []; fs_subgraphs := []; fs_current := None |}.

(** The loop starts at index 1: the declaration line is skipped. *)
Definition flow_scan (lines : list string) : FlowState :=
  List.fold_left flow_step (List.tl lines) flow_init.

Definition parseFlowchart (lines : list string) (direction : option string) : Diagram :=
  let st := flow_scan lines in
  {| type := "flowchart";
     body := FlowBody direction (JsMap.values (fs_nodes st)) (fs_edges st)
               (fs_subgraphs st) |}.

(** ** Sequence scanner *)

(** The source pattern is "/participant\s+(\w+)(?:\s+as\s+(.+))?/"; the actor
    pattern differs in the keyword only. *)
Definition declPattern (keyword : string) : re :=
  seqs [ lit keyword;
         Plus true (Chr Char.is_space);
         Grp 1 (Plus true (Chr Char.is_word));
         Opt (seqs [Plus true (Chr Char.is_space); lit "as";
                    Plus true (Chr Char.is_space);
                    Grp 2 (Plus true (Chr Char.is_dot))]) ].

(** The pattern of a message line, one fragment per row. *)
Definition messagePattern : re :=
  seqs [ Grp 1 (Plus true (Chr Char.is_word));                (* (\w+) *)
         Star true (Chr Char.is_space);                       (* \s* *)
         Grp 2 (alts (Seq (lit "->") (Opt (lit ">")))         (* (->>?|-->>?|-) *)
                  [Seq (lit "-->") (Opt (lit ">")); lit "-"]);
         Opt (lit ">");                                       (* >? *)
         Star true (Chr Char.is_space);                       (* \s* *)
         Grp 3 (Plus true (Chr Char.is_word));                (* (\w+) *)
         Star true (Chr Char.is_space);                       (* \s* *)
         lit ":";                                             (* : *)
         Star true (Chr Char.is_space);                       (* \s* *)
         Grp 4 (Plus true (Chr Char.is_dot)) ].               (* (.+) *)

Record SeqState : Type := {
  ss_participants : list Participant;
  ss_messages : list Message
}.

Definition declared (mt : mresult) (actor : bool) : Participant :=
  {| p_id := group_text 1 mt;
     p_label := match truthy (group 2 mt) with Some v => v | None => group_text 1 mt end;
     p_isActor := actor |}.

Definition seq_step (st : SeqState) (raw : string) : SeqState :=
  let line := Str.trim raw in
  if Str.is_empty line || Str.startsWith "%%" line then st
  else
    match exec (declPattern "participant") line with
    | Some mt =>
        {| ss_participants := ss_participants st ++ [declared mt false];
           ss_messages := ss_messages st |}
    | None =>
        match exec (declPattern "actor") line with
        | Some mt =>
            {| ss_participants := ss_participants st ++ [declared mt true];
               ss_messages := ss_messages st |}
        | None =>
            match exec messagePattern line with
            | Some mt =>
                {| ss_participants := ss_participants st;
                   ss_messages := ss_messages st ++
                     [{| msg_from := group_text 1 mt;
                         msg_to := group_text 3 mt;
                         msg_message := group_text 4 mt;
                         msg_type := if Str.includes "--" (group_text 2 mt)
                                     then dashed else solid;
                         msg_isAsync := Str.includes ">>" (group_text 2 mt) |}] |}
            | None => st
            end
        end
    end.

(** [messages.map((m, i) => ({ id: `e${i + 1}`, source: m.from, ... }))] *)
Fixpoint message_edges (i : nat) (ms : list Message) : list Edge :=
  match ms with
  | [] => []
  | m0 :: ms' =>
      {| e_id := "e" +:+ Str.of_nat (i + 1);
         e_source := msg_from m0; e_target := msg_to m0;
         e_label := msg_message m0; e_arrowType := None |}
      :: message_edges (S i) ms'
  end.

Definition parseSequenceDiagram (lines : list string) : Diagram :=
  let st := List.fold_left seq_step (List.tl lines)
              {| ss_participants := []; ss_messages := [] |} in
  {| type := "sequence";
     body := SeqBody (ss_participants st) (ss_messages st)
               (message_edges 0 (ss_messages st)) |}.

(** ** Entity-relationship scanner *)

(** The source pattern is "/^(\w+)\s*\{$/". *)
Definition entityBlockPattern : re :=
  seqs [Bol; Grp 1 (Plus true (Chr Char.is_word)); Star true (Chr Char.is_space);
        lit "{"; Eol].

(** The source pattern is "/^(\w+)\s+(\w+)\s*$/". *)
Definition attrPattern : re :=
  seqs [Bol; Grp 1 (Plus true (Chr Char.is_word)); Plus true (Chr Char.is_space);
        Grp 2 (Plus true (Chr Char.is_word)); Star true (Chr Char.is_space); Eol].

Definition dquote : ascii := "034"%char.

(** The pattern of a relationship line, one fragment per row; both
    cardinality groups have an empty alternative. *)
Definition relPattern : re :=
  seqs [ Grp 1 (Plus true (Chr Char.is_word));               (* (\w+) *)
         Star true (Chr Char.is_space);                      (* \s* *)
         Grp 2 (alts (lit "||")                              (* (\|\||\|o|o\||o\{|\{o|\}\||\|\{|\{|) *)
                  [lit "|o"; lit "o|"; lit "o{"; lit "{o"; lit "}|"; lit "|{";
                   lit "{"; Eps]);
         Star true (Chr Char.is_space);                      (* \s* *)
         lit "--";                                           (* -- *)
         Star true (Chr Char.is_space);                      (* \s* *)
         Grp 3 (alts (lit "||")                              (* (\|\||\|o|o\||\{o|o\{|\|\{|\}\|||\{) *)
                  [lit "|o"; lit "o|"; lit "{o"; lit "o{"; lit "|{"; lit "}|";
                   Eps; lit "{"]);
         Star true (Chr Char.is_space);                      (* \s* *)
         Grp 4 (Plus true (Chr Char.is_word));               (* (\w+) *)
         Star true (Chr Char.is_space);                      (* \s* *)
         lit ":";                                            (* : *)
         Star true (Chr Char.is_space);                      (* \s* *)
         Opt (Chr (Char.only dquote));                       (* a double quote, optional *)
         Grp 5 (Plus true (Chr (Char.except dquote)));       (* one or more non-quotes, captured *)
         Opt (Chr (Char.only dquote)) ].                     (* a double quote, optional *)

(** The source pattern is "/(\w+)\s*\{\s*(\w+)\s+(\w+)\s*\}/". *)
Definition singleLineAttrPattern : re :=
  seqs [ Grp 1 (Plus true (Chr Char.is_word)); Star true (Chr Char.is_space);
         lit "{"; Star true (Chr Char.is_space);
         Grp 2 (Plus true (Chr Char.is_word)); Plus true (Chr Char.is_space);
         Grp 3 (Plus true (Chr Char.is_word)); Star true (Chr Char.is_space);
         lit "}" ].

(** [currentEntity] aliases the object stored in the map under its own name,
    so it is kept as that key, and a push to its attributes updates the
    map entry. *)
Record ERState : Type := {
  er_entities : list (string * Entity);
  er_relationships : list Relationship;
  er_currentEntity : option string;
  er_inEntityBlock : bool
}.

Definition ensure_entity (name : string) (es : list (string * Entity))
  : list (string * Entity) :=
  if JsMap.has name es then es
  else JsMap.set name {| ent_id := name; ent_label := name; ent_attributes := [] |} es.

Definition push_attribute (name : string) (a : Attribute) (es : list (string * Entity))
  : list (string * Entity) :=
  match JsMap.get name es with
  | Some e =>
      JsMap.set name {| ent_id := ent_id e; ent_label := ent_label e;
                        ent_attributes := ent_attributes e ++ [a] |} es
  | None => es
  end.

Definition or_default (v d : string) : string := if Str.is_empty v then d else v.

(** The part of the loop body after the attribute check. *)
Definition er_rest (st : ERState) (line : string) : ERState :=
  match exec relPattern line with
  | Some mt =>
      let entity1 := group_text 1 mt in
      let entity2 := group_text 4 mt in
      {| er_entities := ensure_entity entity2 (ensure_entity entity1 (er_entities st));
         er_relationships := er_relationships st ++
           [{| r_id := "r" +:+ Str.of_nat (length (er_relationships st) + 1);
               r_source := entity1;
               r_target := entity2;
               r_cardinality1 := or_default (group_text 2 mt) "||";
               r_cardinality2 := or_default (group_text 3 mt) "||";
               r_label := Str.trim (group_text 5 mt) |}];
         er_currentEntity := er_currentEntity st;
         er_inEntityBlock := er_inEntityBlock st |}
  | None =>
      match exec singleLineAttrPattern line with
      | Some mt =>
          let entityName := group_text 1 mt in
          {| er_entities :=
               push_attribute entityName
                 {| attr_type := group_text 2 mt; attr_name := group_text 3 mt |}
                 (ensure_entity entityName (er_entities st));
             er_relationships := er_relationships st;
             er_currentEntity := er_currentEntity st;
             er_inEntityBlock := er_inEntityBlock st |}
      | None => st
      end
  end.

Definition er_step (st : ERState) (raw : string) : ERState :=
  let line := Str.trim raw in
  if Str.is_empty line || Str.startsWith "%%" line then st
  else if String.eqb line "}" then
    {| er_entities := er_entities st; er_relationships := er_relationships st;
       er_currentEntity := None; er_inEntityBlock := false |}
  else
    match exec entityBlockPattern line with
    | Some mt =>
        let entityName := group_text 1 mt in
        {| er_entities := ensure_entity entityName (er_entities st);
           er_relationships := er_relationships st;
           er_currentEntity := Some entityName;
           er_inEntityBlock := true |}
    | None =>
        match er_inEntityBlock st, er_currentEntity st with
        | true, Some cur =>
            match exec attrPattern line with
            | Some mt =>
                {| er_entities :=
                     push_attribute cur
                       {| attr_type := group_text 1 mt; attr_name := group_text 2 mt |}
                       (er_entities st);
                   er_relationships := er_relationships st;
                   er_currentEntity := er_currentEntity st;
                   er_inEntityBlock := er_inEntityBlock st |}
            | None => er_rest st line
            end
        | _, _ => er_rest st line
        end
    end.

Definition parseERDiagram (lines : list string) : Diagram :=
  let st := List.fold_left er_step (List.tl lines)
              {| er_entities := []; er_relationships := [];
                 er_currentEntity := None; er_inEntityBlock := false |} in
  {| type := "erDiagram";
     body := ERBody (JsMap.values (er_entities st)) (er_relationships st) |}.

(** ** Mindmap scanner *)

Definition levelColors : list string :=
  ["#f8cecc"; "#dae8fc"; "#d5e8d4"; "#fff2cc"; "#e1d5e7"; "#ffe6cc"].

Definition levelStrokeColors : list string :=
  ["#b85450"; "#6c8ebf"; "#82b366"; "#d6b656"; "#9673a6"; "#d79b00"].

Definition getLevelColor (level : nat) : string :=
  List.nth (level mod length levelColors) levelColors "".

Definition getLevelStrokeColor (level : nat) : string :=
  List.nth (level mod length levelStrokeColors) levelStrokeColors "".

(** The source patterns are "/^root\(\((.+)\)\)$/", "/^\((.+)\)$/" and
    "/^\[(.+)\]$/". *)
Definition wrapped (open close : string) : re :=
  seqs [Bol; lit open; Grp 1 (Plus true (Chr Char.is_dot)); lit close; Eol].

Definition nonSpacePattern : re := Chr (fun c => negb (Char.is_space c)).

Record MindState : Type := {
  ms_nodes : list MindNode;
  ms_edges : list Edge;
  ms_nodeStack : gmap nat MindNode;     (* a sparse array indexed by level *)
  ms_nodeId : nat
}.

Definition mind_shape (content : string) : string * Shape :=
  match exec (wrapped "root((" "))") content with
  | Some mt => (group_text 1 mt, circle)
  | None =>
      match exec (wrapped "(" ")") content with
      | Some mt => (group_text 1 mt, roundedRect)
      | None =>
          match exec (wrapped "[" "]") content with
          | Some mt => (group_text 1 mt, rectangle)
          | None => (content, rectangle)
          end
      end
  end.

Definition mind_style (s : Shape) : string :=
  match s with
  | circle => "ellipse;whiteSpace=wrap;html=1;"
  | roundedRect => "rounded=1;whiteSpace=wrap;html=1;"
  | _ => "rounded=0;whiteSpace=wrap;html=1;"
  end.

(** One iteration on the raw line; a line that passes the blank check has a
    non-space code unit, so [search] finds an index. *)
Definition mind_step (st : MindState) (line : string) : MindState :=
  if Str.is_empty (Str.trim line) then st
  else
    let indent := match exec nonSpacePattern line with
                  | Some mt => index mt
                  | None => 0
                  end in
    let level := indent / 2 in
    let content := Str.trim line in
    let '(lbl, shp) := mind_shape content in
    let node :=
      {| mn_id := "node" +:+ Str.of_nat (ms_nodeId st);
         mn_label := lbl; mn_shape := shp; mn_level := level;
         mn_style := mind_style shp;
         mn_fillColor := getLevelColor level;
         mn_strokeColor := getLevelStrokeColor level |} in
    let nodeStack := <[level := node]> (ms_nodeStack st) in
    {| ms_nodes := ms_nodes st ++ [node];
       ms_edges :=
         match level with
         | O => ms_edges st
         | S parentLevel =>
             match nodeStack !! parentLevel with
             | Some parent =>
                 ms_edges st ++
                 [{| e_id := "e" +:+ Str.of_nat (length (ms_edges st) + 1);
                     e_source := mn_id parent; e_target := mn_id node;
                     e_label := ""; e_arrowType := None |}]
             | None => ms_edges st
             end
         end;
       ms_nodeStack := nodeStack;
       ms_nodeId := S (ms_nodeId st) |}.

Definition parseMindmap (lines : list string) : Diagram :=
  let st := List.fold_left mind_step (List.tl lines)
              {| ms_nodes := []; ms_edges := []; ms_nodeStack := ∅; ms_nodeId := 0 |} in
  {| type := "mindmap";
     body := MindBody (ms_nodes st) (ms_edges st) "LR" |}.

(** ** The parser entry point *)

Inductive outcome (A : Type) : Type :=
| Return (a : A)
| Throw (message : string).
Arguments Return {A} a.
Arguments Throw {A} message.

Definition backticks : string := "```".

(** "/^```mermaid\n?/", "/^```\n?/" and "/\n?```$/" *)
Definition fenceOpenPattern (tag : string) : re :=
  seqs [Bol; lit (backticks +:+ tag); Opt (Chr (Char.only Char.LF))].

Definition fenceClosePattern : re :=
  seqs [Opt (Chr (Char.only Char.LF)); lit backticks; Eol].

(** The text left after the fence handling of [parseMermaid]. *)
Definition parser_code (mermaidCode : string) : string :=
  let code := Str.trim mermaidCode in
  if Str.startsWith "```mermaid" code then
    remove_first fenceClosePattern (remove_first (fenceOpenPattern "mermaid") code)
  else if Str.startsWith "```" code then
    remove_first fenceClosePattern (remove_first (fenceOpenPattern "") code)
  else code.

Definition parseMermaid (mermaidCode : string) : outcome Diagram :=
  let code := parser_code mermaidCode in
  let lines := Str.split_lines code in
  let nonEmptyLines := List.filter Str.nonblank lines in
  match nonEmptyLines with
  | [] => Throw "Empty Mermaid diagram"
  | _ :: _ =>
      let dt := detectDiagramType nonEmptyLines in
      let direction := d_direction dt in
      if String.eqb (d_type dt) "flowchart" then
        Return (parseFlowchart nonEmptyLines direction)
      else if String.eqb (d_type dt) "sequence" then
        Return (parseSequenceDiagram nonEmptyLines)
      else if String.eqb (d_type dt) "erDiagram" then
        Return (parseERDiagram nonEmptyLines)
      else if String.eqb (d_type dt) "mindmap" then
        Return (parseMindmap lines)
      else
        Return (parseFlowchart nonEmptyLines
                  (Some (match truthy direction with Some d => d | None => "TD" end)))
  end.

(** ** Validator *)

Record Finding : Type := {
  f_line : nat;
  f_issue : string;
  f_suggestion : string
}.

Record Validation : Type := {
  isValid : bool;
  compatibility : string;
  issues : list Finding;
  warnings : list Finding;
  nodeCount : nat;
  edgeCount : nat
}.

Definition validTypes : list string :=
  ["flowchart"; "graph"; "sequencediagram"; "classdiagram"; "erdiagram";
   "statediagram"; "gitgraph"; "mindmap"].

(** The source patterns are "/^\s*(\w+)\s*[\[\(\{]/", "/^\s*(\w+)\s*--/" and
    "/^\w+$/". *)
Definition leadingIdPattern (next : re) : re :=
  seqs [Bol; Star true (Chr Char.is_space); Grp 1 (Plus true (Chr Char.is_word));
        Star true (Chr Char.is_space); next].

Definition nodeDefIdPattern : re := leadingIdPattern (Chr (Char.one_of openers)).
Definition connIdPattern : re := leadingIdPattern (lit "--").
Definition wordOnlyPattern : re := seqs [Bol; Plus true (Chr Char.is_word); Eol].

Definition validator_code (mermaidCode : string) : string :=
  let code := Str.trim mermaidCode in
  if Str.startsWith "```mermaid" code then
    remove_first fenceClosePattern (remove_first (fenceOpenPattern "mermaid") code)
  else code.

Definition invalid_id_finding (i : nat) (nodeId : string) : Finding :=
  {| f_line := i + 1;
     f_issue := "Invalid node ID: " +:+ nodeId;
     f_suggestion := "Use only alphanumeric characters and underscores" |}.

(** The findings of one iteration of the per-line loop: (issues, warnings). *)
Definition check_line (i : nat) (raw : string) : list Finding * list Finding :=
  let line := Str.trim raw in
  let styling :=
    if Str.startsWith "classDef" line || Str.startsWith "style " line then
      [{| f_line := i + 1; f_issue := "Styling directive found";
          f_suggestion := "Styling may not convert cleanly to Draw.io" |}]
    else [] in
  let arrowCount := count_lit "-->" line in
  let chained :=
    if 1 <? arrowCount then
      [{| f_line := i + 1; f_issue := "Chained arrows detected";
          f_suggestion := "Break into separate lines: A --> B and B --> C" |}]
    else [] in
  let nodeDef :=
    match exec nodeDefIdPattern line with
    | Some mt =>
        let nodeId := group_text 1 mt in
        if negb (test wordOnlyPattern nodeId) then [invalid_id_finding i nodeId] else []
    | None => []
    end in
  let conn :=
    match exec connIdPattern line with
    | Some mt =>
        if negb (test wordOnlyPattern (group_text 1 mt))
        then [invalid_id_finding i (group_text 1 mt)] else []
    | None => []
    end in
  (chained ++ nodeDef ++ conn, styling).

Fixpoint check_lines (i : nat) (lines : list string) : list Finding * list Finding :=
  match lines with
  | [] => ([], [])
  | l :: ls =>
      let '(is1, ws1) := check_line i l in
      let '(is2, ws2) := check_lines (S i) ls in
      (is1 ++ is2, ws1 ++ ws2)
  end.

Definition validateMermaid (mermaidCode : string) : Validation :=
  let code := validator_code mermaidCode in
  let lines := Str.split_lines code in
  let firstLine := Str.toLowerCase (Str.trim (List.hd "" lines)) in
  let hasValidType := List.existsb (fun t => Str.startsWith t firstLine) validTypes in
  let typeIssue :=
    if negb hasValidType then
      [{| f_line := 1; f_issue := "Missing or invalid diagram type declaration";
          f_suggestion := "Start with flowchart TD, sequenceDiagram, etc." |}]
    else [] in
  let directionWarning :=
    if Str.startsWith "flowchart" firstLine || Str.startsWith "graph" firstLine then
      if negb (test directionPattern firstLine) then
        [{| f_line := 1; f_issue := "Direction not specified";
            f_suggestion := "Add direction: TD, LR, RL, or BT" |}]
      else []
    else [] in
  let '(lineIssues, lineWarnings) := check_lines 0 lines in
  let issues := typeIssue ++ lineIssues in
  let warnings := directionWarning ++ lineWarnings in
  {| isValid := Nat.eqb (length issues) 0;
     compatibility :=
       if Nat.eqb (length issues) 0
       then (if Nat.eqb (length warnings) 0 then "high" else "medium")
       else "low";
     issues := issues;
     warnings := warnings;
     nodeCount := 0;
     edgeCount := 0 |}.

(** The count computation of the command-line [validate] action: the counts
    of a successful parse, or the zeros of [validateMermaid] when
    [parseMermaid] throws. *)
Definition validate_counts (mermaidCode : string) : nat * nat :=
  let validation := validateMermaid mermaidCode in
  match parseMermaid mermaidCode with
  | Return parseResult =>
      (length (node_ids parseResult), length (edge_ends parseResult))
  | Throw _ => (nodeCount validation, edgeCount validation)
  end.

(** ** Draw.io converter: adjacency, Start/Stop synthesis, level assignment *)

Module Drawio.

(** [outEdges] and [inEdges]: every node id is bound to an empty array, then
    every edge whose endpoint is a known id is recorded at that endpoint. *)
Definition push_at (k v : string) (adj : gmap string (list string))
  : gmap string (list string) :=
  match adj !! k with
  | Some l => <[k := l ++ [v]]> adj
  | None => adj
  end.

Definition empty_adjacency (nodes : list Node) : gmap string (list string) :=
  List.fold_left (fun adj node => <[id node := []]> adj) nodes ∅.

Definition outEdges (nodes : list Node) (edges : list Edge) : gmap string (list string) :=
  List.fold_left (fun adj edge => push_at (e_source edge) (e_target edge) adj)
    edges (empty_adjacency nodes).

Definition inEdges (nodes : list Node) (edges : list Edge) : gmap string (list string) :=
  List.fold_left (fun adj edge => push_at (e_target edge) (e_source edge) adj)
    edges (empty_adjacency nodes).

(** [adj.get(node.id).length === 0], for a node of the array the map was
    built from (its id is always bound). *)
Definition no_neighbours (adj : gmap string (list string)) (node : Node) : bool :=
  match adj !! id node with
  | Some l => Nat.eqb (length l) 0
  | None => false
  end.

Definition hasStartNode (nodes : list Node) : bool :=
  List.existsb (fun node =>
    String.eqb (id node) "Start" ||
    String.eqb (Str.toLowerCase (label node)) "start") nodes.

Definition hasStopNode (nodes : list Node) : bool :=
  List.existsb (fun node =>
    String.eqb (id node) "Stop" || String.eqb (id node) "End" ||
    String.eqb (Str.toLowerCase (label node)) "stop" ||
    String.eqb (Str.toLowerCase (label node)) "end") nodes.

Definition startNode : Node :=
  {| id := "Start"; label := "Start"; shape := stadium;
     style := cfg_style (shape_config stadium);
     fillColor := cfg_fillColor (shape_config stadium);
     strokeColor := cfg_strokeColor (shape_config stadium) |}.

Definition stopNode : Node :=
  {| id := "Stop"; label := "Stop"; shape := stadium;
     style := cfg_style (shape_config stadium);
     fillColor := "#f8cecc";
     strokeColor := "#b85450" |}.

Definition start_edge (processNode : Node) : Edge :=
  {| e_id := "e_start_" +:+ id processNode;
     e_source := "Start"; e_target := id processNode;
     e_label := ""; e_arrowType := None |}.

Definition stop_edge (processNode : Node) : Edge :=
  {| e_id := "e_" +:+ id processNode +:+ "_stop";
     e_source := id processNode; e_target := "Stop";
     e_label := ""; e_arrowType := None |}.

(** The flowchart branch at the head of [convertToDrawio]: the node and edge
    arrays handed to the layout and to the emitter. *)
Definition synthesize (nodes0 : list Node) (edges0 : list Edge) : list Node * list Edge :=
  let outE := outEdges nodes0 edges0 in
  let inE := inEdges nodes0 edges0 in
  let startNodes := List.filter (no_neighbours inE) nodes0 in
  let endNodes := List.filter (no_neighbours outE) nodes0 in
  let hasStart := hasStartNode nodes0 in
  let hasStop := hasStopNode nodes0 in
  let '(nodes1, edges1) :=
    if negb hasStart && (0 <? length startNodes) then
      (startNode :: nodes0,
       List.fold_left (fun es processNode => start_edge processNode :: es)
         startNodes edges0)
    else (nodes0, edges0) in
  if negb hasStop && (0 <? length endNodes) then
    (nodes1 ++ [stopNode], edges1 ++ List.map stop_edge endNodes)
  else (nodes1, edges1).

(** The node and edge arrays [convertToDrawio] works on, for the result of
    the flowchart scanner. *)
Definition convert_graph (d : Diagram) : option (list Node * list Edge) :=
  match body d with
  | FlowBody _ nodes edges _ =>
      if String.eqb (type d) "flowchart" then Some (synthesize nodes edges)
      else Some (nodes, edges)
  | _ => None
  end.

(** *** Level assignment of [calculatePositions] *)

Record LevelState : Type := {
  nodeLevel : gmap string nat;
  visited : gset string;
  inStack : gset string
}.

(** [assignLevels(nodeId, level, visited, inStack)] over the shared mutable
    [nodeLevel], [visited] and [inStack]; [fuel] bounds the depth of the
    recursion and [None] means the bound was hit. *)
Fixpoint assignLevels (fuel : nat) (outE : gmap string (list string))
    (nodeId : string) (level : nat) (st : LevelState) : option LevelState :=
  match fuel with
  | O => None
  | S fuel' =>
      if decide (nodeId ∈ inStack st) then Some st
      else
        let entered :=
          if decide (nodeId ∈ visited st) then
            match nodeLevel st !! nodeId with
            | Some l =>
                if l <? level
                then Some {| nodeLevel := <[nodeId := level]> (nodeLevel st);
                             visited := visited st; inStack := inStack st |}
                else None
            | None => None
            end
          else Some st in
        match entered with
        | None => Some st
        | Some st1 =>
            let st2 :=
              {| nodeLevel :=
                   <[nodeId := Nat.max (default 0 (nodeLevel st1 !! nodeId)) level]>
                     (nodeLevel st1);
                 visited := {[nodeId]} ∪ visited st1;
                 inStack := {[nodeId]} ∪ inStack st1 |} in
            let children := default [] (outE !! nodeId) in
            match
              List.fold_left
                (fun acc childId =>
                   match acc with
                   | Some s => assignLevels fuel' outE childId (level + 1) s
                   | None => None
                   end)
                children (Some st2)
            with
            | Some st3 =>
                Some {| nodeLevel := nodeLevel st3; visited := visited st3;
                        inStack := inStack st3 ∖ {[nodeId]} |}
            | None => None
            end
        end
  end.

(** The roots: the nodes without incoming edge, or the first node when every
    node has one. *)
Definition roots (nodes : list Node) (edges : list Edge) : list Node :=
  let rs := List.filter (no_neighbours (inEdges nodes edges)) nodes in
  match rs, nodes with
  | [], first :: _ => [first]
  | _, _ => rs
  end.

Definition level_init : LevelState :=
  {| nodeLevel := ∅; visited := ∅; inStack := ∅ |}.

(** [roots.forEach((root) => assignLevels(root.id, 0, visited, inStack))] *)
Definition assign_roots (fuel : nat) (nodes : list Node) (edges : list Edge)
  : option LevelState :=
  List.fold_left
    (fun acc root =>
       match acc with
       | Some s => assignLevels fuel (outEdges nodes edges) (id root) 0 s
       | None => None
       end)
    (roots nodes edges) (Some level_init).

(** The loop over the unvisited nodes: a node without level gets level 0. *)
Definition default_levels (nodes : list Node) (lv : gmap string nat) : gmap string nat :=
  List.fold_left
    (fun lv node => match lv !! id node with Some _ => lv | None => <[id node := 0]> lv end)
    nodes lv.

(** Step 1 of [calculatePositions]: the traversal state after the roots and
    the final level table. *)
Definition level_assignment (fuel : nat) (nodes : list Node) (edges : list Edge)
  : option (LevelState * gmap string nat) :=
  match assign_roots fuel nodes edges with
  | Some st => Some (st, default_levels nodes (nodeLevel st))
  | None => None
  end.

End Drawio.

(** ** Draw.io converter: escaping, the edge filter and the fixed layouts *)

Module Emit.

(** [str.replace(/c/g, by)] for a pattern of one literal code unit. *)
Fixpoint replace_all (c : ascii) (by_text : string) (s : string) : string :=
  match s with
  | EmptyString => EmptyString
  | String a s' =>
      if Ascii.eqb a c then by_text +:+ replace_all c by_text s'
      else String a (replace_all c by_text s')
  end.

(** [escapeXml], written alike in [drawio-converter.js] and
    [er-converter.js]: five replacements in a row, the ampersand first. *)
Definition escapeXml (str : string) : string :=
  if Str.is_empty str then ""
  else
    replace_all "'" "&apos;"
      (replace_all dquote "&quot;"
         (replace_all ">" "&gt;"
            (replace_all "<" "&lt;"
               (replace_all "&" "&amp;" str)))).

(** The key of the duplicate filter of [convertToDrawio]. *)
Definition edge_key (edge : Edge) : string :=
  e_source edge +:+ "->" +:+ e_target edge.

(** [edges.filter(...)] over the shared set [seenEdges]: an edge passes when
    its key is new, and the key is then recorded. *)
Fixpoint filter_seen (seenEdges : gset string) (edges : list Edge) : list Edge :=
  match edges with
  | [] => []
  | edge :: edges' =>
      if decide (edge_key edge ∈ seenEdges) then filter_seen seenEdges edges'
      else edge :: filter_seen ({[edge_key edge]} ∪ seenEdges) edges'
  end.

Definition drawn_edges (edges : list Edge) : list Edge := filter_seen ∅ edges.

(** A geometry record [{ x, y, width, height }]. *)
Record Box : Type := {
  b_x : nat;
  b_y : nat;
  b_width : nat;
  b_height : nat
}.

(** *** [convertSequenceToDrawio] *)

Definition participant_box (index : nat) : Box :=
  {| b_x := 100 + index * 180; b_y := 40; b_width := 120; b_height := 40 |}.

(** [participants.forEach((p, index) => positions.set(p.id, ...))] from
    position [index] on. *)
Fixpoint participant_positions (index : nat) (participants : list Participant)
    (positions : gmap string Box) : gmap string Box :=
  match participants with
  | [] => positions
  | p :: ps =>
      participant_positions (S index) ps (<[p_id p := participant_box index]> positions)
  end.

Definition lifelineHeight (messages : list Message) : nat :=
  (length messages + 2) * 60.

(** The lifeline of a participant: its abscissa, its top and its bottom. *)
Definition lifeline (pos : Box) (messages : list Message) : nat * nat * nat :=
  let lifelineX := b_x pos + b_width pos / 2 in
  let lifelineY := b_y pos + b_height pos in
  (lifelineX, lifelineY, lifelineY + lifelineHeight messages).

(** The geometry of one message cell: its number in [msg${index}], its
    ordinate, and the abscissas of its two ends. *)
Record MessageLine : Type := {
  ml_index : nat;
  ml_y : nat;
  ml_from : nat;
  ml_to : nat;
  ml_dashed : bool
}.

(** [messages.map((msg, index) => ...).filter(Boolean)]: a message one of
    whose ends has no position maps to the empty string and is filtered
    out. *)
Fixpoint message_lines (index : nat) (messages : list Message)
    (positions : gmap string Box) : list MessageLine :=
  match messages with
  | [] => []
  | msg :: ms =>
      let others := message_lines (S index) ms positions in
      match positions !! msg_from msg, positions !! msg_to msg with
      | Some fromPos, Some toPos =>
          {| ml_index := index;
             ml_y := 40 + 40 + (index + 1) * 60;
             ml_from := b_x fromPos + b_width fromPos / 2;
             ml_to := b_x toPos + b_width toPos / 2;
             ml_dashed := match msg_type msg with dashed => true | _ => false end |}
          :: others
      | _, _ => others
      end
  end.

(** The positions and the message cells for the result of the sequence
    scanner. *)
Definition sequence_layout (participants : list Participant) (messages : list Message)
  : gmap string Box * list MessageLine :=
  let positions := participant_positions 0 participants ∅ in
  (positions, message_lines 0 messages positions).

(** *** [convertERToDrawio] of [drawio-converter.js]

    [Math.ceil(Math.sqrt(n))] is the least [k] with [n <= k * k]; for no
    entity the loop body, and with it the division by [cols = 0], is never
    run. *)
Definition entity_box (cols index : nat) (entity : Entity) : Box :=
  {| b_x := 100 + (index mod cols) * 250;
     b_y := 40 + (index / cols) * 150;
     b_width := 160;
     b_height := 80 + length (ent_attributes entity) * 20 |}.

Fixpoint entity_positions (cols index : nat) (entities : list Entity)
    (positions : gmap string Box) : gmap string Box :=
  match entities with
  | [] => positions
  | entity :: es =>
      entity_positions cols (S index) es
        (<[ent_id entity := entity_box cols index entity]> positions)
  end.

Definition er_positions (entities : list Entity) : gmap string Box :=
  entity_positions (Nat.sqrt_up (length entities)) 0 entities ∅.

End Emit.

(** ** The dedicated entity-relationship converter *)

Module ERConverter.

Import Emit.

Definition getEntityHeight (entity : Entity) : nat :=
  Nat.max (40 + length (ent_attributes entity) * 24) 60.

(** [targetCount]: how many relationships point at each entity. *)
Definition targetCount (relationships : list Relationship) : gmap string nat :=
  List.fold_left
    (fun tc rel => <[r_target rel := default 0 (tc !! r_target rel) + 1]> tc)
    relationships ∅.

(** The loop state of the default grid: the positions, the row and the
    column of the next entity. *)
Record GridState : Type := {
  g_positions : gmap string Box;
  g_row : nat;
  g_col : nat
}.

Definition grid_step (cols : nat) (st : GridState) (entity : Entity) : GridState :=
  let positions :=
    <[ent_id entity :=
        {| b_x := 100 + g_col st * 300; b_y := 60 + g_row st * 250;
           b_width := 180; b_height := getEntityHeight entity |}]> (g_positions st) in
  if cols <=? S (g_col st)
  then {| g_positions := positions; g_row := S (g_row st); g_col := 0 |}
  else {| g_positions := positions; g_row := g_row st; g_col := S (g_col st) |}.

Definition grid_cols (numEntities : nat) : nat :=
  let cols := Nat.sqrt_up numEntities in
  let cols := if cols <? 2 then 2 else cols in
  let cols := if numEntities <=? 3 then numEntities else cols in
  if numEntities =? 4 then 2 else cols.

(** The main entities of the three-entity layout, left and right on top. *)
Fixpoint place_others (index : nat) (others : list Entity) (positions : gmap string Box)
  : gmap string Box :=
  match others with
  | [] => positions
  | entity :: es =>
      place_others (S index) es
        (<[ent_id entity :=
             {| b_x := 100 + index * 300 * 2; b_y := 60;
                b_width := 180; b_height := getEntityHeight entity |}]> positions)
  end.

(** [calculateERPositions]; the [connections] map it also builds is never
    read. *)
Definition calculateERPositions (entities : list Entity)
    (relationships : list Relationship) : gmap string Box :=
  let tc := targetCount relationships in
  let targeted (e : Entity) := default 0 (tc !! ent_id e) in
  let junctionTables := List.filter (fun e => 2 <=? targeted e) entities in
  let mainEntities := List.filter (fun e => targeted e <? 2) entities in
  match (length entities =? 3) && (length junctionTables =? 1), junctionTables with
  | true, junction :: _ =>
      place_others 0 mainEntities
        (<[ent_id junction :=
             {| b_x := 100 + 300; b_y := 60 + 250;
                b_width := 180; b_height := getEntityHeight junction |}]> ∅)
  | _, _ =>
      g_positions
        (List.fold_left (grid_step (grid_cols (length entities))) entities
           {| g_positions := ∅; g_row := 0; g_col := 0 |})
  end.

End ERConverter.

(** ** Markdown converter: the flow analysis *)

Module Markdown.

(** The nodes no edge points at. *)
Definition findEntryPoints (nodes : list Node) (edges : list Edge) : list Node :=
  let hasIncoming : gset string := list_to_set (List.map e_target edges) in
  List.filter (fun n => negb (bool_decide (id n ∈ hasIncoming))) nodes.

(** The nodes no edge leaves. *)
Definition findExitPoints (nodes : list Node) (edges : list Edge) : list Node :=
  let hasOutgoing : gset string := list_to_set (List.map e_source edges) in
  List.filter (fun n => negb (bool_decide (id n ∈ hasOutgoing))) nodes.

Definition getDirectionDescription (direction : string) : string :=
  if String.eqb direction "TD" then "Top to Bottom"
  else if String.eqb direction "TB" then "Top to Bottom"
  else if String.eqb direction "BT" then "Bottom to Top"
  else if String.eqb direction "LR" then "Left to Right"
  else if String.eqb direction "RL" then "Right to Left"
  else direction.

End Markdown.

(** * Vocabulary of the statements

    The predicates the properties are stated with, the invariants their
    proofs carry, and the sample inputs they are instantiated at. *)

#[local] Arguments String.append !_ _ : simpl nomatch.

(** ** Shape lexicon *)

(** The descriptor [parseNodeShape] returns for shape [s] with label [lbl]. *)
Definition shape_info (s : Shape) (lbl : string) : ShapeInfo :=
  {| si_shape := s; si_label := lbl;
     si_style := cfg_style (shape_config s);
     si_fillColor := cfg_fillColor (shape_config s);
     si_strokeColor := cfg_strokeColor (shape_config s) |}.

(** ** Lines of a text *)

(** The first line with a non-space code unit. *)
Definition first_nonempty_line (s : string) : option string :=
  List.head (List.filter Str.nonblank (Str.split_lines s)).

(** The non-blank lines, each trimmed. *)
Definition trimmed_lines (s : string) : list string :=
  List.map Str.trim (List.filter Str.nonblank (Str.split_lines s)).

(** Appending one code unit other than a line feed extends the last line. *)
Fixpoint snoc_last (c : ascii) (ls : list string) : list string :=
  match ls with
  | [] => [String c ""]
  | [l] => [l +:+ String c ""]
  | l :: ls' => l :: snoc_last c ls'
  end.

(** ** Dialects *)

(** The declaration keywords of the four dialects, in lower case, each with
    the kind tag of the dialect it selects. *)
Definition dialect_keywords : list (string * string) :=
  [ ("flowchart", "flowchart"); ("graph", "flowchart");
    ("sequencediagram", "sequence"); ("erdiagram", "erDiagram");
    ("mindmap", "mindmap") ].

Definition dialect_kinds : list string :=
  ["flowchart"; "sequence"; "erDiagram"; "mindmap"].

(** [line] starts with keyword [kw], whatever the case of its letters and the
    space around it. *)
Definition declares (kw line : string) : bool :=
  Str.startsWith kw (Str.toLowerCase (Str.trim line)).

(** The type tag [parseMermaid] returns for a detected type. *)
Definition dispatched (t : string) : string :=
  if String.eqb t "flowchart" then "flowchart"
  else if String.eqb t "sequence" then "sequence"
  else if String.eqb t "erDiagram" then "erDiagram"
  else if String.eqb t "mindmap" then "mindmap"
  else "flowchart".

(** A text wrapped in a bare fence: a line of three backticks before it and
    after it. *)
Definition fenced (body : string) : string :=
  backticks +:+ String Char.LF body +:+ String Char.LF backticks.

Definition sample_sequence : string :=
  "  SequenceDiagram" +:+ String Char.LF "A->>B: hi".

Definition sample_pie : string := "pie title Pets".

Definition sample_fenced_body : string :=
  "flowchart TD" +:+ String Char.LF "A --> B".

(** ** Validator findings *)

Definition chained_finding (i : nat) : Finding :=
  {| f_line := i + 1; f_issue := "Chained arrows detected";
     f_suggestion := "Break into separate lines: A --> B and B --> C" |}.

Definition missing_type_finding : Finding :=
  {| f_line := 1; f_issue := "Missing or invalid diagram type declaration";
     f_suggestion := "Start with flowchart TD, sequenceDiagram, etc." |}.

Definition is_invalid_id_issue (f : Finding) : bool :=
  Str.startsWith "Invalid node ID" (f_issue f).

(** A flowchart whose first node identifier holds a hyphen. *)
Definition hyphenated_id_input : string :=
  "flowchart TD" +:+ String Char.LF "my-node[Label] --> B".

Definition arrow : string := "-->".

(** Some line of the text holds two or more plain arrows. *)
Definition has_chained_line (s : string) : Prop :=
  exists l, In l (Str.split_lines s) /\ 2 <= count_lit arrow l.

(** No line of the text is a [classDef] or [style] directive. *)
Definition no_styling (s : string) : Prop :=
  forall l, In l (Str.split_lines s) ->
    Str.startsWith "classDef" (Str.trim l) = false /\
    Str.startsWith "style " (Str.trim l) = false.

(** The first line of the text is the declaration [flowchart LR]. *)
Definition declares_flowchart_lr (s : string) : Prop :=
  Str.toLowerCase (Str.trim (List.hd "" (Str.split_lines s))) = "flowchart lr".

(** A code unit that is no part of a plain arrow. *)
Definition plain (c : ascii) : bool :=
  negb (Ascii.eqb "-" c) && negb (Ascii.eqb ">" c).

Definition sample_chained : string :=
  "flowchart TD" +:+ String Char.LF "A --> B --> C".

Definition sample_clean : string :=
  "flowchart LR" +:+ String Char.LF ("A --> B" +:+ String Char.LF "B --> C").

(** ** Flowchart re-declarations *)

(** The ids for which a flowchart line carries an inline shape. *)
Definition shaped_ids (line : string) : list string :=
  match parseConnection line with
  | Some c =>
      (match c_sourceNode c with Some _ => [c_source c] | None => [] end) ++
      (match c_targetNode c with Some _ => [c_target c] | None => [] end)
  | None =>
      match exec nodeDefPattern line with
      | Some mt => [group_text 1 mt]
      | None => []
      end
  end.

Definition shape1_node : Node := node_of "A" (shape_info rectangle "Shape1").

(** ** Edges and nodes *)

(** Every edge of the diagram joins two of its nodes. *)
Definition edges_closed (d : Diagram) : Prop :=
  forall s t, In (s, t) (edge_ends d) -> In s (node_ids d) /\ In t (node_ids d).

(** A sequence diagram whose only line is a message between participants
    that no line declares. *)
Definition undeclared_participants_input : string :=
  "sequenceDiagram" +:+ String Char.LF "Alice->>Bob: Hello".

Definition flow_ok (st : FlowState) : Prop :=
  JsMap.keyed id (fs_nodes st) /\
  forall e, In e (fs_edges st) ->
    In (e_source e) (JsMap.keys (fs_nodes st)) /\
    In (e_target e) (JsMap.keys (fs_nodes st)).

Definition er_ok (st : ERState) : Prop :=
  JsMap.keyed ent_id (er_entities st) /\
  forall r, In r (er_relationships st) ->
    In (r_source r) (JsMap.keys (er_entities st)) /\
    In (r_target r) (JsMap.keys (er_entities st)).

Definition mind_ok (st : MindState) : Prop :=
  (forall lv p, ms_nodeStack st !! lv = Some p ->
                In (mn_id p) (List.map mn_id (ms_nodes st))) /\
  forall e, In e (ms_edges st) ->
    In (e_source e) (List.map mn_id (ms_nodes st)) /\
    In (e_target e) (List.map mn_id (ms_nodes st)).

(** ** Terminal nodes *)

(** No edge enters (leaves) the node. *)
Definition zero_in (edges : list Edge) (n : Node) : Prop :=
  forall e, In e edges -> e_target e <> id n.

Definition zero_out (edges : list Edge) (n : Node) : Prop :=
  forall e, In e edges -> e_source e <> id n.

(** The text is Start, Stop or End, whatever the case of its letters. *)
Definition terminal_name (s : string) : bool :=
  let t := Str.toLowerCase s in
  String.eqb t "start" || String.eqb t "stop" || String.eqb t "end".

Definition names_terminal (n : Node) : bool :=
  terminal_name (id n) || terminal_name (label n).

Definition go_stop2_input : string :=
  "flowchart TD" +:+ String Char.LF "X[Go] --> Y[Stop2]".

Definition endpoints (es : list Edge) : list (string * string) :=
  List.map (fun e => (e_source e, e_target e)) es.

Definition x_node : Node := node_of "X" (shape_info rectangle "Go").
Definition y_node : Node := node_of "Y" (shape_info rectangle "Stop2").

Definition xy_edges : list Edge :=
  [{| e_id := "e1"; e_source := "X"; e_target := "Y"; e_label := "";
      e_arrowType := Some (parseArrow "-->") |}].

(** ** Level assignment *)

(** Every level recorded so far belongs to a visited node and conversely. *)
Definition consistent (st : Drawio.LevelState) : Prop :=
  dom (Drawio.nodeLevel st) = Drawio.visited st.

(** The loop over the children inside [assignLevels]. *)
Definition visit_children (fuel : nat) (outE : gmap string (list string))
    (level : nat) (children : list string) (acc : option Drawio.LevelState)
  : option Drawio.LevelState :=
  List.fold_left
    (fun acc childId =>
       match acc with
       | Some s => Drawio.assignLevels fuel outE childId (level + 1) s
       | None => None
       end)
    children acc.

(** A two-node cycle. *)
Definition cycle_nodes : list Node := [default_node "A"; default_node "B"].

Definition cycle_edges : list Edge :=
  [{| e_id := "e1"; e_source := "A"; e_target := "B"; e_label := "";
      e_arrowType := None |};
   {| e_id := "e2"; e_source := "B"; e_target := "A"; e_label := "";
      e_arrowType := None |}].


(** ** Vocabulary of the further properties *)

(** The ids of the edges of a diagram (of the relationships, for an
    entity-relationship diagram) and the ids 1 to [n] under a prefix. *)
Definition edge_ids (d : Diagram) : list string :=
  match body d with
  | FlowBody _ _ es _ => List.map e_id es
  | SeqBody _ _ es => List.map e_id es
  | ERBody _ rs => List.map r_id rs
  | MindBody _ es _ => List.map e_id es
  end.

Definition numbered (prefix : string) (n : nat) : list string :=
  List.map (fun i => prefix +:+ Str.of_nat i) (List.seq 1 n).

Definition edge_prefix (d : Diagram) : string :=
  match body d with ERBody _ _ => "r" | _ => "e" end.

Definition subgraphs_of (d : Diagram) : list Subgraph :=
  match body d with FlowBody _ _ _ sgs => sgs | _ => [] end.

(** A sequence diagram that declares one participant twice. *)
Definition twice_declared_input : string :=
  "sequenceDiagram" +:+ String Char.LF
    ("participant A" +:+ String Char.LF "participant A").

(** The ids node0, node1, ... of the first [n] mindmap nodes. *)
Definition mind_ids (n : nat) : list string :=
  List.map (fun i => "node" +:+ Str.of_nat i) (List.seq 0 n).

(** ** Captures *)

(** The numbers of the capture groups of a pattern. *)
Fixpoint groups (r : re) : list nat :=
  match r with
  | Seq r1 r2 | Alt r1 r2 => groups r1 ++ groups r2
  | Star _ r1 => groups r1
  | Grp i r1 => i :: groups r1
  | _ => []
  end.

(** ** Arrows and directions *)

(** The arrow tokens of a connection line and the direction tokens of a
    flowchart declaration. *)
Definition connection_arrows : list string := ["-->"; "---"; "-.->"; "-.-"; "==>"].

Definition directions : list string := ["TD"; "TB"; "BT"; "LR"; "RL"].

Definition direction_phrases : list string :=
  ["Top to Bottom"; "Bottom to Top"; "Left to Right"; "Right to Left"].

(** The direction of a parsed flowchart. *)
Definition direction_of (d : Diagram) : option string :=
  match body d with FlowBody direction _ _ _ => direction | _ => None end.

(** The connection a line with two bare identifiers stands for. *)
Definition bare_connection (a tok b : string) : Connection :=
  {| c_source := a; c_target := b; c_label := ""; c_arrowType := parseArrow tok;
     c_sourceNode := None; c_targetNode := None |}.

(** A non-empty run of word characters. *)
Definition identifier (s : string) : Prop := s <> "" /\ Str.all Char.is_word s = true.

(** ** Subgraphs, mindmaps and relationships *)

(** A line that closes (opens) a subgraph. *)
Definition closes_subgraph (l : string) : bool := String.eqb (Str.trim l) "end".

Definition opens_subgraph (l : string) : bool := Str.startsWith "subgraph" (Str.trim l).

Definition mind_nodes (d : Diagram) : list MindNode :=
  match body d with MindBody ns _ _ => ns | _ => [] end.

Definition mind_edges (d : Diagram) : list Edge :=
  match body d with MindBody _ es _ => es | _ => [] end.

(** The edge joins a node to a node one level deeper. *)
Definition parent_child (ns : list MindNode) (e : Edge) : Prop :=
  exists p c, In p ns /\ In c ns /\ e_source e = mn_id p /\ e_target e = mn_id c /\
              mn_level c = S (mn_level p).

Definition sample_mindmap : list string :=
  ["mindmap"; "root((Plan))"; "  Build"; "    Test"; "  Ship"].

Definition relationships_of (d : Diagram) : list Relationship :=
  match body d with ERBody _ rs => rs | _ => [] end.

(** The cardinality tokens of a relationship line. *)
Definition cardinality_tokens : list string :=
  ["||"; "|o"; "o|"; "o{"; "{o"; "}|"; "|{"; "{"].

Definition sample_er : string :=
  "erDiagram" +:+ String Char.LF "CUSTOMER ||--o{ ORDER : places".

Definition sample_subgraph : string :=
  "flowchart TD" +:+ String Char.LF
    ("subgraph S1 [Stage]" +:+ String Char.LF
       ("A --> B" +:+ String Char.LF "end")).

(** ** Validator findings and fences *)

(** The lines the validator scans, and all its findings. *)
Definition scanned_lines (input : string) : list string :=
  Str.split_lines (validator_code input).

Definition findings (v : Validation) : list Finding := issues v ++ warnings v.

(** A styling directive line. *)
Definition styling_line (l : string) : bool :=
  Str.startsWith "classDef" (Str.trim l) || Str.startsWith "style " (Str.trim l).

Definition sample_styled : string :=
  "flowchart LR" +:+ String Char.LF
    ("A --> B" +:+ String Char.LF "style A fill:#f9f").

(** A text wrapped in a fence with the language tag. *)
Definition mermaid_fenced (body : string) : string :=
  "```mermaid" +:+ String Char.LF body +:+ String Char.LF backticks.

(** ** Escaping and the edge filter *)

(** The entity of one code unit, and a text escaped unit by unit. *)
Definition escape_unit (c : ascii) : string :=
  if Ascii.eqb c "&" then "&amp;"
  else if Ascii.eqb c "<" then "&lt;"
  else if Ascii.eqb c ">" then "&gt;"
  else if Ascii.eqb c dquote then "&quot;"
  else if Ascii.eqb c "'" then "&apos;"
  else String c "".

Fixpoint escape_each (s : string) : string :=
  match s with
  | EmptyString => EmptyString
  | String c s' => escape_unit c +:+ escape_each s'
  end.

(** The code units that end an attribute value or open a tag. *)
Definition markup (c : ascii) : bool :=
  Ascii.eqb c "<" || Ascii.eqb c ">" || Ascii.eqb c dquote || Ascii.eqb c "'".

(** The edges of a parsed flowchart. *)
Definition flow_edges (d : Diagram) : list Edge :=
  match body d with FlowBody _ _ es _ => es | _ => [] end.

Definition sample_repeated : string :=
  "flowchart TD" +:+ String Char.LF
    ("A --> B" +:+ String Char.LF ("A -.-> B" +:+ String Char.LF "B --> A")).

(** ** Graphs handed to the layout *)

(** Every edge joins two of the nodes. *)
Definition closed_graph (nodes : list Node) (edges : list Edge) : Prop :=
  forall e, In e edges ->
    In (e_source e) (List.map id nodes) /\ In (e_target e) (List.map id nodes).

(** A three-node chain without terminal names. *)
Definition chain_nodes : list Node :=
  [default_node "A"; default_node "B"; default_node "C"].

Definition plain_edge (n : nat) (s t : string) : Edge :=
  {| e_id := "e" +:+ Str.of_nat n; e_source := s; e_target := t; e_label := "";
     e_arrowType := None |}.

Definition chain_edges : list Edge := [plain_edge 1 "A" "B"; plain_edge 2 "B" "C"].

(** ** Levels *)

(** The state [assignLevels] hands to the loop over the children, the state
    it returns after the loop, and the test for returning at once. *)
Definition enter (nodeId : string) (level : nat) (st : Drawio.LevelState)
  : Drawio.LevelState :=
  {| Drawio.nodeLevel := <[nodeId := level]> (Drawio.nodeLevel st);
     Drawio.visited := {[nodeId]} ∪ Drawio.visited st;
     Drawio.inStack := {[nodeId]} ∪ Drawio.inStack st |}.

Definition leave (nodeId : string) (st : Drawio.LevelState) : Drawio.LevelState :=
  {| Drawio.nodeLevel := Drawio.nodeLevel st;
     Drawio.visited := Drawio.visited st;
     Drawio.inStack := Drawio.inStack st ∖ {[nodeId]} |}.

Definition skips (nodeId : string) (level : nat) (st : Drawio.LevelState) : bool :=
  if decide (nodeId ∈ Drawio.inStack st) then true
  else if decide (nodeId ∈ Drawio.visited st) then
    match Drawio.nodeLevel st !! nodeId with
    | Some l => negb (l <? level)
    | None => true
    end
  else false.

(** [w] is listed among the targets of [u]. *)
Definition child (outE : gmap string (list string)) (u w : string) : Prop :=
  exists cs, outE !! u = Some cs /\ In w cs.

(** A walk of [l] edges from [r] to [k]. *)
Inductive walk (outE : gmap string (list string)) (r : string) : nat -> string -> Prop :=
| walk_here : walk outE r 0 r
| walk_step l u w : walk outE r l u -> child outE u w -> walk outE r (S l) w.

(** The edges go up along a ranking of the nodes: the graph has no cycle. *)
Definition ranked (rank : string -> nat) (edges : list Edge) : Prop :=
  forall e, In e edges -> rank (e_source e) < rank (e_target e).

(** A graph with two paths of different length from A to C. *)
Definition diamond_nodes : list Node :=
  [default_node "A"; default_node "C"; default_node "B"].

Definition diamond_edges : list Edge :=
  [plain_edge 1 "A" "C"; plain_edge 2 "A" "B"; plain_edge 3 "B" "C"].

Definition diamond_rank (s : string) : nat :=
  if String.eqb s "A" then 0 else if String.eqb s "B" then 1 else 2.

(** ** Invariants of the scans *)

(** The entity names are distinct and the relationships numbered. *)
Definition er_numbered (st : ERState) : Prop :=
  NoDup (JsMap.keys (er_entities st)) /\
  List.map r_id (er_relationships st) = numbered "r" (length (er_relationships st)).

(** The nodes and the edges of a mindmap are numbered. *)
Definition mind_numbered (st : MindState) : Prop :=
  List.map mn_id (ms_nodes st) = mind_ids (ms_nodeId st) /\
  List.map e_id (ms_edges st) = numbered "e" (length (ms_edges st)).

(** The members of the closed subgraphs and of the open one are nodes. *)
Definition members_ok (st : FlowState) : Prop :=
  (forall sg x, In sg (fs_subgraphs st) -> In x (sg_nodes sg) ->
                In x (JsMap.keys (fs_nodes st))) /\
  (forall sg x, fs_current st = Some sg -> In x (sg_nodes sg) ->
                In x (JsMap.keys (fs_nodes st))).

(** The subgraphs, the open one included, against the lines that open and
    close them. *)
Definition counted (lines : list string) (st : FlowState) : Prop :=
  length (fs_subgraphs st) <= length (List.filter closes_subgraph lines) /\
  length (fs_subgraphs st) + match fs_current st with Some _ => 1 | None => 0 end
    <= length (List.filter opens_subgraph lines).

(** The stack holds nodes at their levels; every edge joins a parent to a
    child, and no node is the target of two edges. *)
Definition forest (st : MindState) : Prop :=
  (forall lv p, ms_nodeStack st !! lv = Some p -> In p (ms_nodes st) /\ mn_level p = lv) /\
  (forall e, In e (ms_edges st) -> parent_child (ms_nodes st) e) /\
  (forall e, In e (ms_edges st) -> In (e_target e) (mind_ids (ms_nodeId st))) /\
  NoDup (List.map e_target (ms_edges st)).

(** Both cardinalities of every relationship are tokens. *)
Definition cardinalities_ok (st : ERState) : Prop :=
  forall r, In r (er_relationships st) ->
    In (r_cardinality1 r) cardinality_tokens /\ In (r_cardinality2 r) cardinality_tokens.

(** The five replacements in the order of the source. *)
Definition replace_five (s : string) : string :=
  Emit.replace_all "'" "&apos;"
    (Emit.replace_all dquote "&quot;"
       (Emit.replace_all ">" "&gt;" (Emit.replace_all "<" "&lt;" (Emit.replace_all "&" "&amp;" s)))).

(** ** Invariants of the traversal *)

(** The recorded levels satisfy [Q]. *)
Definition recorded (Q : string -> nat -> Prop) (st : Drawio.LevelState) : Prop :=
  consistent st /\ forall k l, Drawio.nodeLevel st !! k = Some l -> Q k l.

(** Off the stack, every visited node lies above each of its children. *)
Definition deep (outE : gmap string (list string)) (st : Drawio.LevelState) : Prop :=
  forall u w, u ∈ Drawio.visited st -> u ∉ Drawio.inStack st -> child outE u w ->
    exists lu lw, Drawio.nodeLevel st !! u = Some lu /\
                  Drawio.nodeLevel st !! w = Some lw /\ lu < lw.

(** No level goes down from [st] to [st']. *)
Definition below (st st' : Drawio.LevelState) : Prop :=
  forall k l, Drawio.nodeLevel st !! k = Some l ->
    exists l', Drawio.nodeLevel st' !! k = Some l' /\ l <= l'.

(** The nodes on the stack of [st] keep their levels. *)
Definition frozen (st st' : Drawio.LevelState) : Prop :=
  forall a, a ∈ Drawio.inStack st -> Drawio.nodeLevel st' !! a = Drawio.nodeLevel st !! a.

Definition reached (nodeId : string) (level : nat) (st : Drawio.LevelState) : Prop :=
  exists l, Drawio.nodeLevel st !! nodeId = Some l /\ level <= l.

(** What a call of [assignLevels] on [nodeId] at [level] leaves behind. *)
Definition post (outE : gmap string (list string)) (nodeId : string) (level : nat)
    (st st' : Drawio.LevelState) : Prop :=
  consistent st' /\ deep outE st' /\ Drawio.inStack st' = Drawio.inStack st /\
  below st st' /\ frozen st st' /\ reached nodeId level st'.

(** The levels stay under the number of visited nodes, and the stack is
    part of the visited nodes. *)
Definition bounded (st : Drawio.LevelState) : Prop :=
  Drawio.inStack st ⊆ Drawio.visited st /\
  forall k l, Drawio.nodeLevel st !! k = Some l -> l < size (Drawio.visited st).

(** ** Layouts *)

(** Two boxes that share no inner point. *)
Definition apart (a b : Emit.Box) : Prop :=
  Emit.b_x a + Emit.b_width a <= Emit.b_x b \/
  Emit.b_x b + Emit.b_width b <= Emit.b_x a \/
  Emit.b_y a + Emit.b_height a <= Emit.b_y b \/
  Emit.b_y b + Emit.b_height b <= Emit.b_y a.

(** The name is the id of one of the participants. *)
Definition is_participant (participants : list Participant) (name : string) : Prop :=
  In name (List.map p_id participants).

(** The point lies on the lifeline under the box, strictly between its two
    ends. *)
Definition on_lifeline (pos : Emit.Box) (messages : list Message) (x y : nat) : Prop :=
  let '(lifelineX, top, bottom) := Emit.lifeline pos messages in
  x = lifelineX /\ top < y /\ y < bottom.

(** An entity with [n] attributes. *)
Definition wide_entity (name : string) (n : nat) : Entity :=
  {| ent_id := name; ent_label := name;
     ent_attributes := List.repeat {| attr_type := "int"; attr_name := "a" |} n |}.

(** * Properties *)

Import Drawio.

(** ** Strings and the matcher *)

Module StrFacts.

Lemma len_app (a b : string) : Str.len (a +:+ b) = Str.len a + Str.len b.
Proof. induction a as [|c a IH]; simpl; [reflexivity | now rewrite IH]. Qed.

Lemma take_app_len (w r : string) :
  Str.take (Str.len (w +:+ r) - Str.len r) (w +:+ r) = w.
Proof.
  rewrite len_app. replace (Str.len w + Str.len r - Str.len r) with (Str.len w) by lia.
  induction w as [|c w IH]; simpl.
  - destruct r; reflexivity.
  - now rewrite IH.
Qed.

Lemma app_assoc (a b c : string) : (a +:+ b) +:+ c = a +:+ (b +:+ c).
Proof. induction a as [|x a IH]; simpl; [reflexivity | f_equal; exact IH]. Qed.

Lemma app_empty_r (a : string) : a +:+ "" = a.
Proof. induction a as [|x a IH]; simpl; [reflexivity | f_equal; exact IH]. Qed.

End StrFacts.

Module RegexFacts.
Import StrFacts.

Section Run.
Context {A : Type}.
Implicit Types (k : mstate -> option A).

Lemma m_lit s k pv r cs :
  m (lit s) k (MState pv (s +:+ r) cs) = k (MState (last_or pv s) r cs).
Proof.
  revert pv. induction s as [|c s IH]; intros pv; simpl; [reflexivity|].
  unfold Char.only. rewrite Ascii.eqb_refl. apply IH.
Qed.

Lemma m_lit_end s k pv cs :
  m (lit s) k (MState pv s cs) = k (MState (last_or pv s) "" cs).
Proof. rewrite <- (app_empty_r s) at 2. apply m_lit. Qed.

(** A greedy repetition of a character class takes the whole run of class
    members when the continuation accepts the state after the run. *)
Lemma star_class_greedy p k w : forall n pv r cs x,
  Str.all p w = true ->
  match r with EmptyString => True | String c _ => p c = false end ->
  Str.len w <= n ->
  k (MState (last_or pv w) r cs) = Some x ->
  star_loop true (m (Chr p)) k n (MState pv (w +:+ r) cs) = Some x.
Proof.
  induction w as [|c w IH]; intros n pv r cs x Hall Hr Hn Hk; simpl in *.
  - destruct n as [|n]; simpl; [exact Hk|].
    destruct r as [|c r]; [now rewrite Hk|]. now rewrite Hr, Hk.
  - destruct n as [|n]; [lia|]. apply andb_prop in Hall as [Hc Hall].
    simpl. rewrite Hc. simpl.
    replace (Str.len (w +:+ r) <? S (Str.len (w +:+ r))) with true
      by (symmetry; apply Nat.ltb_lt; lia).
    rewrite (IH n (Some c) r cs x Hall Hr ltac:(lia) Hk). reflexivity.
Qed.

Lemma m_star_class_greedy p k w pv r cs x :
  Str.all p w = true ->
  match r with EmptyString => True | String c _ => p c = false end ->
  k (MState (last_or pv w) r cs) = Some x ->
  m (Star true (Chr p)) k (MState pv (w +:+ r) cs) = Some x.
Proof.
  intros. simpl. apply star_class_greedy; auto. rewrite len_app. lia.
Qed.

End Run.

Lemma exec_at_bol r : forall s c idx, exec_at (Seq Bol r) (Some c) s idx = None.
Proof.
  induction s as [|a s IH]; intros c idx; simpl; [reflexivity | apply IH].
Qed.

Lemma exec_anchored r s :
  exec (Seq Bol r) s =
  match m r Some (MState None s []) with
  | Some st' => Some (MResult 0 st')
  | None => None
  end.
Proof.
  unfold exec. destruct s as [|a s]; simpl.
  - destruct (m r Some _); reflexivity.
  - destruct (m r Some _); [reflexivity | apply exec_at_bol].
Qed.

End RegexFacts.

Import StrFacts RegexFacts.

Section Equations.
Context {A : Type}.
Implicit Types (k : mstate -> option A).

Lemma m_seq r1 r2 k st : m (Seq r1 r2) k st = m r1 (m r2 k) st.
Proof. reflexivity. Qed.

Lemma m_grp i r k st :
  m (Grp i r) k st =
  m r (fun st' => k (MState (prev st') (rest st') ((i, consumed st st') :: caps st'))) st.
Proof. reflexivity. Qed.

Lemma m_chr p k pv c s cs :
  m (Chr p) k (MState pv (String c s) cs) =
  if p c then k (MState (Some c) s cs) else None.
Proof. reflexivity. Qed.

Lemma m_eol_nil k pv cs : m Eol k (MState pv "" cs) = k (MState pv "" cs).
Proof. reflexivity. Qed.

End Equations.

(** ** Shape precedence *)

Lemma delimited_exec (open close lbl : string) (c : ascii) :
  lbl <> "" ->
  Str.all (Char.except c) lbl = true ->
  match close with EmptyString => True | String c' _ => c' = c end ->
  exists st, exec (delimited open c close) (open +:+ lbl +:+ close) = Some (MResult 0 st)
             /\ get_cap 1 (caps st) = Some lbl.
Proof.
  intros Hne Hall Hclose. unfold delimited, Plus. simpl seqs.
  rewrite exec_anchored, m_seq, m_lit, m_seq, m_grp, m_seq.
  destruct lbl as [|c0 l]; [congruence|]. simpl in Hall.
  apply andb_prop in Hall as [Hc0 Hall].
  simpl String.append. rewrite m_chr, Hc0.
  erewrite m_star_class_greedy; [ | exact Hall | |]; cycle 1.
  - destruct close as [|c' cl]; [exact I|]. subst c'.
    unfold Char.except. now rewrite Ascii.eqb_refl.
  - unfold consumed. cbn [rest prev caps].
    change (String c0 (l +:+ close)) with (String c0 l +:+ close).
    rewrite (take_app_len (String c0 l) close).
    rewrite m_seq.
    rewrite m_lit_end. reflexivity.
  - eexists; split; reflexivity.
Qed.

Lemma first_shape_hit table sh cfg frag st :
  exec (cfg_pattern cfg) frag = Some (MResult 0 st) ->
  first_shape ((sh, cfg) :: table) frag =
  Some {| si_shape := sh; si_label := Str.trim (group_text 1 (MResult 0 st));
          si_style := cfg_style cfg; si_fillColor := cfg_fillColor cfg;
          si_strokeColor := cfg_strokeColor cfg |}.
Proof. intros H. simpl. now rewrite H. Qed.

Lemma first_shape_miss table sh cfg frag :
  exec (cfg_pattern cfg) frag = None ->
  first_shape ((sh, cfg) :: table) frag = first_shape table frag.
Proof. intros H. simpl. now rewrite H. Qed.

Lemma parseNodeShape_stadium lbl :
  lbl <> "" -> Str.all (Char.except "]") lbl = true ->
  parseNodeShape ("([" +:+ lbl +:+ "])") = shape_info stadium (Str.trim lbl).
Proof.
  intros Hne Hall.
  destruct (delimited_exec "([" "])" lbl "]" Hne Hall eq_refl) as (st & Hex & Hcap).
  unfold parseNodeShape, SHAPE_MAPPINGS. cbn [List.map].
  rewrite (first_shape_hit _ stadium (shape_config stadium) _ _ Hex).
  unfold group_text, group. cbn [final]. rewrite Hcap. reflexivity.
Qed.

Lemma parseNodeShape_circle lbl :
  lbl <> "" -> Str.all (Char.except ")") lbl = true ->
  parseNodeShape ("((" +:+ lbl +:+ "))") = shape_info circle (Str.trim lbl).
Proof.
  intros Hne Hall.
  destruct (delimited_exec "((" "))" lbl ")" Hne Hall eq_refl) as (st & Hex & Hcap).
  unfold parseNodeShape, SHAPE_MAPPINGS. cbn [List.map].
  rewrite first_shape_miss.
  2:{ cbn [shape_config cfg_pattern]. unfold delimited. simpl seqs.
      rewrite exec_anchored. reflexivity. }
  rewrite (first_shape_hit _ circle (shape_config circle) _ _ Hex).
  unfold group_text, group. cbn [final]. rewrite Hcap. reflexivity.
Qed.

Lemma parseNodeShape_subroutine lbl :
  lbl <> "" -> Str.all (Char.except "]") lbl = true ->
  parseNodeShape ("[[" +:+ lbl +:+ "]]") = shape_info subroutine (Str.trim lbl).
Proof.
  intros Hne Hall.
  destruct (delimited_exec "[[" "]]" lbl "]" Hne Hall eq_refl) as (st & Hex & Hcap).
  unfold parseNodeShape, SHAPE_MAPPINGS. cbn [List.map].
  do 2 (rewrite first_shape_miss;
    [| cbn [shape_config cfg_pattern]; unfold delimited; simpl seqs;
       rewrite exec_anchored; reflexivity ]).
  rewrite (first_shape_hit _ subroutine (shape_config subroutine) _ _ Hex).
  unfold group_text, group. cbn [final]. rewrite Hcap. reflexivity.
Qed.

Lemma parseNodeShape_default frag :
  (forall sh, exec (cfg_pattern (shape_config sh)) frag = None) ->
  parseNodeShape frag = shape_info rectangle (Str.trim frag).
Proof.
  intros Hno. unfold parseNodeShape, SHAPE_MAPPINGS. cbn [List.map].
  do 6 (rewrite first_shape_miss; [| apply Hno]). reflexivity.
Qed.

(** C5 (amended).  For every non-empty label without the closing delimiter
    of its pattern ("]" for the stadium and the subroutine, ")" for the
    circle), [parseNodeShape] on "([Label])" returns the stadium descriptor,
    on "[[Label]]" the subroutine descriptor and on "((Label))" the circle
    descriptor, each with the trimmed label, so never the rounded rectangle
    or the rectangle; a fragment that matches none of the six patterns
    defaults to the rectangle with the trimmed raw text as label. *)
Theorem parseNodeShape_precedence (lbl frag : string) :
  lbl <> "" ->
  (Str.all (Char.except "]") lbl = true ->
     parseNodeShape ("([" +:+ lbl +:+ "])") = shape_info stadium (Str.trim lbl) /\
     parseNodeShape ("[[" +:+ lbl +:+ "]]") = shape_info subroutine (Str.trim lbl)) /\
  (Str.all (Char.except ")") lbl = true ->
     parseNodeShape ("((" +:+ lbl +:+ "))") = shape_info circle (Str.trim lbl)) /\
  ((forall sh, exec (cfg_pattern (shape_config sh)) frag = None) ->
     parseNodeShape frag = shape_info rectangle (Str.trim frag)).
Proof.
  intros Hne. repeat split.
  - now apply parseNodeShape_stadium.
  - now apply parseNodeShape_subroutine.
  - now apply parseNodeShape_circle.
  - apply parseNodeShape_default.
Qed.

Lemma parseNodeShape_precedence_witness :
  si_shape (parseNodeShape "([Label])") = stadium /\
  si_shape (parseNodeShape "[[Label]]") = subroutine /\
  si_shape (parseNodeShape "((Label))") = circle /\
  parseNodeShape " plain text " = shape_info rectangle "plain text".
Proof.
  destruct (parseNodeShape_precedence "Label" " plain text ") as (H1 & H2 & H3).
  - discriminate.
  - destruct (H1 eq_refl) as [Ha Hb]. split; [|split; [|split]].
    + exact (f_equal si_shape Ha).
    + exact (f_equal si_shape Hb).
    + exact (f_equal si_shape (H2 eq_refl)).
    + apply H3. intros []; vm_compute; reflexivity.
Defined.

(** C5 as stated fails at the empty label: "([])" is a rounded rectangle, and
    "(())" and "[[]]" fall through to the default rectangle.  It also fails
    at a label that holds the closing delimiter: "([a]b])" is a rounded
    rectangle. *)
Lemma parseNodeShape_empty_label :
  si_shape (parseNodeShape ("([" +:+ "" +:+ "])")) = roundedRect /\
  si_shape (parseNodeShape ("((" +:+ "" +:+ "))")) = rectangle /\
  si_shape (parseNodeShape ("[[" +:+ "" +:+ "]]")) = rectangle /\
  si_shape (parseNodeShape ("([" +:+ "a]b" +:+ "])")) = roundedRect.
Proof. vm_compute. repeat split. Qed.

(** ** The matcher against its relational reading *)

Section Sound.
Context {A : Type}.
Implicit Types (k : mstate -> option A).

Lemma star_loop_sound g r
  (IH : forall k st x, m r k st = Some x -> exists st', steps r st st' /\ k st' = Some x) :
  forall n k st x, star_loop g (m r) k n st = Some x ->
  exists st', steps (Star g r) st st' /\ k st' = Some x.
Proof.
  induction n as [|n IHn]; intros k st x H; simpl in H.
  - exists st. split; [constructor | exact H].
  - assert (Hiter : m r (fun st' =>
              if Str.len (rest st') <? Str.len (rest st)
              then star_loop g (m r) k n st' else None) st = Some x ->
              exists st', steps (Star g r) st st' /\ k st' = Some x).
    { intros Hm. apply IH in Hm as (st1 & Hs1 & Hk1).
      destruct (Str.len (rest st1) <? Str.len (rest st)); [|discriminate].
      apply IHn in Hk1 as (st2 & Hs2 & Hk2).
      exists st2. split; [econstructor 7; eassumption | exact Hk2]. }
    destruct g.
    + destruct (m r _ st) eqn:Hm.
      * apply Hiter. now rewrite H.
      * exists st. split; [constructor | exact H].
    + destruct (k st) eqn:Hk.
      * exists st. split; [constructor | congruence].
      * apply Hiter. exact H.
Qed.

Lemma m_sound r : forall k st x,
  m r k st = Some x -> exists st', steps r st st' /\ k st' = Some x.
Proof.
  induction r as [|p|r1 IH1 r2 IH2|r1 IH1 r2 IH2|g r IH|i r IH| | |];
    intros k st x H; simpl in H.
  - exists st. split; [constructor | exact H].
  - destruct st as [pv [|c s] cs]; simpl in H; [discriminate|].
    destruct (p c) eqn:Hp; [|discriminate].
    eexists. split; [constructor; exact Hp | exact H].
  - apply IH1 in H as (st1 & Hs1 & H). apply IH2 in H as (st2 & Hs2 & H).
    exists st2. split; [econstructor; eassumption | exact H].
  - destruct (m r1 k st) eqn:H1.
    + apply IH1 in H1 as (st' & Hs & Hk). exists st'. split; [now constructor | congruence].
    + apply IH2 in H as (st' & Hs & Hk). exists st'. split; [now apply steps_alt_r | exact Hk].
  - eapply star_loop_sound; eauto.
  - apply IH in H as (st' & Hs & Hk). eexists. split; [constructor; exact Hs | exact Hk].
  - destruct (prev st) eqn:Hp; [discriminate|].
    exists st. split; [now constructor | exact H].
  - destruct (rest st) eqn:Hr; [|discriminate].
    exists st. split; [now constructor | exact H].
  - destruct (xorb _ _) eqn:Hx; [|discriminate].
    exists st. split; [now constructor | exact H].
Qed.

End Sound.

Section Fuel.
Context {A : Type}.
Implicit Types (k : mstate -> option A).

(** The matcher only hands its continuation states that are no longer than
    the one it started from. *)
Lemma star_loop_le_ext g r
  (IH : forall k1 k2 st,
     (forall st', Str.len (rest st') <= Str.len (rest st) -> k1 st' = k2 st') ->
     m r k1 st = m r k2 st) :
  forall n k1 k2 st,
    (forall st', Str.len (rest st') <= Str.len (rest st) -> k1 st' = k2 st') ->
    star_loop g (m r) k1 n st = star_loop g (m r) k2 n st.
Proof.
  induction n as [|n IHn]; intros k1 k2 st Hk; cbn [star_loop].
  - apply Hk. lia.
  - rewrite (Hk st) by lia.
    rewrite (IH (fun st' => if Str.len (rest st') <? Str.len (rest st)
                            then star_loop g (m r) k1 n st' else None)
                (fun st' => if Str.len (rest st') <? Str.len (rest st)
                            then star_loop g (m r) k2 n st' else None) st);
      [reflexivity|].
    intros st' Hle. destruct (Str.len (rest st') <? Str.len (rest st)); [|reflexivity].
    apply IHn. intros st'' Hle'. apply Hk. lia.
Qed.

Lemma m_le_ext r : forall k1 k2 st,
  (forall st', Str.len (rest st') <= Str.len (rest st) -> k1 st' = k2 st') ->
  m r k1 st = m r k2 st.
Proof.
  induction r as [|p|r1 IH1 r2 IH2|r1 IH1 r2 IH2|g r IH|i r IH| | |];
    intros k1 k2 st Hk; cbn [m].
  - apply Hk. lia.
  - destruct st as [pv [|c s] cs]; cbn [rest caps]; [reflexivity|].
    destruct (p c); [|reflexivity]. apply Hk. simpl. lia.
  - apply IH1. intros st1 H1. apply IH2. intros st2 H2. apply Hk. lia.
  - rewrite (IH1 k1 k2 st Hk), (IH2 k1 k2 st Hk). reflexivity.
  - now apply star_loop_le_ext.
  - apply IH. intros st' Hle. apply Hk. exact Hle.
  - destruct (prev st); [reflexivity|]. apply Hk. lia.
  - destruct (rest st) eqn:E; [|reflexivity]. apply Hk. rewrite ?E. simpl. lia.
  - destruct (xorb _ _); [|reflexivity]. apply Hk. lia.
Qed.

Lemma star_loop_fail g r : forall n st,
  (forall k st, (forall st', k st' = None) -> m r k st = None) ->
  star_loop (A := A) g (m r) (fun _ => None) n st = None.
Proof.
  induction n as [|n IHn]; intros st Hr; cbn [star_loop]; [reflexivity|].
  rewrite Hr; [now destruct g|].
  intros st'. destruct (_ <? _); [now apply IHn | reflexivity].
Qed.

Lemma m_fail r : forall k st, (forall st', k st' = None) -> m r k st = None.
Proof.
  induction r as [|p|r1 IH1 r2 IH2|r1 IH1 r2 IH2|g r IH|i r IH| | |];
    intros k st Hk; cbn [m]; auto.
  - destruct (rest st); [reflexivity|]. destruct (p _); auto.
  - rewrite IH1 by assumption. auto.
  - rewrite (star_loop_le_ext g r (m_le_ext r) _ k (fun _ => None) st)
      by (intros; apply Hk).
    apply star_loop_fail. exact IH.
  - destruct (prev st); auto.
  - destruct (rest st); auto.
  - destruct (xorb _ _); auto.
Qed.

(** The counter of a repetition is never exhausted: any count from the length
    of the remaining text on gives the same result. *)
Lemma star_loop_fuel g r k : forall n st,
  Str.len (rest st) <= n ->
  star_loop g (m r) k n st = star_loop g (m r) k (Str.len (rest st)) st.
Proof.
  induction n as [n IHn] using lt_wf_ind. intros st Hle.
  destruct n as [|n].
  - replace (Str.len (rest st)) with 0 by lia. reflexivity.
  - destruct (Str.len (rest st)) as [|l] eqn:El.
    + cbn [star_loop]. rewrite El.
      rewrite (m_fail r); [now destruct g; [|destruct (k st)]|].
      intros st'. destruct (_ <? 0) eqn:E0; [apply Nat.ltb_lt in E0; lia | reflexivity].
    + cbn [star_loop]. rewrite El.
      rewrite (m_le_ext r
        (fun st' => if Str.len (rest st') <? S l then star_loop g (m r) k n st' else None)
        (fun st' => if Str.len (rest st') <? S l then star_loop g (m r) k l st' else None) st);
        [reflexivity|].
      intros st' _. destruct (Str.len (rest st') <? S l) eqn:Elt; [|reflexivity].
      apply Nat.ltb_lt in Elt.
      rewrite (IHn n ltac:(lia) st' ltac:(lia)).
      now rewrite (IHn l ltac:(lia) st' ltac:(lia)).
Qed.

End Fuel.

(** A match found by [exec] starts at a split point of the subject. *)
Lemma exec_at_sound r : forall s p idx res,
  exec_at r p s idx = Some res ->
  exists a b p', s = a +:+ b /\ index res = idx + Str.len a /\
                 steps r (MState p' b []) (final res).
Proof.
  induction s as [|c s IH]; intros p idx res H; simpl in H.
  - destruct (m r Some _) eqn:Hm; [|discriminate]. inversion H; subst.
    apply m_sound in Hm as (st' & Hs & Heq). inversion Heq; subst.
    exists "", "", p. simpl. repeat split; [lia | exact Hs].
  - destruct (m r Some _) eqn:Hm.
    + inversion H; subst. apply m_sound in Hm as (st' & Hs & Heq). inversion Heq; subst.
      exists "", (String c s), p. simpl. repeat split; [lia | exact Hs].
    + apply IH in H as (a & b & p' & Hab & Hidx & Hs).
      exists (String c a), b, p'. simpl. subst s. repeat split; [lia | exact Hs].
Qed.

(** A run of a character-class repetition consumes class members only and
    leaves the captures alone. *)
Lemma steps_class_run g p st st' :
  steps (Star g (Chr p)) st st' ->
  exists w, rest st = w +:+ rest st' /\ Str.all p w = true /\ caps st' = caps st.
Proof.
  remember (Star g (Chr p)) as r eqn:Hr. intros H.
  induction H; inversion Hr; subst.
  - exists "". repeat split.
  - specialize (IHsteps2 eq_refl) as (w & Hw & Hall & Hcaps).
    inversion H; subst. simpl in *. exists (String c w).
    simpl. rewrite Hw, Hall.
    match goal with Hp : p c = true |- _ => rewrite Hp end.
    repeat split. exact Hcaps.
Qed.

(** ** The identifier check of the validator *)

Lemma steps_chr_caps p st st' : steps (Chr p) st st' -> caps st' = caps st.
Proof. intros H. inversion H; subst. reflexivity. Qed.

Lemma steps_lit_caps s : forall st st', steps (lit s) st st' -> caps st' = caps st.
Proof.
  induction s as [|c s IH]; intros st st' H; simpl in H; inversion H; subst.
  - reflexivity.
  - match goal with
    | H1 : steps (Chr _) _ _, H2 : steps (lit s) _ _ |- _ =>
        apply steps_chr_caps in H1; apply IH in H2; congruence
    end.
Qed.

(** The identifier captured by the validator's two leading-identifier
    patterns is a non-empty run of word characters. *)
Lemma leadingId_capture next line mt :
  (forall st st', steps next st st' -> caps st' = caps st) ->
  exec (leadingIdPattern next) line = Some mt ->
  exists w, group 1 mt = Some w /\ w <> "" /\ Str.all Char.is_word w = true.
Proof.
  intros Hnext Hex. apply exec_at_sound in Hex as (a & b & p' & _ & _ & Hs).
  unfold group. destruct mt as [idx fin]. simpl in *.
  unfold leadingIdPattern, Plus in Hs. simpl seqs in Hs.
  inversion Hs as [| |? ? ? st1 ? Hbol Hs1| | | | | | | |]; subst; clear Hs.
  inversion Hs1 as [| |? ? ? st2 ? Hws Hs2| | | | | | | |]; subst; clear Hs1.
  inversion Hs2 as [| |? ? ? st3 ? Hgrp Hs3| | | | | | | |]; subst; clear Hs2.
  inversion Hs3 as [| |? ? ? st4 ? Hws2 Hs4| | | | | | | |]; subst; clear Hs3.
  apply Hnext in Hs4. apply steps_class_run in Hws2 as (_ & _ & _ & Hc2).
  inversion Hgrp as [| | | | | | |? ? ? stg Hbody| | |]; subst; clear Hgrp.
  inversion Hbody as [| |? ? ? sta ? Hc Hrun| | | | | | | |]; subst; clear Hbody.
  inversion Hc; subst; clear Hc.
  apply steps_class_run in Hrun as (w & Hw & Hall & _). simpl in Hw.
  exists (String c w). rewrite Hs4, Hc2. simpl. split; [|split].
  - f_equal. unfold consumed. cbn [rest]. rewrite Hw.
    exact (take_app_len (String c w) (rest stg)).
  - discriminate.
  - match goal with Hp : Char.is_word c = true |- _ => now rewrite Hp end.
Qed.

Lemma wordOnly_test w :
  w <> "" -> Str.all Char.is_word w = true -> test wordOnlyPattern w = true.
Proof.
  intros Hne Hall. unfold test, wordOnlyPattern, Plus. simpl seqs.
  rewrite exec_anchored, m_seq, m_seq.
  destruct w as [|c w]; [congruence|]. simpl in Hall.
  apply andb_prop in Hall as [Hc Hall].
  rewrite m_chr, Hc.
  rewrite <- (app_empty_r w).
  erewrite m_star_class_greedy; [reflexivity | exact Hall | exact I | reflexivity].
Qed.

Lemma check_line_issues i raw :
  fst (check_line i raw) =
  if 1 <? count_lit "-->" (Str.trim raw) then [chained_finding i] else [].
Proof.
  unfold check_line. cbn [fst].
  assert (Hnd : match exec nodeDefIdPattern (Str.trim raw) with
                | Some mt =>
                    if negb (test wordOnlyPattern (group_text 1 mt))
                    then [invalid_id_finding i (group_text 1 mt)] else []
                | None => []
                end = []).
  { destruct (exec nodeDefIdPattern _) as [mt|] eqn:Hex; [|reflexivity].
    apply leadingId_capture in Hex as (w & Hg & Hne & Hall);
      [|intros; eapply steps_chr_caps; eassumption].
    unfold group_text. rewrite Hg, wordOnly_test by assumption. reflexivity. }
  assert (Hcn : match exec connIdPattern (Str.trim raw) with
                | Some mt =>
                    if negb (test wordOnlyPattern (group_text 1 mt))
                    then [invalid_id_finding i (group_text 1 mt)] else []
                | None => []
                end = []).
  { destruct (exec connIdPattern _) as [mt|] eqn:Hex; [|reflexivity].
    apply leadingId_capture in Hex as (w & Hg & Hne & Hall);
      [|intros; eapply steps_lit_caps; eassumption].
    unfold group_text. rewrite Hg, wordOnly_test by assumption. reflexivity. }
  rewrite Hnd, Hcn. destruct (1 <? _); reflexivity.
Qed.

Lemma check_lines_cons i l ls :
  check_lines i (l :: ls) =
  (fst (check_line i l) ++ fst (check_lines (S i) ls),
   snd (check_line i l) ++ snd (check_lines (S i) ls)).
Proof.
  cbn [check_lines].
  destruct (check_line i l) as [is1 ws1]. destruct (check_lines (S i) ls) as [is2 ws2].
  reflexivity.
Qed.

Lemma check_lines_issues lines : forall i f,
  In f (fst (check_lines i lines)) -> f_issue f = "Chained arrows detected".
Proof.
  induction lines as [|l ls IH]; intros i f Hin; [destruct Hin|].
  rewrite check_lines_cons in Hin. cbn [fst] in Hin.
  rewrite check_line_issues in Hin.
  apply in_app_or in Hin as [Hin|Hin].
  - destruct (1 <? _); [|destruct Hin].
    destruct Hin as [<-|[]]. reflexivity.
  - exact (IH (S i) f Hin).
Qed.

Lemma validateMermaid_issues code f :
  In f (issues (validateMermaid code)) ->
  f_issue f = "Missing or invalid diagram type declaration" \/
  f_issue f = "Chained arrows detected".
Proof.
  unfold validateMermaid.
  destruct (check_lines 0 _) as [is2 ws2] eqn:E. cbn [issues].
  intros Hin. apply in_app_or in Hin as [Hin|Hin].
  - left. destruct (negb _); [|contradiction]. destruct Hin as [<-|[]]. reflexivity.
  - right. apply (check_lines_issues (Str.split_lines (validator_code code)) 0).
    now rewrite E.
Qed.

(** C3.  The validator never emits the issue "Invalid node ID": the
    identifier it tests is the capture of a word-character group, so the test
    for a non-word character never succeeds.  A flowchart whose first
    identifier holds a hyphen is reported without any issue. *)
Theorem invalid_node_id_unreachable :
  (forall code, List.existsb is_invalid_id_issue (issues (validateMermaid code)) = false) /\
  issues (validateMermaid hyphenated_id_input) = [].
Proof.
  split; [|vm_compute; reflexivity].
  intros code. destruct (List.existsb _ _) eqn:E; [|reflexivity].
  apply List.existsb_exists in E as (f & Hin & Hf).
  apply validateMermaid_issues in Hin. unfold is_invalid_id_issue in Hf.
  destruct Hin as [H|H]; rewrite H in Hf; discriminate.
Qed.

(** ** Trimming and empty input *)

Module TrimFacts.

Lemma trimStart_all_space s : Str.all Char.is_space s = true -> Str.trimStart s = "".
Proof.
  induction s as [|c s IH]; simpl; [reflexivity|].
  intros H. apply andb_prop in H as [Hc Hs]. rewrite Hc. auto.
Qed.

Lemma trim_all_space s : Str.all Char.is_space s = true -> Str.trim s = "".
Proof. intros H. unfold Str.trim. now rewrite trimStart_all_space. Qed.

Lemma trimEnd_decomp s :
  exists w, s = Str.trimEnd s +:+ w /\ Str.all Char.is_space w = true.
Proof.
  induction s as [|c s (w & Hw & Hall)]; simpl.
  - exists "". split; reflexivity.
  - destruct (Char.is_space c && Str.is_empty (Str.trimEnd s)) eqn:E.
    + apply andb_prop in E as [Hc He].
      destruct (Str.trimEnd s); [|discriminate]. simpl in Hw. subst s.
      exists (String c w). simpl. now rewrite Hc, Hall.
    + exists w. simpl. split; [now f_equal | exact Hall].
Qed.

Lemma trimStart_decomp s :
  exists w, s = w +:+ Str.trimStart s /\ Str.all Char.is_space w = true.
Proof.
  induction s as [|c s (w & Hw & Hall)]; simpl.
  - exists "". split; reflexivity.
  - destruct (Char.is_space c) eqn:Hc.
    + exists (String c w). simpl. rewrite Hc, Hall. split; [now f_equal | reflexivity].
    + exists "". split; reflexivity.
Qed.

End TrimFacts.
Import TrimFacts.

Lemma parser_code_blank s : Str.all Char.is_space s = true -> parser_code s = "".
Proof. intros H. unfold parser_code. rewrite trim_all_space by assumption. reflexivity. Qed.

Lemma validateMermaid_counts code :
  nodeCount (validateMermaid code) = 0 /\ edgeCount (validateMermaid code) = 0.
Proof.
  unfold validateMermaid. destruct (check_lines 0 _). split; reflexivity.
Qed.

(** C7.  On an empty or whitespace-only input [parseMermaid] throws the
    empty-diagram error, and no diagram comes with it; [validateMermaid]
    returns with both counts at zero, and the [validate] action keeps them
    at zero. *)
Theorem empty_input_is_fatal (mermaidCode : string) :
  Str.all Char.is_space mermaidCode = true ->
  parseMermaid mermaidCode = Throw "Empty Mermaid diagram" /\
  nodeCount (validateMermaid mermaidCode) = 0 /\
  edgeCount (validateMermaid mermaidCode) = 0 /\
  validate_counts mermaidCode = (0, 0).
Proof.
  intros Hws.
  assert (Hp : parseMermaid mermaidCode = Throw "Empty Mermaid diagram").
  { unfold parseMermaid. rewrite parser_code_blank by assumption. reflexivity. }
  destruct (validateMermaid_counts mermaidCode) as [Hn He].
  repeat split; try assumption.
  unfold validate_counts. rewrite Hp, Hn, He. reflexivity.
Qed.

Lemma empty_input_is_fatal_witness :
  parseMermaid (String " " (String Char.LF (String "009" ""))) = Throw "Empty Mermaid diagram" /\
  nodeCount (validateMermaid (String " " (String Char.LF (String "009" "")))) = 0 /\
  edgeCount (validateMermaid (String " " (String Char.LF (String "009" "")))) = 0 /\
  validate_counts (String " " (String Char.LF (String "009" ""))) = (0, 0).
Proof. apply empty_input_is_fatal. reflexivity. Defined.

(** ** Lines under trimming *)

Module LineFacts.

Lemma is_space_LF c : Ascii.eqb c Char.LF = true -> Char.is_space c = true.
Proof. intros H. apply Ascii.eqb_eq in H. subst. reflexivity. Qed.

Lemma split_lines_cons_LF s : Str.split_lines (String Char.LF s) = "" :: Str.split_lines s.
Proof. reflexivity. Qed.

Lemma split_lines_nonempty s : Str.split_lines s <> [].
Proof.
  destruct s as [|c s]; cbn [Str.split_lines]; [discriminate|].
  destruct (Ascii.eqb c _); [discriminate|].
  destruct (Str.split_lines s); discriminate.
Qed.

Lemma split_lines_cons c s :
  Ascii.eqb c Char.LF = false ->
  exists l ls, Str.split_lines s = l :: ls /\
               Str.split_lines (String c s) = String c l :: ls.
Proof.
  intros Hc. cbn [Str.split_lines]. rewrite Hc.
  destruct (Str.split_lines s) as [|l ls] eqn:E.
  - now apply split_lines_nonempty in E.
  - eauto.
Qed.

Lemma trim_cons_space c l : Char.is_space c = true -> Str.trim (String c l) = Str.trim l.
Proof. intros Hc. unfold Str.trim. simpl. now rewrite Hc. Qed.

Lemma trim_cons_nonspace c l :
  Char.is_space c = false -> Str.trim (String c l) = String c (Str.trimEnd l).
Proof. intros Hc. unfold Str.trim. simpl. rewrite Hc. simpl. now rewrite Hc. Qed.

Lemma trimEnd_snoc_space x c :
  Char.is_space c = true -> Str.trimEnd (x +:+ String c "") = Str.trimEnd x.
Proof.
  intros Hc. induction x as [|a x IH]; simpl.
  - now rewrite Hc.
  - now rewrite IH.
Qed.

Lemma trim_snoc_space l c :
  Char.is_space c = true -> Str.trim (l +:+ String c "") = Str.trim l.
Proof.
  intros Hc. unfold Str.trim. induction l as [|a l IH]; simpl.
  - now rewrite Hc.
  - destruct (Char.is_space a); [exact IH|].
    exact (trimEnd_snoc_space (String a l) c Hc).
Qed.

Lemma nonblank_cons_space c l : Char.is_space c = true -> Str.nonblank (String c l) = Str.nonblank l.
Proof. intros Hc. unfold Str.nonblank. now rewrite trim_cons_space. Qed.

Lemma nonblank_snoc_space l c :
  Char.is_space c = true -> Str.nonblank (l +:+ String c "") = Str.nonblank l.
Proof. intros Hc. unfold Str.nonblank. now rewrite trim_snoc_space. Qed.

Lemma split_lines_snoc s c :
  Str.split_lines (s +:+ String c "") =
  if Ascii.eqb c Char.LF then Str.split_lines s ++ [""] else snoc_last c (Str.split_lines s).
Proof.
  induction s as [|a s IH].
  - simpl. destruct (Ascii.eqb c Char.LF); reflexivity.
  - change (String a s +:+ String c "") with (String a (s +:+ String c "")).
    destruct (Ascii.eqb a Char.LF) eqn:Ha.
    + apply Ascii.eqb_eq in Ha. subst a. rewrite !split_lines_cons_LF, IH.
      destruct (Ascii.eqb c Char.LF); [reflexivity|].
      destruct (Str.split_lines s) as [|l ls] eqn:E; [now apply split_lines_nonempty in E|].
      reflexivity.
    + simpl Str.split_lines at 1. rewrite Ha, IH.
      destruct (split_lines_cons a s Ha) as (l & ls & E & E'). rewrite E', E.
      destruct (Ascii.eqb c Char.LF); [reflexivity|].
      destruct ls; reflexivity.
Qed.

Lemma trimmed_lines_cons_space c s :
  Char.is_space c = true -> trimmed_lines (String c s) = trimmed_lines s.
Proof.
  intros Hc. unfold trimmed_lines. destruct (Ascii.eqb c Char.LF) eqn:E.
  - apply Ascii.eqb_eq in E. subst c. reflexivity.
  - destruct (split_lines_cons c s E) as (l & ls & E1 & E2). rewrite E1, E2.
    simpl. rewrite nonblank_cons_space by assumption.
    destruct (Str.nonblank l); [|reflexivity].
    simpl. now rewrite trim_cons_space.
Qed.

Lemma trimmed_lines_trimStart s : trimmed_lines (Str.trimStart s) = trimmed_lines s.
Proof.
  induction s as [|c s IH]; simpl; [reflexivity|].
  destruct (Char.is_space c) eqn:Hc; [|reflexivity].
  now rewrite trimmed_lines_cons_space.
Qed.

Lemma trimmed_snoc_last c ls :
  Char.is_space c = true -> ls <> [] ->
  List.map Str.trim (List.filter Str.nonblank (snoc_last c ls)) =
  List.map Str.trim (List.filter Str.nonblank ls).
Proof.
  intros Hc. induction ls as [|l ls IH]; intros Hne; [congruence|].
  destruct ls as [|l' ls'].
  - simpl. rewrite nonblank_snoc_space by assumption.
    destruct (Str.nonblank l); [|reflexivity]. simpl. now rewrite trim_snoc_space.
  - change (snoc_last c (l :: l' :: ls')) with (l :: snoc_last c (l' :: ls')).
    cbn [List.filter]. destruct (Str.nonblank l); cbn [List.map]; [f_equal|];
      apply IH; discriminate.
Qed.

Lemma trimmed_lines_snoc_space s c :
  Char.is_space c = true -> trimmed_lines (s +:+ String c "") = trimmed_lines s.
Proof.
  intros Hc. unfold trimmed_lines. rewrite split_lines_snoc.
  destruct (Ascii.eqb c Char.LF).
  - rewrite List.filter_app. simpl. now rewrite List.app_nil_r.
  - apply trimmed_snoc_last; [assumption | apply split_lines_nonempty].
Qed.

Lemma trimmed_lines_app_space w : forall s,
  Str.all Char.is_space w = true -> trimmed_lines (s +:+ w) = trimmed_lines s.
Proof.
  induction w as [|c w IH]; intros s Hall.
  - now rewrite app_empty_r.
  - simpl in Hall. apply andb_prop in Hall as [Hc Hall].
    change (String c w) with (String c "" +:+ w).
    rewrite <- app_assoc, IH by assumption. now apply trimmed_lines_snoc_space.
Qed.

Lemma trimmed_lines_trim s : trimmed_lines (Str.trim s) = trimmed_lines s.
Proof.
  unfold Str.trim. rewrite <- (trimmed_lines_trimStart s).
  destruct (trimEnd_decomp (Str.trimStart s)) as (w & Hw & Hall).
  rewrite Hw at 2. now rewrite trimmed_lines_app_space.
Qed.

End LineFacts.

Import LineFacts.

(** ** Dialect dispatch *)

Module DispatchFacts.

Lemma startsWith_cons a p s :
  Str.startsWith (String a p) s = true ->
  exists r, s = String a r /\ Str.startsWith p r = true.
Proof.
  destruct s as [|c s]; simpl; [discriminate|].
  intros H. apply andb_prop in H as [Hc Hp]. apply Ascii.eqb_eq in Hc. subst c. eauto.
Qed.

Lemma parseMermaid_dispatch input l :
  first_nonempty_line (parser_code input) = Some l ->
  exists d, parseMermaid input = Return d /\
            type d = dispatched (d_type (detectDiagramType [l])).
Proof.
  unfold first_nonempty_line, parseMermaid. intros H.
  destruct (List.filter Str.nonblank (Str.split_lines (parser_code input)))
    as [|l0 ls] eqn:E; [discriminate|].
  inversion H; subst l0.
  assert (Hd : d_type (detectDiagramType (l :: ls)) = d_type (detectDiagramType [l])).
  { reflexivity. }
  rewrite Hd. unfold dispatched.
  destruct (String.eqb _ "flowchart"); [eexists; split; reflexivity|].
  destruct (String.eqb _ "sequence"); [eexists; split; reflexivity|].
  destruct (String.eqb _ "erDiagram"); [eexists; split; reflexivity|].
  destruct (String.eqb _ "mindmap"); eexists; split; reflexivity.
Qed.

Lemma dispatched_kinds t : In (dispatched t) dialect_kinds.
Proof.
  unfold dispatched, dialect_kinds.
  repeat (destruct (String.eqb t _); [simpl; tauto|]). simpl; tauto.
Qed.

Ltac peel H :=
  repeat (apply startsWith_cons in H as (? & -> & H)).

Lemma detect_keyword l kw kind :
  In (kw, kind) dialect_keywords -> declares kw l = true ->
  dispatched (d_type (detectDiagramType [l])) = kind.
Proof.
  unfold declares, detectDiagramType. cbn [List.hd].
  generalize (Str.toLowerCase (Str.trim l)). intros first Hin H.
  simpl in Hin.
  repeat (destruct Hin as [Hin|Hin]; [inversion Hin; subst; clear Hin|]);
    [..|contradiction]; peel H; reflexivity.
Qed.

Lemma detect_unknown l :
  (forall kw kind, In (kw, kind) dialect_keywords -> declares kw l = false) ->
  dispatched (d_type (detectDiagramType [l])) = "flowchart".
Proof.
  unfold declares, detectDiagramType. cbn [List.hd].
  generalize (Str.toLowerCase (Str.trim l)). intros first H.
  rewrite (H "flowchart" "flowchart"), (H "graph" "flowchart") by (simpl; tauto).
  rewrite (H "sequencediagram" "sequence"), (H "erdiagram" "erDiagram"),
    (H "mindmap" "mindmap") by (simpl; tauto).
  cbn [orb].
  repeat (match goal with |- context [if ?b then _ else _] => destruct b end;
          try reflexivity).
Qed.

End DispatchFacts.

Import DispatchFacts.

Lemma head_trimmed_lines s :
  List.head (trimmed_lines s) = option_map Str.trim (first_nonempty_line s).
Proof.
  unfold trimmed_lines, first_nonempty_line.
  destruct (List.filter _ _); reflexivity.
Qed.

Lemma backtick_first_line r t :
  List.head (trimmed_lines (String "`" r)) = Some t -> exists t', t = String "`" t'.
Proof.
  unfold trimmed_lines.
  destruct (split_lines_cons "`" r eq_refl) as (l & ls & _ & ->).
  cbn [List.filter]. unfold Str.nonblank at 1.
  rewrite trim_cons_nonspace by reflexivity. cbn [Str.is_empty negb List.map List.head].
  rewrite trim_cons_nonspace by reflexivity. intros [= <-]. eauto.
Qed.

Lemma keyword_not_backtick kw kind t :
  In (kw, kind) dialect_keywords ->
  Str.startsWith kw (Str.toLowerCase (String "`" t)) = false.
Proof.
  simpl. intros H.
  repeat (destruct H as [H|H]; [inversion H; subst; reflexivity|]). contradiction.
Qed.

Lemma unfenced_code input l kw kind :
  first_nonempty_line input = Some l ->
  In (kw, kind) dialect_keywords -> declares kw l = true ->
  exists l', first_nonempty_line (parser_code input) = Some l' /\ Str.trim l' = Str.trim l.
Proof.
  intros Hl Hkw Hdecl.
  assert (Hh : List.head (trimmed_lines (Str.trim input)) = Some (Str.trim l)).
  { rewrite trimmed_lines_trim, head_trimmed_lines, Hl. reflexivity. }
  assert (Hnf : Str.startsWith "```" (Str.trim input) = false).
  { destruct (Str.startsWith "```" (Str.trim input)) eqn:E; [|reflexivity].
    apply startsWith_cons in E as (r & Hr & _). rewrite Hr in Hh.
    apply backtick_first_line in Hh as (t' & Ht'). unfold declares in Hdecl.
    rewrite Ht', (keyword_not_backtick kw kind) in Hdecl by assumption. discriminate. }
  assert (Hnm : Str.startsWith "```mermaid" (Str.trim input) = false).
  { destruct (Str.startsWith "```mermaid" (Str.trim input)) eqn:E; [|reflexivity].
    rewrite <- Hnf. peel E. reflexivity. }
  unfold parser_code. rewrite Hnm, Hnf.
  rewrite head_trimmed_lines in Hh.
  destruct (first_nonempty_line (Str.trim input)) as [l'|]; [|discriminate].
  exists l'. split; [reflexivity | now inversion Hh].
Qed.

(** C4.  When the first non-empty line of the input starts with the keyword
    of a dialect, in any letter case, [parseMermaid] returns a diagram whose
    type is the kind of that dialect; when the first non-empty line left by
    the fence handling starts with none of the keywords, the type is
    "flowchart"; and the type of every result is one of flowchart, sequence,
    erDiagram, mindmap. *)
Theorem parseMermaid_type (input : string) :
  (forall l kw kind,
     first_nonempty_line input = Some l ->
     In (kw, kind) dialect_keywords -> declares kw l = true ->
     exists d, parseMermaid input = Return d /\ type d = kind) /\
  (forall l,
     first_nonempty_line (parser_code input) = Some l ->
     (forall kw kind, In (kw, kind) dialect_keywords -> declares kw l = false) ->
     exists d, parseMermaid input = Return d /\ type d = "flowchart") /\
  (forall d, parseMermaid input = Return d -> In (type d) dialect_kinds).
Proof.
  split; [|split].
  - intros l kw kind Hl Hkw Hdecl.
    destruct (unfenced_code input l kw kind Hl Hkw Hdecl) as (l' & Hl' & Htrim).
    destruct (parseMermaid_dispatch input l' Hl') as (d & Hd & Ht).
    exists d. split; [exact Hd|]. rewrite Ht. apply (detect_keyword l' kw kind Hkw).
    unfold declares in *. now rewrite Htrim.
  - intros l Hl Hno.
    destruct (parseMermaid_dispatch input l Hl) as (d & Hd & Ht).
    exists d. split; [exact Hd|]. rewrite Ht. now apply detect_unknown.
  - intros d Hd.
    destruct (first_nonempty_line (parser_code input)) as [l|] eqn:E.
    + destruct (parseMermaid_dispatch input l E) as (d' & Hd' & Ht).
      rewrite Hd in Hd'. inversion Hd'; subst d'. rewrite Ht. apply dispatched_kinds.
    + unfold first_nonempty_line in E. unfold parseMermaid in Hd.
      destruct (List.filter _ _); [discriminate Hd | discriminate E].
Qed.

Lemma parseMermaid_type_witness :
  (exists d, parseMermaid sample_sequence = Return d /\ type d = "sequence") /\
  (exists d, parseMermaid sample_pie = Return d /\ type d = "flowchart") /\
  (forall d, parseMermaid sample_pie = Return d -> In (type d) dialect_kinds).
Proof.
  split; [|split].
  - apply (proj1 (parseMermaid_type sample_sequence) "  SequenceDiagram" "sequencediagram");
      [reflexivity | simpl; tauto | reflexivity].
  - apply (proj1 (proj2 (parseMermaid_type sample_pie)) "pie title Pets"); [reflexivity|].
    intros kw kind H. simpl in H.
    repeat (destruct H as [H|H]; [inversion H; subst; reflexivity|]). contradiction.
  - apply (proj2 (proj2 (parseMermaid_type sample_pie))).
Defined.

(** ** Code fences *)

Module FenceFacts.

Lemma trimEnd_app_keep t : Str.trimEnd t = t -> t <> "" ->
  forall s, Str.trimEnd (s +:+ t) = s +:+ t.
Proof.
  intros Ht Hne. induction s as [|a s IH]; [exact Ht|].
  cbn [String.append Str.trimEnd]. rewrite IH.
  destruct s as [|b s]; cbn [String.append].
  - destruct t; [congruence|]. cbn [Str.is_empty]. now rewrite andb_false_r.
  - cbn [Str.is_empty]. now rewrite andb_false_r.
Qed.

Lemma take_len_app a b : Str.take (Str.len a) (a +:+ b) = a.
Proof. induction a as [|c a IH]; simpl; [destruct b; reflexivity | now rewrite IH]. Qed.

Lemma steps_chr_only a st st' :
  steps (Chr (Char.only a)) st st' -> rest st = String a (rest st').
Proof.
  intros H. inversion H as [|? ? ? ? ? Hc| | | | | | | | |]; subst.
  apply Ascii.eqb_eq in Hc. now subst.
Qed.

Lemma steps_lit_rest s : forall st st', steps (lit s) st st' -> rest st = s +:+ rest st'.
Proof.
  induction s as [|c s IH]; intros st st' H; cbn [lit] in H.
  - inversion H; subst. reflexivity.
  - inversion H as [| |? ? ? st1 ? H1 H2| | | | | | | |]; subst.
    apply steps_chr_only in H1. apply IH in H2. rewrite H1, H2. reflexivity.
Qed.

Lemma fenceClose_consumes st st' :
  steps fenceClosePattern st st' ->
  rest st' = "" /\
  (rest st = backticks \/ rest st = String Char.LF backticks).
Proof.
  unfold fenceClosePattern, Opt. simpl seqs. intros H.
  inversion H as [| |? ? ? st1 ? Hopt Hs1| | | | | | | |]; subst; clear H.
  inversion Hs1 as [| |? ? ? st2 ? Hlit Heol| | | | | | | |]; subst; clear Hs1.
  inversion Heol; subst. apply (steps_lit_rest backticks) in Hlit.
  match goal with He : rest st' = "" |- _ => rewrite He in Hlit end.
  split; [assumption|].
  inversion Hopt as [| | |? ? ? ? Hc|? ? ? ? He| | | | | |]; subst.
  - apply steps_chr_only in Hc. right. now rewrite Hc, Hlit.
  - inversion He; subst. left. exact Hlit.
Qed.

Lemma fenceClose_long st :
  4 < Str.len (rest st) -> m fenceClosePattern (A := mstate) Some st = None.
Proof.
  intros Hlen. destruct (m fenceClosePattern Some st) eqn:E; [|reflexivity].
  apply m_sound in E as (st' & Hs & _). apply fenceClose_consumes in Hs as [_ Hr].
  exfalso. destruct Hr as [Hr|Hr]; rewrite Hr in Hlen; unfold backticks in Hlen;
    simpl in Hlen; lia.
Qed.

Lemma fenceClose_exec body : forall p idx,
  exec_at fenceClosePattern p (body +:+ String Char.LF backticks) idx =
  Some (MResult (idx + Str.len body) (MState (Some "`"%char) "" [])).
Proof.
  induction body as [|a body IH]; intros p idx.
  - simpl. rewrite Nat.add_0_r. reflexivity.
  - cbn [String.append exec_at]. rewrite fenceClose_long.
    + rewrite IH. cbn [Str.len]. do 2 f_equal. lia.
    + cbn [rest Str.len]. rewrite len_app. unfold backticks. simpl. lia.
Qed.

Lemma remove_fence_close body :
  remove_first fenceClosePattern (body +:+ String Char.LF backticks) = body.
Proof.
  unfold remove_first, exec. rewrite fenceClose_exec. cbn [index final rest Nat.add].
  rewrite take_len_app. apply app_empty_r.
Qed.

Lemma fenced_trim body : Str.trim (fenced body) = fenced body.
Proof.
  unfold Str.trim. change (Str.trimStart (fenced body)) with (fenced body).
  change (fenced body) with ((backticks +:+ String Char.LF body) +:+ String Char.LF backticks).
  apply trimEnd_app_keep; [reflexivity | discriminate].
Qed.

Lemma parser_code_fenced body : parser_code (fenced body) = body.
Proof.
  unfold parser_code. rewrite fenced_trim.
  change (Str.startsWith "```mermaid" (fenced body)) with false.
  change (Str.startsWith "```" (fenced body)) with true. cbv iota.
  replace (remove_first (fenceOpenPattern "") (fenced body))
    with (body +:+ String Char.LF backticks).
  - apply remove_fence_close.
  - unfold remove_first, fenceOpenPattern. simpl seqs. rewrite exec_anchored. reflexivity.
Qed.

Lemma validator_code_fenced body : validator_code (fenced body) = fenced body.
Proof. unfold validator_code. rewrite fenced_trim. reflexivity. Qed.

End FenceFacts.

Import FenceFacts.

Lemma validateMermaid_fenced body :
  isValid (validateMermaid (fenced body)) = false /\
  In missing_type_finding (issues (validateMermaid (fenced body))).
Proof.
  unfold validateMermaid. rewrite validator_code_fenced.
  assert (Hhd : List.hd "" (Str.split_lines (fenced body)) = backticks) by reflexivity.
  rewrite Hhd. destruct (check_lines 0 _) as [is2 ws2].
  cbn. split; [reflexivity | left; reflexivity].
Qed.

(** C10.  For a text wrapped in a bare fence whose first non-empty inner line
    declares a dialect, [parseMermaid] strips the fence and returns a diagram
    of that dialect, while [validateMermaid] reads the fence as line 1 and
    reports the missing-declaration issue, so the text is not valid. *)
Theorem fence_handling_differs (body l kw kind : string) :
  first_nonempty_line body = Some l ->
  In (kw, kind) dialect_keywords -> declares kw l = true ->
  (exists d, parseMermaid (fenced body) = Return d /\ type d = kind) /\
  isValid (validateMermaid (fenced body)) = false /\
  In missing_type_finding (issues (validateMermaid (fenced body))).
Proof.
  intros Hl Hkw Hdecl. split; [|apply validateMermaid_fenced].
  assert (Hl' : first_nonempty_line (parser_code (fenced body)) = Some l)
    by now rewrite parser_code_fenced.
  destruct (parseMermaid_dispatch _ _ Hl') as (d & Hd & Ht).
  exists d. split; [exact Hd|]. rewrite Ht. now apply (detect_keyword l kw kind).
Qed.

Lemma fence_handling_differs_witness :
  (exists d, parseMermaid (fenced sample_fenced_body) = Return d /\ type d = "flowchart") /\
  isValid (validateMermaid (fenced sample_fenced_body)) = false /\
  In missing_type_finding (issues (validateMermaid (fenced sample_fenced_body))).
Proof.
  apply (fence_handling_differs sample_fenced_body "flowchart TD" "flowchart" "flowchart");
    [reflexivity | simpl; tauto | reflexivity].
Defined.

(** ** Chained arrows and the verdicts of the validator *)

Module ArrowFacts.

Lemma space_plain c : Char.is_space c = true -> plain c = true.
Proof.
  destruct c as [[] [] [] [] [] [] [] []]; intros H; try reflexivity; discriminate H.
Qed.

Lemma plain_not_dash c : plain c = true -> Ascii.eqb "-" c = false.
Proof. unfold plain. destruct (Ascii.eqb "-" c); [discriminate | reflexivity]. Qed.

Lemma plain_not_gt c : plain c = true -> Ascii.eqb ">" c = false.
Proof. unfold plain. destruct (Ascii.eqb ">" c); [now rewrite andb_false_r | reflexivity]. Qed.

Lemma count_cons c x :
  Ascii.eqb "-" c = false -> count_lit arrow (String c x) = count_lit arrow x.
Proof.
  intros Hc. unfold count_lit, arrow. cbn [count_lit_from Str.startsWith].
  now rewrite Hc.
Qed.

Lemma count_app_l p : forall x,
  Str.all plain p = true -> count_lit arrow (p +:+ x) = count_lit arrow x.
Proof.
  induction p as [|c p IH]; intros x Hall; [reflexivity|].
  simpl in Hall. apply andb_prop in Hall as [Hc Hall].
  cbn [String.append]. rewrite count_cons by now apply plain_not_dash. now apply IH.
Qed.

Lemma startsWith_arrow_snoc y c :
  plain c = true ->
  Str.startsWith arrow (y +:+ String c "") = Str.startsWith arrow y.
Proof.
  intros Hc. pose proof (plain_not_dash c Hc) as Hd. pose proof (plain_not_gt c Hc) as Hg.
  unfold arrow.
  destruct y as [|y1 [|y2 [|y3 y]]]; cbn [String.append Str.startsWith];
    rewrite ?Hd, ?Hg, ?andb_false_r; reflexivity.
Qed.

Lemma count_from_snoc c : plain c = true -> forall x skip,
  count_lit_from arrow skip (x +:+ String c "") = count_lit_from arrow skip x.
Proof.
  intros Hc. induction x as [|a x IH]; intros skip.
  - cbn [String.append count_lit_from]. destruct skip; [|reflexivity].
    unfold arrow. cbn [Str.startsWith]. now rewrite (plain_not_dash c Hc).
  - change (String a x +:+ String c "") with (String a (x +:+ String c "")).
    destruct skip as [|k]; cbn [count_lit_from]; [|apply IH].
    change (String a (x +:+ String c "")) with (String a x +:+ String c "").
    rewrite startsWith_arrow_snoc by assumption.
    destruct (Str.startsWith arrow (String a x)); [f_equal|]; apply IH.
Qed.

Lemma count_snoc c x :
  plain c = true -> count_lit arrow (x +:+ String c "") = count_lit arrow x.
Proof. intros Hc. now apply count_from_snoc. Qed.

Lemma count_app_r q : forall x,
  Str.all plain q = true -> count_lit arrow (x +:+ q) = count_lit arrow x.
Proof.
  induction q as [|c q IH]; intros x Hall.
  - now rewrite app_empty_r.
  - simpl in Hall. apply andb_prop in Hall as [Hc Hall].
    change (String c q) with (String c "" +:+ q).
    rewrite <- app_assoc, IH by assumption. now apply count_snoc.
Qed.

Lemma all_space_plain w : Str.all Char.is_space w = true -> Str.all plain w = true.
Proof.
  induction w as [|c w IH]; simpl; [reflexivity|].
  intros H. apply andb_prop in H as [Hc Hw]. now rewrite space_plain, IH.
Qed.

Lemma count_trim l : count_lit arrow (Str.trim l) = count_lit arrow l.
Proof.
  unfold Str.trim.
  destruct (trimStart_decomp l) as (w1 & H1 & Hw1).
  destruct (trimEnd_decomp (Str.trimStart l)) as (w2 & H2 & Hw2).
  rewrite H1 at 2. rewrite count_app_l by now apply all_space_plain.
  rewrite H2 at 2. now rewrite count_app_r by now apply all_space_plain.
Qed.

(** Dropping a leading or trailing code unit that is no part of an arrow
    keeps a chained line. *)
Lemma chained_cons c s :
  Ascii.eqb "-" c = false -> has_chained_line (String c s) -> has_chained_line s.
Proof.
  intros Hc (l & Hin & Hl). unfold has_chained_line.
  destruct (Ascii.eqb c Char.LF) eqn:E.
  - apply Ascii.eqb_eq in E. subst c. rewrite split_lines_cons_LF in Hin.
    destruct Hin as [<-|Hin]; [vm_compute in Hl; lia | eauto].
  - destruct (split_lines_cons c s E) as (l0 & ls & E1 & E2). rewrite E2 in Hin. rewrite E1.
    destruct Hin as [<-|Hin].
    + exists l0. split; [now left | now rewrite count_cons in Hl].
    + exists l. split; [now right | exact Hl].
Qed.

Lemma in_snoc_last c l : forall ls,
  In l (snoc_last c ls) ->
  l = String c "" \/ In l ls \/ exists l0, In l0 ls /\ l = l0 +:+ String c "".
Proof.
  induction ls as [|a ls IH]; intros Hin.
  - destruct Hin as [<-|[]]. now left.
  - destruct ls as [|b ls].
    + destruct Hin as [<-|[]]. right. right. exists a. split; [now left | reflexivity].
    + change (snoc_last c (a :: b :: ls)) with (a :: snoc_last c (b :: ls)) in Hin.
      destruct Hin as [<-|Hin]; [right; left; now left|].
      apply IH in Hin as [->|[Hin|(l0 & Hin & ->)]].
      * now left.
      * right; left; now right.
      * right; right. exists l0. split; [now right | reflexivity].
Qed.

Lemma chained_snoc c s :
  plain c = true -> has_chained_line (s +:+ String c "") -> has_chained_line s.
Proof.
  intros Hc (l & Hin & Hl). unfold has_chained_line.
  rewrite split_lines_snoc in Hin. destruct (Ascii.eqb c Char.LF).
  - apply in_app_or in Hin as [Hin|[<-|[]]]; [eauto | vm_compute in Hl; lia].
  - apply in_snoc_last in Hin as [->|[Hin|(l0 & Hin & ->)]].
    + change (String c "") with ("" +:+ String c "") in Hl.
      rewrite (count_snoc c "" Hc) in Hl. vm_compute in Hl. lia.
    + eauto.
    + rewrite count_snoc in Hl by assumption. eauto.
Qed.

Lemma chained_app_l p : forall s,
  Str.all plain p = true -> has_chained_line (p +:+ s) -> has_chained_line s.
Proof.
  induction p as [|c p IH]; intros s Hall H; [exact H|].
  simpl in Hall. apply andb_prop in Hall as [Hc Hall].
  apply IH; [exact Hall|]. apply (chained_cons c); [now apply plain_not_dash | exact H].
Qed.

Lemma chained_app_r q : forall s,
  Str.all plain q = true -> has_chained_line (s +:+ q) -> has_chained_line s.
Proof.
  induction q as [|c q IH]; intros s Hall H.
  - now rewrite app_empty_r in H.
  - simpl in Hall. apply andb_prop in Hall as [Hc Hall].
    change (String c q) with (String c "" +:+ q) in H. rewrite <- app_assoc in H.
    apply IH in H; [|exact Hall]. now apply chained_snoc in H.
Qed.

Lemma chained_trim s : has_chained_line s -> has_chained_line (Str.trim s).
Proof.
  intros H. unfold Str.trim.
  destruct (trimStart_decomp s) as (w1 & H1 & Hw1).
  destruct (trimEnd_decomp (Str.trimStart s)) as (w2 & H2 & Hw2).
  rewrite H1 in H. apply chained_app_l in H; [|now apply all_space_plain].
  rewrite H2 in H. apply chained_app_r in H; [|now apply all_space_plain]. exact H.
Qed.

End ArrowFacts.

Import ArrowFacts.

Module ValidatorFacts.

Lemma remove_open_mermaid r :
  remove_first (fenceOpenPattern "mermaid") ("```mermaid" +:+ r) =
  match r with
  | String c r' => if Ascii.eqb Char.LF c then r' else r
  | EmptyString => ""
  end.
Proof.
  unfold remove_first, fenceOpenPattern. cbn [seqs]. rewrite exec_anchored, m_seq.
  change (backticks +:+ "mermaid") with "```mermaid". rewrite m_lit.
  destruct r as [|c r]; [reflexivity|].
  cbn [m Opt rest caps]. unfold Char.only. destruct (Ascii.eqb Char.LF c); reflexivity.
Qed.

Lemma chained_remove_open code :
  Str.startsWith "```mermaid" code = true -> has_chained_line code ->
  has_chained_line (remove_first (fenceOpenPattern "mermaid") code).
Proof.
  intros Hs H. peel Hs.
  match goal with
  | H : has_chained_line ?t |- _ =>
      match t with context [String "d" ?r] =>
        change t with ("```mermaid" +:+ r) in H |- *;
        rewrite remove_open_mermaid;
        apply (chained_app_l "```mermaid") in H; [|reflexivity];
        destruct r as [|c r']; [exact H|];
        destruct (Ascii.eqb Char.LF c) eqn:E; [|exact H];
        apply (chained_cons c); [|exact H]
      end
  end.
  apply Ascii.eqb_eq in E. now subst c.
Qed.

Lemma remove_close_suffix x :
  exists q, x = remove_first fenceClosePattern x +:+ q /\ Str.all plain q = true.
Proof.
  unfold remove_first. destruct (exec fenceClosePattern x) as [res|] eqn:E.
  - apply exec_at_sound in E as (a & b & p' & Hx & Hidx & Hs).
    apply fenceClose_consumes in Hs as [Hr Hb]. cbn [rest] in Hb.
    exists b. rewrite Hr, Hidx, Hx. cbn [Nat.add]. rewrite take_len_app, app_empty_r.
    split; [reflexivity|]. destruct Hb as [->| ->]; reflexivity.
  - exists "". now rewrite app_empty_r.
Qed.

Lemma chained_validator_code input :
  has_chained_line input -> has_chained_line (validator_code input).
Proof.
  intros H. apply chained_trim in H. unfold validator_code.
  destruct (Str.startsWith "```mermaid" (Str.trim input)) eqn:E; [|exact H].
  apply chained_remove_open in H; [|exact E].
  destruct (remove_close_suffix (remove_first (fenceOpenPattern "mermaid") (Str.trim input)))
    as (q & Hq & Hall).
  rewrite Hq in H. now apply chained_app_r in H.
Qed.

Lemma check_lines_chained lines : forall i l,
  In l lines -> 2 <= count_lit arrow l ->
  exists j, In (chained_finding j) (fst (check_lines i lines)).
Proof.
  induction lines as [|a ls IH]; intros i l Hin Hl; [destruct Hin|].
  rewrite check_lines_cons. cbn [fst]. destruct Hin as [->|Hin].
  - exists i. apply in_or_app. left. rewrite check_line_issues.
    fold arrow. rewrite count_trim.
    replace (1 <? count_lit arrow l) with true by (symmetry; apply Nat.ltb_lt; lia).
    now left.
  - destruct (IH (S i) l Hin Hl) as (j & Hj). exists j. apply in_or_app. now right.
Qed.

Lemma verdict_of_issue code f :
  In f (issues (validateMermaid code)) ->
  isValid (validateMermaid code) = false /\ compatibility (validateMermaid code) = "low".
Proof.
  unfold validateMermaid. destruct (check_lines 0 _) as [is2 ws2].
  cbn [issues isValid compatibility]. intros Hin.
  destruct (_ ++ is2) as [|? ?]; [destruct Hin|]. split; reflexivity.
Qed.

Lemma chained_flagged input :
  has_chained_line input ->
  exists f, In f (issues (validateMermaid input)) /\ f_issue f = "Chained arrows detected".
Proof.
  intros H. apply chained_validator_code in H as (l & Hin & Hl).
  destruct (check_lines_chained _ 0 l Hin Hl) as (j & Hj).
  exists (chained_finding j). split; [|reflexivity].
  unfold validateMermaid. destruct (check_lines 0 _) as [is2 ws2].
  cbn [issues]. apply in_or_app. now right.
Qed.

End ValidatorFacts.

Import ValidatorFacts.

Module HighFacts.

Lemma trimStart_head s :
  Str.trimStart s = "" \/
  exists c r, Str.trimStart s = String c r /\ Char.is_space c = false.
Proof.
  induction s as [|c s IH]; [now left|].
  cbn [Str.trimStart]. destruct (Char.is_space c) eqn:Hc; [exact IH|].
  right. eauto.
Qed.

Lemma trim_head s :
  Str.trim s = "" \/ exists c r, Str.trim s = String c r /\ Char.is_space c = false.
Proof.
  unfold Str.trim. destruct (trimStart_head s) as [->|(c & r & -> & Hc)]; [now left|].
  right. exists c, (Str.trimEnd r). split; [|exact Hc].
  cbn [Str.trimEnd]. now rewrite Hc.
Qed.

Lemma lines_of_trim s l' :
  In l' (Str.split_lines (Str.trim s)) -> Str.nonblank l' = true ->
  exists l, In l (Str.split_lines s) /\ Str.trim l = Str.trim l'.
Proof.
  intros Hin Hnb.
  assert (H : In (Str.trim l') (trimmed_lines (Str.trim s))).
  { unfold trimmed_lines. apply List.in_map. apply List.filter_In. now split. }
  rewrite trimmed_lines_trim in H. unfold trimmed_lines in H.
  apply List.in_map_iff in H as (l & Ht & Hl). apply List.filter_In in Hl as [Hl _].
  eauto.
Qed.

Lemma nonspace_not_LF c : Char.is_space c = false -> Ascii.eqb c Char.LF = false.
Proof.
  intros H. destruct (Ascii.eqb c Char.LF) eqn:E; [|reflexivity].
  apply is_space_LF in E. congruence.
Qed.

(** The first line the validator reads, when the text opens with a
    declaration line. *)
Lemma validator_first_line input :
  declares_flowchart_lr input ->
  validator_code input = Str.trim input /\
  Str.trim (List.hd "" (Str.split_lines (Str.trim input))) =
  Str.trim (List.hd "" (Str.split_lines input)).
Proof.
  unfold declares_flowchart_lr. intros Hdecl.
  destruct (Str.split_lines input) as [|l0 ls] eqn:Es; [now apply split_lines_nonempty in Es|].
  cbn [List.hd] in *.
  assert (Hnb : Str.nonblank l0 = true).
  { unfold Str.nonblank. destruct (Str.trim l0); [discriminate Hdecl | reflexivity]. }
  assert (Ht : List.head (trimmed_lines (Str.trim input)) = Some (Str.trim l0)).
  { rewrite trimmed_lines_trim. unfold trimmed_lines. rewrite Es.
    cbn [List.filter]. now rewrite Hnb. }
  destruct (trim_head input) as [E|(c & r & E & Hc)]; rewrite E in Ht |- *.
  { discriminate Ht. }
  destruct (split_lines_cons c r (nonspace_not_LF c Hc)) as (l & ls' & _ & E2).
  unfold trimmed_lines in Ht. rewrite E2 in Ht |- *. cbn [List.filter List.hd] in Ht |- *.
  unfold Str.nonblank in Ht. rewrite (trim_cons_nonspace c l Hc) in Ht.
  cbn [Str.is_empty negb List.map List.head] in Ht. injection Ht as Ht.
  split; [|exact Ht].
  unfold validator_code. rewrite E.
  destruct (Str.startsWith "```mermaid" (String c r)) eqn:Ef; [|reflexivity].
  apply startsWith_cons in Ef as (r' & Hr & _). injection Hr as -> _.
  rewrite trim_cons_nonspace in Ht by reflexivity. rewrite <- Ht in Hdecl.
  discriminate Hdecl.
Qed.

Lemma check_line_warnings i raw :
  snd (check_line i raw) =
  if Str.startsWith "classDef" (Str.trim raw) || Str.startsWith "style " (Str.trim raw)
  then [{| f_line := i + 1; f_issue := "Styling directive found";
           f_suggestion := "Styling may not convert cleanly to Draw.io" |}]
  else [].
Proof. reflexivity. Qed.

Lemma check_lines_clean lines :
  (forall l, In l lines ->
     count_lit arrow (Str.trim l) <= 1 /\
     Str.startsWith "classDef" (Str.trim l) = false /\
     Str.startsWith "style " (Str.trim l) = false) ->
  forall i, check_lines i lines = ([], []).
Proof.
  induction lines as [|a ls IH]; intros H i; [reflexivity|].
  rewrite check_lines_cons, check_line_issues, check_line_warnings.
  destruct (H a (or_introl eq_refl)) as (Hc & Hs1 & Hs2).
  rewrite Hs1, Hs2. fold arrow.
  replace (1 <? count_lit arrow (Str.trim a)) with false
    by (symmetry; apply Nat.ltb_ge; lia).
  rewrite IH; [reflexivity|]. intros l Hl. apply H. now right.
Qed.

Lemma blank_line_clean l :
  Str.nonblank l = false ->
  count_lit arrow (Str.trim l) <= 1 /\
  Str.startsWith "classDef" (Str.trim l) = false /\
  Str.startsWith "style " (Str.trim l) = false.
Proof.
  unfold Str.nonblank. destruct (Str.trim l); [|discriminate].
  intros _. repeat split. vm_compute. lia.
Qed.

Lemma clean_is_high input :
  declares_flowchart_lr input -> no_styling input -> ~ has_chained_line input ->
  compatibility (validateMermaid input) = "high".
Proof.
  intros Hdecl Hsty Hnc.
  destruct (validator_first_line input Hdecl) as [Hcode Hfirst].
  unfold validateMermaid. rewrite Hcode, Hfirst, Hdecl.
  rewrite check_lines_clean; [reflexivity|].
  intros l' Hin. destruct (Str.nonblank l') eqn:Hnb; [|now apply blank_line_clean].
  destruct (lines_of_trim input l' Hin Hnb) as (l & Hl & Ht).
  rewrite <- Ht. destruct (Hsty l Hl) as [Hs1 Hs2]. repeat split; try assumption.
  rewrite count_trim. destruct (Nat.le_gt_cases (count_lit arrow l) 1) as [Hle|Hgt]; [exact Hle|].
  exfalso. apply Hnc. exists l. split; [exact Hl | lia].
Qed.

End HighFacts.
Import HighFacts.

(** C9.  On an input with a line holding two or more plain arrows
    [validateMermaid] reports a chained-arrows issue, so the input is not
    valid and the compatibility is "low"; on an input whose first line is the
    declaration [flowchart LR], without styling directive and without
    chained arrows, the compatibility is "high". *)
Theorem validator_verdicts (input : string) :
  (has_chained_line input ->
     (exists f, In f (issues (validateMermaid input)) /\
                f_issue f = "Chained arrows detected") /\
     isValid (validateMermaid input) = false /\
     compatibility (validateMermaid input) = "low") /\
  (declares_flowchart_lr input -> no_styling input -> ~ has_chained_line input ->
     compatibility (validateMermaid input) = "high").
Proof.
  split.
  - intros H. destruct (chained_flagged input H) as (f & Hin & Hf).
    split; [eauto | exact (verdict_of_issue input f Hin)].
  - apply clean_is_high.
Qed.

Lemma validator_verdicts_witness :
  compatibility (validateMermaid sample_chained) = "low" /\
  isValid (validateMermaid sample_chained) = false /\
  compatibility (validateMermaid sample_clean) = "high".
Proof.
  destruct (validator_verdicts sample_chained) as [Ha _].
  destruct (validator_verdicts sample_clean) as [_ Hb].
  destruct Ha as (_ & Hv & Hc).
  - exists "A --> B --> C". split; [vm_compute; tauto | vm_compute; lia].
  - split; [exact Hc|]. split; [exact Hv|]. apply Hb.
    + reflexivity.
    + intros l Hin. vm_compute in Hin.
      destruct Hin as [<-|[<-|[<-|[]]]]; split; reflexivity.
    + intros (l & Hin & Hl). vm_compute in Hin.
      destruct Hin as [<-|[<-|[<-|[]]]]; vm_compute in Hl; lia.
Defined.


(** ** Termination of the level assignment *)

Module LevelFacts.

Lemma size_stack_grows (U S : gset string) x :
  x ∈ U -> x ∉ S -> size (U ∖ ({[x]} ∪ S)) < size (U ∖ S).
Proof. intros HU HS. apply subset_size. set_solver. Qed.

Lemma visit_children_none fuel outE level children :
  visit_children fuel outE level children None = None.
Proof. induction children as [|c cs IH]; [reflexivity | exact IH]. Qed.

Lemma visit_children_total fuel outE level stack
  (IH : forall nodeId lv st,
     size (dom outE ∖ inStack st) < fuel -> consistent st ->
     exists st', assignLevels fuel outE nodeId lv st = Some st' /\
                 inStack st' = inStack st /\ consistent st') :
  size (dom outE ∖ stack) < fuel ->
  forall children st,
    inStack st = stack -> consistent st ->
    exists st', visit_children fuel outE level children (Some st) = Some st' /\
                inStack st' = stack /\ consistent st'.
Proof.
  intros Hsz. induction children as [|c cs IHc]; intros st Hst Hcons.
  - exists st. repeat split; assumption.
  - cbn [visit_children List.fold_left].
    destruct (IH c (level + 1) st) as (st1 & -> & Hs1 & Hc1); [now rewrite Hst | exact Hcons |].
    apply IHc; [congruence | exact Hc1].
Qed.

Lemma assignLevels_total outE : forall fuel nodeId level st,
  size (dom outE ∖ inStack st) < fuel -> consistent st ->
  exists st', assignLevels fuel outE nodeId level st = Some st' /\
              inStack st' = inStack st /\ consistent st'.
Proof.
  induction fuel as [|fuel IH]; intros nodeId level st Hsz Hcons; [lia|].
  cbn [assignLevels]. destruct (decide (nodeId ∈ inStack st)) as [Hin|Hnin].
  { exists st. repeat split; assumption. }
  set (entered := if decide (nodeId ∈ visited st) then _ else _).
  assert (Hent : entered = None \/
                 exists st1, entered = Some st1 /\ inStack st1 = inStack st /\ consistent st1).
  { subst entered. destruct (decide (nodeId ∈ visited st)) as [Hv|Hv].
    - destruct (nodeLevel st !! nodeId) as [l|] eqn:El; [|now left].
      destruct (l <? level); [|now left].
      right. eexists. split; [reflexivity|]. split; [reflexivity|].
      unfold consistent in *. cbn [nodeLevel visited]. rewrite dom_insert_L. set_solver.
    - right. exists st. repeat split; assumption. }
  destruct Hent as [->|(st1 & -> & Hs1 & Hc1)].
  { exists st. repeat split; assumption. }
  match goal with
  | |- context [List.fold_left ?f ?cs (Some ?s2)] =>
      change (List.fold_left f cs (Some s2))
        with (visit_children fuel outE level cs (Some s2));
      set (st2 := s2); set (children := cs)
  end.
  assert (Hc2 : consistent st2).
  { unfold consistent in *. subst st2. cbn [nodeLevel visited].
    rewrite dom_insert_L. now rewrite Hc1. }
  assert (Hkids : exists st3, visit_children fuel outE level children (Some st2) = Some st3 /\
                              inStack st3 = {[nodeId]} ∪ inStack st /\ consistent st3).
  { destruct (outE !! nodeId) as [cs|] eqn:Eo.
    - apply (visit_children_total fuel outE level ({[nodeId]} ∪ inStack st) IH).
      + assert (Hdom : nodeId ∈ dom outE) by (apply elem_of_dom; eauto).
        pose proof (size_stack_grows (dom outE) (inStack st) nodeId Hdom Hnin).
        lia.
      + subst st2. cbn [inStack]. now rewrite Hs1.
      + exact Hc2.
    - subst children. exists st2. split; [reflexivity|].
      split; [subst st2; cbn [inStack]; now rewrite Hs1 | exact Hc2]. }
  destruct Hkids as (st3 & -> & Hs3 & Hc3).
  eexists. split; [reflexivity|]. cbn [inStack]. split.
  - rewrite Hs3. set_solver.
  - exact Hc3.
Qed.

(** More fuel never changes a result. *)
Lemma assignLevels_mono outE : forall fuel fuel' nodeId level st st',
  fuel <= fuel' ->
  assignLevels fuel outE nodeId level st = Some st' ->
  assignLevels fuel' outE nodeId level st = Some st'.
Proof.
  induction fuel as [|fuel IH]; intros fuel' nodeId level st st' Hle H; [discriminate|].
  destruct fuel' as [|fuel']; [lia|]. cbn [assignLevels] in *.
  destruct (decide (nodeId ∈ inStack st)); [exact H|].
  destruct (if decide (nodeId ∈ visited st) then _ else _) as [st1|]; [|exact H].
  match type of H with
  | context [List.fold_left ?f ?cs (Some ?s2)] =>
      change (List.fold_left f cs (Some s2))
        with (visit_children fuel outE level cs (Some s2)) in H;
      set (st2 := s2) in *; set (children := cs) in *
  end.
  match goal with
  | |- context [List.fold_left ?f children (Some st2)] =>
      change (List.fold_left f children (Some st2))
        with (visit_children fuel' outE level children (Some st2))
  end.
  assert (Hk : forall cs s r, visit_children fuel outE level cs (Some s) = Some r ->
                              visit_children fuel' outE level cs (Some s) = Some r).
  { induction cs as [|c cs IHc]; intros s r Hr; [exact Hr|].
    cbn [visit_children List.fold_left] in *.
    destruct (assignLevels fuel outE c (level + 1) s) as [s1|] eqn:E1.
    - rewrite (IH fuel' c (level + 1) s s1 ltac:(lia) E1). now apply IHc.
    - fold (visit_children fuel outE level cs None) in Hr.
      rewrite visit_children_none in Hr. discriminate. }
  destruct (visit_children fuel outE level children (Some st2)) as [st3|] eqn:E3;
    [|discriminate].
  now rewrite (Hk _ _ _ E3).
Qed.

End LevelFacts.

Import LevelFacts.

Module AdjacencyFacts.

Lemma dom_push_at k v adj : dom (push_at k v adj) = dom adj.
Proof.
  unfold push_at. destruct (adj !! k) as [l|] eqn:E; [|reflexivity].
  rewrite dom_insert_L. assert (k ∈ dom adj) by (apply elem_of_dom; eauto). set_solver.
Qed.

Lemma dom_fold_push (f : Edge -> string * string) edges :
  forall adj : gmap string (list string),
  dom (List.fold_left (fun a e => push_at (fst (f e)) (snd (f e)) a) edges adj) = dom adj.
Proof.
  induction edges as [|e es IH]; intros adj; [reflexivity|].
  cbn [List.fold_left]. rewrite IH. apply dom_push_at.
Qed.

Lemma dom_empty_adjacency_from nodes :
  forall adj : gmap string (list string),
  dom (List.fold_left (fun a node => <[id node := []]> a) nodes adj) =
  (list_to_set (List.map id nodes) : gset string) ∪ dom adj.
Proof.
  induction nodes as [|n ns IH]; intros adj; cbn [List.fold_left List.map list_to_set].
  - set_solver.
  - rewrite IH, dom_insert_L. set_solver.
Qed.

Lemma dom_outEdges nodes edges :
  dom (outEdges nodes edges) = list_to_set (List.map id nodes).
Proof.
  unfold outEdges.
  rewrite (dom_fold_push (fun e => (e_source e, e_target e))).
  unfold empty_adjacency. rewrite dom_empty_adjacency_from, dom_empty_L. set_solver.
Qed.

Lemma size_list_to_set_le (l : list string) :
  size (list_to_set l : gset string) <= length l.
Proof.
  induction l as [|x l IH]; cbn [list_to_set length].
  - now rewrite size_empty.
  - rewrite size_union_alt, size_singleton.
    pose proof (subseteq_size (list_to_set l ∖ {[x]}) (list_to_set l : gset string)
                  ltac:(set_solver)).
    lia.
Qed.

Lemma size_dom_outEdges nodes edges :
  size (dom (outEdges nodes edges)) <= length nodes.
Proof.
  rewrite dom_outEdges. etransitivity; [apply size_list_to_set_le|].
  now rewrite List.length_map.
Qed.

End AdjacencyFacts.
Import AdjacencyFacts.

Module DefaultFacts.

Lemma default_levels_keeps nodes : forall (lv : gmap string nat) k v,
  lv !! k = Some v -> default_levels nodes lv !! k = Some v.
Proof.
  induction nodes as [|n ns IH]; intros lv k v H; [exact H|].
  cbn [default_levels List.fold_left]. apply IH.
  destruct (lv !! id n) eqn:E; [exact H|].
  rewrite lookup_insert_ne; [exact H | congruence].
Qed.

Lemma default_levels_fills nodes : forall (lv : gmap string nat) n,
  In n nodes -> lv !! id n = None -> default_levels nodes lv !! id n = Some 0.
Proof.
  induction nodes as [|a ns IH]; intros lv n Hin Hlv; [destruct Hin|].
  cbn [default_levels List.fold_left]. fold (default_levels ns).
  destruct (decide (id a = id n)) as [Heq|Hne].
  - rewrite Heq, Hlv. apply default_levels_keeps. apply lookup_insert_eq.
  - destruct Hin as [->|Hin]; [congruence|].
    apply IH; [exact Hin|]. destruct (lv !! id a); [exact Hlv|].
    now rewrite lookup_insert_ne.
Qed.

Lemma default_levels_defined nodes (lv : gmap string nat) n :
  In n nodes -> is_Some (default_levels nodes lv !! id n).
Proof.
  intros Hin. destruct (lv !! id n) as [v|] eqn:E.
  - exists v. now apply default_levels_keeps.
  - exists 0. now apply default_levels_fills.
Qed.

End DefaultFacts.
Import DefaultFacts.

Lemma assign_roots_total nodes edges fuel :
  length nodes < fuel ->
  exists st, assign_roots fuel nodes edges = Some st /\ consistent st.
Proof.
  intros Hfuel. unfold assign_roots.
  assert (H0 : inStack level_init = ∅ /\ consistent level_init).
  { split; [reflexivity|]. unfold consistent. cbn. apply dom_empty_L. }
  revert H0. generalize level_init. generalize (roots nodes edges).
  induction l as [|r rs IH]; intros st [Hs Hc].
  - exists st. split; [reflexivity | exact Hc].
  - cbn [List.fold_left].
    destruct (assignLevels_total (outEdges nodes edges) fuel (id r) 0 st)
      as (st1 & -> & Hs1 & Hc1).
    + rewrite Hs. pose proof (size_dom_outEdges nodes edges).
      pose proof (subseteq_size (dom (outEdges nodes edges) ∖ ∅)
                    (dom (outEdges nodes edges)) ltac:(set_solver)).
      lia.
    + exact Hc.
    + apply IH. split; [congruence | exact Hc1].
Qed.

Lemma assign_roots_mono nodes edges fuel fuel' st :
  fuel <= fuel' ->
  assign_roots fuel nodes edges = Some st -> assign_roots fuel' nodes edges = Some st.
Proof.
  intros Hle. unfold assign_roots. generalize level_init. generalize (roots nodes edges).
  induction l as [|r rs IH]; intros s H; [exact H|].
  cbn [List.fold_left] in *.
  destruct (assignLevels fuel (outEdges nodes edges) (id r) 0 s) as [s1|] eqn:E.
  - rewrite (assignLevels_mono _ _ _ _ _ _ _ Hle E). now apply IH.
  - exfalso. clear -H. induction rs as [|r' rs' IH']; [discriminate | exact (IH' H)].
Qed.

(** C8.  For every node list and edge list, cycles included, the level
    assignment returns: a recursion depth of one more than the number of
    nodes is never exceeded, and more depth changes nothing.  Afterwards
    every node has a level, and a node the traversal never visited has
    level 0. *)
Theorem level_assignment_terminates (nodes : list Node) (edges : list Edge) :
  exists st levels,
    (forall extra,
       level_assignment (S (length nodes) + extra) nodes edges = Some (st, levels)) /\
    (forall n, In n nodes -> is_Some (levels !! id n)) /\
    (forall n, In n nodes -> id n ∉ visited st -> levels !! id n = Some 0).
Proof.
  destruct (assign_roots_total nodes edges (S (length nodes)) ltac:(lia)) as (st & Hst & Hc).
  exists st, (default_levels nodes (nodeLevel st)). split; [|split].
  - intros extra. unfold level_assignment.
    assert (Hle : S (length nodes) <= S (length nodes) + extra) by lia.
    now rewrite (assign_roots_mono nodes edges _ _ st Hle Hst).
  - intros n Hin. now apply default_levels_defined.
  - intros n Hin Hv. apply default_levels_fills; [exact Hin|].
    apply not_elem_of_dom. now rewrite Hc.
Qed.

Lemma level_assignment_terminates_witness :
  exists st levels,
    level_assignment 3 cycle_nodes cycle_edges = Some (st, levels) /\
    is_Some (levels !! "A") /\ is_Some (levels !! "B").
Proof.
  destruct (level_assignment_terminates cycle_nodes cycle_edges)
    as (st & levels & Hrun & Hdef & _).
  exists st, levels. split; [exact (Hrun 0)|].
  split; [apply (Hdef (default_node "A")) | apply (Hdef (default_node "B"))];
    simpl; tauto.
Defined.

(** On the two-node cycle the seed gets level 0 and the other node level 1. *)
Example cycle_levels :
  option_map (fun r => (snd r !! "A", snd r !! "B"))
    (level_assignment 3 cycle_nodes cycle_edges) = Some (Some 0, Some 1).
Proof. vm_compute. reflexivity. Qed.

(** ** Re-declaration in the flowchart scanner *)

Module JsMapFacts.
Section JsMapFacts.
Context {V : Type}.
Implicit Types (mp : list (string * V)).

Lemma get_set_eq k v mp : JsMap.get k (JsMap.set k v mp) = Some v.
Proof.
  induction mp as [|[k' v'] mp IH]; cbn [JsMap.set JsMap.get].
  - now rewrite String.eqb_refl.
  - destruct (String.eqb k' k) eqn:E; cbn [JsMap.get].
    + now rewrite String.eqb_refl.
    + now rewrite E.
Qed.

Lemma get_set_ne k k' v mp : k' <> k -> JsMap.get k (JsMap.set k' v mp) = JsMap.get k mp.
Proof.
  intros Hne. induction mp as [|[k0 v0] mp IH]; cbn [JsMap.set JsMap.get].
  - destruct (String.eqb_spec k' k); [congruence | reflexivity].
  - destruct (String.eqb_spec k0 k') as [->|Hk0]; cbn [JsMap.get].
    + destruct (String.eqb_spec k' k); [congruence | reflexivity].
    + destruct (String.eqb_spec k0 k); [reflexivity | exact IH].
Qed.

End JsMapFacts.
End JsMapFacts.
Import JsMapFacts.

Lemma upsert_keeps k n k' inline nodes :
  JsMap.get k nodes = Some n ->
  (k' = k -> inline = None) ->
  JsMap.get k (upsert k' inline nodes) = Some n.
Proof.
  intros Hget Hbare. unfold upsert.
  destruct (String.eqb_spec k' k) as [->|Hne].
  - rewrite (Hbare eq_refl). unfold JsMap.has. now rewrite Hget.
  - destruct inline as [n'|].
    + now rewrite get_set_ne.
    + destruct (JsMap.has k' nodes); [exact Hget | now rewrite get_set_ne].
Qed.

Lemma flow_step_keeps st raw k n :
  JsMap.get k (fs_nodes st) = Some n ->
  ~ In k (shaped_ids (Str.trim raw)) ->
  JsMap.get k (fs_nodes (flow_step st raw)) = Some n.
Proof.
  intros Hget Hbare. unfold flow_step, shaped_ids in *.
  destruct (Str.is_empty (Str.trim raw) || Str.startsWith "%%" (Str.trim raw));
    [exact Hget|].
  destruct (Str.startsWith "subgraph" (Str.trim raw)).
  { destruct (exec subgraphPattern _); exact Hget. }
  destruct (String.eqb (Str.trim raw) "end").
  { destruct (fs_current st); exact Hget. }
  destruct (parseConnection (Str.trim raw)) as [c|].
  - cbn [fs_nodes]. apply upsert_keeps; [apply upsert_keeps; [exact Hget|] |].
    + intros Heq. destruct (c_sourceNode c); [|reflexivity].
      exfalso. apply Hbare. apply in_or_app. left. now left.
    + intros Heq. destruct (c_targetNode c); [|reflexivity].
      exfalso. apply Hbare. apply in_or_app. right. now left.
  - destruct (exec nodeDefPattern (Str.trim raw)) as [mt|]; [|exact Hget].
    cbn [fs_nodes]. rewrite get_set_ne; [exact Hget|].
    intros Heq. apply Hbare. now left.
Qed.

(** C6.  Once the flowchart scanner has recorded node [k], lines that carry
    no inline shape for [k] leave its entry as it is: a later bare reference
    never overwrites the recorded shape.  The instance below is the input
    with "A[Shape1] --> B" followed by "A --> C". *)
Theorem bare_reference_keeps_shape (before after : list string) (k : string) (n : Node) :
  JsMap.get k (fs_nodes (List.fold_left flow_step before flow_init)) = Some n ->
  (forall raw, In raw after -> ~ In k (shaped_ids (Str.trim raw))) ->
  JsMap.get k (fs_nodes (List.fold_left flow_step (before ++ after) flow_init)) = Some n.
Proof.
  rewrite List.fold_left_app. generalize (List.fold_left flow_step before flow_init).
  induction after as [|raw rs IH]; intros st Hget Hbare; [exact Hget|].
  cbn [List.fold_left]. apply IH.
  - apply flow_step_keeps; [exact Hget | apply Hbare; now left].
  - intros raw' Hin. apply Hbare. now right.
Qed.

Lemma bare_reference_keeps_shape_witness :
  JsMap.get "A"
    (fs_nodes (flow_scan ["flowchart TD"; "A[Shape1] --> B"; "  A --> C"])) =
  Some shape1_node.
Proof.
  apply (bare_reference_keeps_shape ["A[Shape1] --> B"] ["  A --> C"] "A" shape1_node).
  - vm_compute. reflexivity.
  - intros raw [<-|[]]. vm_compute. tauto.
Defined.

(** The same input through [parseMermaid]: node A keeps the label Shape1. *)
Example shape1_end_to_end :
  option_map (List.map (fun n => (id n, label n)))
    (match parseMermaid ("flowchart TD" +:+ String Char.LF
                           ("A[Shape1] --> B" +:+ String Char.LF "A --> C")) with
     | Return d => match body d with FlowBody _ ns _ _ => Some ns | _ => None end
     | Throw _ => None
     end) = Some [("A", "Shape1"); ("B", "B"); ("C", "C")].
Proof. vm_compute. reflexivity. Qed.

(** ** Start and Stop synthesis *)

Module SynthFacts.

Lemma push_at_lookup k v (adj : gmap string (list string)) j :
  push_at k v adj !! j =
  match adj !! j with
  | Some l => Some (if String.eqb k j then l ++ [v] else l)
  | None => None
  end.
Proof.
  unfold push_at. destruct (String.eqb_spec k j) as [->|Hne].
  - destruct (adj !! j) as [l|] eqn:E; [apply lookup_insert_eq | exact E].
  - destruct (adj !! k) as [l|] eqn:E.
    + rewrite lookup_insert_ne by exact Hne. now destruct (adj !! j).
    + now destruct (adj !! j).
Qed.

Lemma fold_push_lookup (f g : Edge -> string) edges :
  forall (adj : gmap string (list string)) k l,
  adj !! k = Some l ->
  List.fold_left (fun a e => push_at (f e) (g e) a) edges adj !! k =
  Some (l ++ List.map g (List.filter (fun e => String.eqb (f e) k) edges)).
Proof.
  induction edges as [|e es IH]; intros adj k l Hl; cbn [List.fold_left List.filter].
  - now rewrite List.app_nil_r.
  - erewrite IH; [|rewrite push_at_lookup, Hl; reflexivity].
    destruct (String.eqb (f e) k); cbn [List.map]; [|reflexivity].
    now rewrite <- List.app_assoc.
Qed.

Lemma empty_adjacency_keeps nodes : forall (adj : gmap string (list string)) k,
  adj !! k = Some [] ->
  List.fold_left (fun a node => <[id node := []]> a) nodes adj !! k = Some [].
Proof.
  induction nodes as [|a ns IH]; intros adj k Hk; [exact Hk|].
  cbn [List.fold_left]. apply IH.
  destruct (decide (id a = k)) as [->|Hne]; [apply lookup_insert_eq|].
  now rewrite lookup_insert_ne.
Qed.

Lemma empty_adjacency_lookup nodes : forall (adj : gmap string (list string)) n,
  In n nodes ->
  List.fold_left (fun a node => <[id node := []]> a) nodes adj !! id n = Some [].
Proof.
  induction nodes as [|a ns IH]; intros adj n Hin; [destruct Hin|].
  cbn [List.fold_left]. destruct Hin as [->|Hin]; [|now apply IH].
  apply empty_adjacency_keeps. apply lookup_insert_eq.
Qed.

Lemma no_neighbours_spec (f g : Edge -> string) nodes edges n :
  In n nodes ->
  no_neighbours
    (List.fold_left (fun a e => push_at (f e) (g e) a) edges (empty_adjacency nodes)) n = true
  <-> (forall e, In e edges -> f e <> id n).
Proof.
  intros Hin. unfold no_neighbours.
  rewrite (fold_push_lookup f g edges _ (id n) []) by now apply empty_adjacency_lookup.
  cbn [List.app]. rewrite List.length_map. split.
  - intros H e He Heq. apply Nat.eqb_eq in H.
    assert (Hf : In e (List.filter (fun e => String.eqb (f e) (id n)) edges)).
    { apply List.filter_In. split; [exact He|]. now apply String.eqb_eq. }
    destruct (List.filter _ edges); [destruct Hf | discriminate H].
  - intros H. apply Nat.eqb_eq.
    destruct (List.filter _ edges) as [|e es] eqn:E; [reflexivity|].
    assert (Hf : In e (List.filter (fun e => String.eqb (f e) (id n)) edges))
      by (rewrite E; now left).
    apply List.filter_In in Hf as [He Heq]. apply String.eqb_eq in Heq.
    now destruct (H e He).
Qed.

Lemma zero_in_spec nodes edges n :
  In n nodes -> no_neighbours (inEdges nodes edges) n = true <-> zero_in edges n.
Proof. intros Hin. exact (no_neighbours_spec e_target e_source nodes edges n Hin). Qed.

Lemma zero_out_spec nodes edges n :
  In n nodes -> no_neighbours (outEdges nodes edges) n = true <-> zero_out edges n.
Proof. intros Hin. exact (no_neighbours_spec e_source e_target nodes edges n Hin). Qed.

Lemma fold_unshift {A B} (f : A -> B) l : forall acc,
  List.fold_left (fun es x => f x :: es) l acc = List.rev (List.map f l) ++ acc.
Proof.
  induction l as [|x l IH]; intros acc; [reflexivity|].
  cbn [List.fold_left List.map List.rev]. rewrite IH, <- List.app_assoc. reflexivity.
Qed.

(** The result of the synthesis, spelled out. *)
Lemma synthesize_shape nodes edges :
  let startNodes := List.filter (no_neighbours (inEdges nodes edges)) nodes in
  let endNodes := List.filter (no_neighbours (outEdges nodes edges)) nodes in
  let addStart := negb (hasStartNode nodes) && (0 <? length startNodes) in
  let addStop := negb (hasStopNode nodes) && (0 <? length endNodes) in
  synthesize nodes edges =
  ((if addStart then [startNode] else []) ++ nodes ++
   (if addStop then [stopNode] else []),
   (if addStart then List.rev (List.map start_edge startNodes) else []) ++ edges ++
   (if addStop then List.map stop_edge endNodes else [])).
Proof.
  cbv zeta. unfold synthesize.
  destruct (negb (hasStartNode nodes) && _); destruct (negb (hasStopNode nodes) && _);
    rewrite ?fold_unshift, ?List.app_nil_r; cbn [List.app];
    rewrite <- ?List.app_assoc; reflexivity.
Qed.

Lemma terminal_free_start nodes :
  (forall n, In n nodes -> names_terminal n = false) -> hasStartNode nodes = false.
Proof.
  intros H. unfold hasStartNode. destruct (List.existsb _ nodes) eqn:E; [|reflexivity].
  apply List.existsb_exists in E as (n & Hin & Hn). specialize (H n Hin).
  unfold names_terminal, terminal_name in H.
  apply orb_false_elim in H as [Hid Hlb].
  apply orb_prop in Hn as [Hn|Hn].
  - apply String.eqb_eq in Hn. rewrite Hn in Hid. discriminate Hid.
  - rewrite Hn in Hlb. discriminate Hlb.
Qed.

Lemma terminal_free_stop nodes :
  (forall n, In n nodes -> names_terminal n = false) -> hasStopNode nodes = false.
Proof.
  intros H. unfold hasStopNode. destruct (List.existsb _ nodes) eqn:E; [|reflexivity].
  apply List.existsb_exists in E as (n & Hin & Hn). specialize (H n Hin).
  unfold names_terminal, terminal_name in H.
  apply orb_false_elim in H as [Hid Hlb].
  repeat (apply orb_prop in Hn as [Hn|Hn]).
  - apply String.eqb_eq in Hn. rewrite Hn in Hid. discriminate Hid.
  - apply String.eqb_eq in Hn. rewrite Hn in Hid. discriminate Hid.
  - rewrite Hn, ?orb_true_r in Hlb. discriminate Hlb.
  - rewrite Hn, ?orb_true_r in Hlb. discriminate Hlb.
Qed.

End SynthFacts.

Import SynthFacts.

Lemma go_stop2_graph :
  exists d ns es,
    parseMermaid go_stop2_input = Return d /\
    convert_graph d = Some (ns, es) /\
    List.map id ns = ["Start"; "X"; "Y"; "Stop"] /\
    endpoints es = [("Start", "X"); ("X", "Y"); ("Y", "Stop")].
Proof.
  eexists _, _, _. split; [vm_compute; reflexivity|].
  split; [vm_compute; reflexivity|]. split; reflexivity.
Qed.

(** C1 as stated fails at its own example: on "X[Go] --> Y[Stop2]" a Stop
    node is synthesized as well. *)
Lemma go_stop2_gets_stop_node :
  exists d ns es,
    parseMermaid go_stop2_input = Return d /\
    convert_graph d = Some (ns, es) /\
    In "Stop" (List.map id ns) /\ In ("Y", "Stop") (endpoints es).
Proof.
  eexists _, _, _. split; [vm_compute; reflexivity|].
  split; [vm_compute; reflexivity|]. split; simpl; tauto.
Qed.

(** C1 (amended).  When no node has the id or the label Start, Stop or End
    in any letter case: if some node has no incoming edge, a Start stadium
    node is put first and wired to every node without incoming edge; if some
    node has no outgoing edge, a Stop node is put last and wired from every
    node without outgoing edge.  For the input "X[Go] --> Y[Stop2]" both
    fire: the nodes become Start, X, Y, Stop. *)
Theorem start_stop_synthesis :
  (forall nodes edges,
     (forall n, In n nodes -> names_terminal n = false) ->
     ((exists n, In n nodes /\ zero_in edges n) ->
        List.head (fst (synthesize nodes edges)) = Some startNode /\
        forall n, In n nodes -> zero_in edges n ->
                  In (start_edge n) (snd (synthesize nodes edges))) /\
     ((exists n, In n nodes /\ zero_out edges n) ->
        List.last (fst (synthesize nodes edges)) startNode = stopNode /\
        forall n, In n nodes -> zero_out edges n ->
                  In (stop_edge n) (snd (synthesize nodes edges)))) /\
  (exists d ns es,
     parseMermaid go_stop2_input = Return d /\
     convert_graph d = Some (ns, es) /\
     List.map id ns = ["Start"; "X"; "Y"; "Stop"] /\
     endpoints es = [("Start", "X"); ("X", "Y"); ("Y", "Stop")]).
Proof.
  split; [|exact go_stop2_graph].
  intros nodes edges Hfree. rewrite synthesize_shape. cbn [fst snd].
  rewrite (terminal_free_start nodes Hfree), (terminal_free_stop nodes Hfree).
  cbn [negb andb]. split.
  - intros (n0 & Hin0 & Hz0).
    assert (Hne : (0 <? length (List.filter (no_neighbours (inEdges nodes edges)) nodes)) = true).
    { apply Nat.ltb_lt.
      assert (Hf : In n0 (List.filter (no_neighbours (inEdges nodes edges)) nodes))
        by (apply List.filter_In; split; [exact Hin0 | now apply zero_in_spec]).
      destruct (List.filter _ nodes); [destruct Hf | simpl; lia]. }
    rewrite Hne. split; [reflexivity|].
    intros n Hin Hz. apply in_or_app. left. apply List.in_rev. rewrite List.rev_involutive.
    apply List.in_map. apply List.filter_In. split; [exact Hin | now apply zero_in_spec].
  - intros (n0 & Hin0 & Hz0).
    assert (Hne : (0 <? length (List.filter (no_neighbours (outEdges nodes edges)) nodes)) = true).
    { apply Nat.ltb_lt.
      assert (Hf : In n0 (List.filter (no_neighbours (outEdges nodes edges)) nodes))
        by (apply List.filter_In; split; [exact Hin0 | now apply zero_out_spec]).
      destruct (List.filter _ nodes); [destruct Hf | simpl; lia]. }
    rewrite Hne. split.
    + rewrite List.app_assoc. apply List.last_last.
    + intros n Hin Hz. apply in_or_app. right. apply in_or_app. right.
      apply List.in_map. apply List.filter_In. split; [exact Hin | now apply zero_out_spec].
Qed.

Lemma start_stop_synthesis_witness :
  List.head (fst (synthesize [x_node; y_node] xy_edges)) = Some startNode /\
  In (start_edge x_node) (snd (synthesize [x_node; y_node] xy_edges)) /\
  List.last (fst (synthesize [x_node; y_node] xy_edges)) startNode = stopNode /\
  In (stop_edge y_node) (snd (synthesize [x_node; y_node] xy_edges)).
Proof.
  assert (Hzi : zero_in xy_edges x_node) by (intros e [<-|[]]; discriminate).
  assert (Hzo : zero_out xy_edges y_node) by (intros e [<-|[]]; discriminate).
  destruct (proj1 start_stop_synthesis [x_node; y_node] xy_edges) as [Hs Ht].
  - intros n [<-|[<-|[]]]; reflexivity.
  - destruct Hs as [H1 H2]; [exists x_node; split; [now left | exact Hzi]|].
    destruct Ht as [H3 H4]; [exists y_node; split; [right; now left | exact Hzo]|].
    split; [exact H1|]. split; [apply H2; [now left | exact Hzi]|].
    split; [exact H3|]. apply H4; [right; now left | exact Hzo].
Defined.

(** ** Edge endpoints *)

Module ClosureFacts.

Section Keys.
Context {V : Type}.
Implicit Types (mp : list (string * V)).

Lemma keys_set k v mp j : In j (JsMap.keys (JsMap.set k v mp)) <-> j = k \/ In j (JsMap.keys mp).
Proof.
  unfold JsMap.keys. induction mp as [|[k' v'] mp IH]; cbn [JsMap.set List.map In fst].
  - split; [intros [<-|[]]; now left | intros [->|[]]; now left].
  - destruct (String.eqb_spec k' k) as [->|Hne]; cbn [List.map In fst].
    + intuition congruence.
    + rewrite IH. intuition congruence.
Qed.

Lemma has_keys k mp : JsMap.has k mp = true <-> In k (JsMap.keys mp).
Proof.
  unfold JsMap.has, JsMap.keys. induction mp as [|[k' v'] mp IH]; cbn [JsMap.get List.map In fst].
  - split; [discriminate | tauto].
  - destruct (String.eqb_spec k' k) as [->|Hne].
    + split; [now left | reflexivity].
    + rewrite IH. split; [now right | intros [?|?]; [congruence | assumption]].
Qed.

Lemma keyed_set ident k v mp :
  ident v = k -> JsMap.keyed ident mp -> JsMap.keyed ident (JsMap.set k v mp).
Proof.
  intros Hv. unfold JsMap.keyed. induction mp as [|[k' v'] mp IH]; intros H j w Hin;
    cbn [JsMap.set] in Hin.
  - destruct Hin as [[= <- <-]|[]]. exact Hv.
  - destruct (String.eqb k' k).
    + destruct Hin as [[= <- <-]|Hin]; [exact Hv | apply H; now right].
    + destruct Hin as [[= <- <-]|Hin]; [apply H; now left|].
      apply IH; [|exact Hin]. intros a b Hab. apply H. now right.
Qed.

Lemma keyed_values ident mp :
  JsMap.keyed ident mp -> List.map ident (JsMap.values mp) = JsMap.keys mp.
Proof.
  unfold JsMap.keyed, JsMap.values, JsMap.keys. induction mp as [|[k v] mp IH]; intros H; [reflexivity|].
  cbn [List.map fst snd]. rewrite (H k v) by now left. f_equal. apply IH.
  intros a b Hab. apply H. now right.
Qed.

Lemma keyed_get ident k v mp : JsMap.keyed ident mp -> JsMap.get k mp = Some v -> ident v = k.
Proof.
  unfold JsMap.keyed. induction mp as [|[k' v'] mp IH]; intros H Hg; cbn [JsMap.get] in Hg.
  - discriminate.
  - destruct (String.eqb_spec k' k) as [->|Hne].
    + injection Hg as <-. apply H. now left.
    + apply IH; [|exact Hg]. intros a b Hab. apply H. now right.
Qed.

End Keys.

(** *** Flowchart *)

Lemma parseConnection_ids line c :
  parseConnection line = Some c ->
  (forall n, c_sourceNode c = Some n -> id n = c_source c) /\
  (forall n, c_targetNode c = Some n -> id n = c_target c).
Proof.
  unfold parseConnection. destruct (exec connectionPattern line) as [mt|]; [|discriminate].
  destruct (exec inlineDefPattern _) as [im|]; intros [= <-];
    cbn [c_sourceNode c_targetNode c_source c_target]; split; intros n Hn;
    try discriminate Hn; try (injection Hn as <-; reflexivity);
    (destruct (truthy (group 2 mt)); [injection Hn as <-; reflexivity | discriminate Hn]).
Qed.

Lemma upsert_keys k inline nodes j :
  In j (JsMap.keys (upsert k inline nodes)) <-> j = k \/ In j (JsMap.keys nodes).
Proof.
  unfold upsert. destruct inline as [n|]; [apply keys_set|].
  destruct (JsMap.has k nodes) eqn:E; [|apply keys_set].
  apply has_keys in E. split; [tauto | intros [->|?]; assumption].
Qed.

Lemma upsert_keyed k inline nodes :
  (forall n, inline = Some n -> id n = k) -> JsMap.keyed id nodes -> JsMap.keyed id (upsert k inline nodes).
Proof.
  intros Hid Hk. unfold upsert. destruct inline as [n|].
  - apply keyed_set; [now apply Hid | exact Hk].
  - destruct (JsMap.has k nodes); [exact Hk | now apply keyed_set].
Qed.

Lemma flow_step_ok st raw : flow_ok st -> flow_ok (flow_step st raw).
Proof.
  intros [Hk He]. unfold flow_step.
  destruct (Str.is_empty (Str.trim raw) || Str.startsWith "%%" (Str.trim raw));
    [now split|].
  destruct (Str.startsWith "subgraph" (Str.trim raw)).
  { destruct (exec subgraphPattern _); now split. }
  destruct (String.eqb (Str.trim raw) "end").
  { destruct (fs_current st); now split. }
  destruct (parseConnection (Str.trim raw)) as [c|] eqn:Ec.
  - destruct (parseConnection_ids _ _ Ec) as [Hs Ht].
    split; cbn [fs_nodes fs_edges].
    + apply upsert_keyed; [exact Ht|]. apply upsert_keyed; [exact Hs | exact Hk].
    + intros e Hin. rewrite !upsert_keys. apply in_app_or in Hin as [Hin|[<-|[]]].
      * destruct (He e Hin). tauto.
      * cbn. tauto.
  - destruct (exec nodeDefPattern (Str.trim raw)) as [mt|]; [|now split].
    split; cbn [fs_nodes fs_edges].
    + apply keyed_set; [reflexivity | exact Hk].
    + intros e Hin. rewrite !keys_set. destruct (He e Hin). tauto.
Qed.

Lemma parseFlowchart_closed lines direction : edges_closed (parseFlowchart lines direction).
Proof.
  assert (H : flow_ok (flow_scan lines)).
  { unfold flow_scan. assert (H0 : flow_ok flow_init) by (split; [intros ? ? []|intros ? []]).
    revert H0. generalize flow_init. generalize (List.tl lines).
    induction l as [|raw rs IH]; intros st Hst; [exact Hst|].
    apply IH. now apply flow_step_ok. }
  destruct H as [Hk He]. intros s t Hin.
  unfold parseFlowchart, node_ids, edge_ends in *. cbn [body] in *.
  rewrite (keyed_values id _ Hk).
  apply List.in_map_iff in Hin as (e & [= <- <-] & Hin). now apply He.
Qed.

(** *** Entity-relationship diagrams *)

Lemma ensure_entity_keys name es j :
  In j (JsMap.keys (ensure_entity name es)) <-> j = name \/ In j (JsMap.keys es).
Proof.
  unfold ensure_entity. destruct (JsMap.has name es) eqn:E; [|apply keys_set].
  apply has_keys in E. split; [tauto | intros [->|?]; assumption].
Qed.

Lemma ensure_entity_keyed name es : JsMap.keyed ent_id es -> JsMap.keyed ent_id (ensure_entity name es).
Proof.
  intros H. unfold ensure_entity. destruct (JsMap.has name es); [exact H|].
  now apply keyed_set.
Qed.

Lemma push_attribute_keys name a es j :
  In j (JsMap.keys (push_attribute name a es)) <-> In j (JsMap.keys es).
Proof.
  unfold push_attribute. destruct (JsMap.get name es) as [e|] eqn:E; [|tauto].
  rewrite keys_set. split; [|tauto]. intros [->|H]; [|exact H].
  apply has_keys. unfold JsMap.has. now rewrite E.
Qed.

Lemma push_attribute_keyed name a es : JsMap.keyed ent_id es -> JsMap.keyed ent_id (push_attribute name a es).
Proof.
  intros H. unfold push_attribute. destruct (JsMap.get name es) as [e|] eqn:E; [|exact H].
  apply keyed_set; [|exact H]. cbn [ent_id]. exact (keyed_get ent_id name e es H E).
Qed.

Lemma er_rest_ok st line : er_ok st -> er_ok (er_rest st line).
Proof.
  intros [Hk Hr]. unfold er_rest.
  destruct (exec relPattern line) as [mt|].
  - split; cbn [er_entities er_relationships].
    + now do 2 apply ensure_entity_keyed.
    + intros r Hin. rewrite !ensure_entity_keys.
      apply in_app_or in Hin as [Hin|[<-|[]]]; [destruct (Hr r Hin); tauto | cbn; tauto].
  - destruct (exec singleLineAttrPattern line) as [mt|]; [|now split].
    split; cbn [er_entities er_relationships].
    + apply push_attribute_keyed. now apply ensure_entity_keyed.
    + intros r Hin. rewrite !push_attribute_keys, !ensure_entity_keys.
      destruct (Hr r Hin). tauto.
Qed.

Lemma er_step_ok st raw : er_ok st -> er_ok (er_step st raw).
Proof.
  intros Hok. pose proof Hok as [Hk Hr]. unfold er_step.
  destruct (Str.is_empty (Str.trim raw) || Str.startsWith "%%" (Str.trim raw));
    [exact Hok|].
  destruct (String.eqb (Str.trim raw) "}"); [now split|].
  destruct (exec entityBlockPattern (Str.trim raw)) as [mt|].
  - split; cbn [er_entities er_relationships].
    + now apply ensure_entity_keyed.
    + intros r Hin. rewrite !ensure_entity_keys. destruct (Hr r Hin). tauto.
  - destruct (er_inEntityBlock st); [|now apply er_rest_ok].
    destruct (er_currentEntity st) as [cur|]; [|now apply er_rest_ok].
    destruct (exec attrPattern (Str.trim raw)) as [mt|]; [|now apply er_rest_ok].
    split; cbn [er_entities er_relationships].
    + now apply push_attribute_keyed.
    + intros r Hin. rewrite !push_attribute_keys. now apply Hr.
Qed.

Lemma parseERDiagram_closed lines : edges_closed (parseERDiagram lines).
Proof.
  unfold parseERDiagram.
  set (st0 := {| er_entities := []; er_relationships := [];
                 er_currentEntity := None; er_inEntityBlock := false |}).
  assert (H : er_ok (List.fold_left er_step (List.tl lines) st0)).
  { assert (H0 : er_ok st0) by (split; [intros ? ? []|intros ? []]).
    revert H0. generalize st0. generalize (List.tl lines).
    induction l as [|raw rs IH]; intros st Hst; [exact Hst|].
    apply IH. now apply er_step_ok. }
  destruct H as [Hk Hr]. intros s t Hin.
  unfold node_ids, edge_ends in *. cbn [body] in *.
  rewrite (keyed_values ent_id _ Hk).
  apply List.in_map_iff in Hin as (r & [= <- <-] & Hin). now apply Hr.
Qed.

(** *** Mindmaps *)

Lemma mind_step_ok st line : mind_ok st -> mind_ok (mind_step st line).
Proof.
  intros Hok. pose proof Hok as [Hs He]. unfold mind_step.
  destruct (Str.is_empty (Str.trim line)); [exact Hok|].
  destruct (mind_shape (Str.trim line)) as [lbl shp].
  set (level := _ / 2). set (node := Build_MindNode _ _ _ _ _ _ _).
  assert (Hstack : forall lv p, <[level := node]> (ms_nodeStack st) !! lv = Some p ->
                                In (mn_id p) (List.map mn_id (ms_nodes st ++ [node]))).
  { intros lv p Hp. rewrite List.map_app. apply in_or_app.
    destruct (decide (level = lv)) as [->|Hne].
    - rewrite lookup_insert_eq in Hp. injection Hp as <-. right. now left.
    - rewrite lookup_insert_ne in Hp by exact Hne. left. eapply Hs, Hp. }
  assert (Hold : forall e, In e (ms_edges st) ->
                   In (e_source e) (List.map mn_id (ms_nodes st ++ [node])) /\
                   In (e_target e) (List.map mn_id (ms_nodes st ++ [node]))).
  { intros e Hin. rewrite List.map_app. destruct (He e Hin).
    split; apply in_or_app; now left. }
  split; cbn [ms_nodes ms_edges ms_nodeStack]; [exact Hstack|].
  destruct level as [|parentLevel] eqn:El; [exact Hold|].
  destruct (<[S parentLevel := node]> (ms_nodeStack st) !! parentLevel) as [parent|] eqn:Ep;
    [|exact Hold].
  intros e Hin. apply in_app_or in Hin as [Hin|[<-|[]]]; [now apply Hold|].
  cbn [e_source e_target]. split.
  - eapply Hstack, Ep.
  - rewrite List.map_app. apply in_or_app. right. now left.
Qed.

Lemma parseMindmap_closed lines : edges_closed (parseMindmap lines).
Proof.
  unfold parseMindmap.
  set (st0 := {| ms_nodes := []; ms_edges := []; ms_nodeStack := ∅; ms_nodeId := 0 |}).
  assert (H : mind_ok (List.fold_left mind_step (List.tl lines) st0)).
  { assert (H0 : mind_ok st0).
    { split; [|intros ? []]. intros lv p Hp.
      change (ms_nodeStack st0) with (∅ : gmap nat MindNode) in Hp.
      rewrite lookup_empty in Hp. discriminate Hp. }
    revert H0. generalize st0. generalize (List.tl lines).
    induction l as [|raw rs IH]; intros st Hst; [exact Hst|].
    apply IH. now apply mind_step_ok. }
  destruct H as [_ He]. intros s t Hin.
  unfold node_ids, edge_ends in *. cbn [body] in *.
  apply List.in_map_iff in Hin as (e & [= <- <-] & Hin). now apply He.
Qed.

End ClosureFacts.
Import ClosureFacts.

(** C2.  The flowchart, entity-relationship and mindmap scanners return
    diagrams whose every edge joins two of the returned nodes; the sequence
    scanner does not create a participant for an undeclared name, so the
    message "Alice->>Bob: Hello" yields the edge Alice to Bob and no node. *)
Theorem sequence_edges_dangle :
  (forall lines direction, edges_closed (parseFlowchart lines direction)) /\
  (forall lines, edges_closed (parseERDiagram lines)) /\
  (forall lines, edges_closed (parseMindmap lines)) /\
  (exists d, parseMermaid undeclared_participants_input = Return d /\
             type d = "sequence" /\
             node_ids d = [] /\
             edge_ends d = [("Alice", "Bob")] /\
             ~ edges_closed d).
Proof.
  split; [exact parseFlowchart_closed|]. split; [exact parseERDiagram_closed|].
  split; [exact parseMindmap_closed|].
  eexists. split; [vm_compute; reflexivity|]. repeat split.
  intros H. destruct (H "Alice" "Bob") as [[] _]. now left.
Qed.


(** * Further properties

    Properties of the scanners, the validator and the converters beyond the
    ones above, each read off the code. *)

(** ** Identifiers assigned by the scanners *)

Module ScanFacts.

Lemma fold_left_inv {S X} (P : S -> Prop) (step : S -> X -> S) l :
  (forall st x, P st -> P (step st x)) -> forall st, P st -> P (List.fold_left step l st).
Proof.
  intros Hstep. induction l as [|x l IH]; intros st Hst; [exact Hst|].
  apply IH, Hstep, Hst.
Qed.

Lemma of_nat_inj a b : Str.of_nat a = Str.of_nat b -> a = b.
Proof.
  unfold Str.of_nat. intros H. apply Unsigned.to_uint_inj.
  assert (Hs : Some (Nat.to_uint a) = Some (Nat.to_uint b))
    by (rewrite <- !NilEmpty.usu; now rewrite H).
  now inversion Hs.
Qed.

Lemma append_inj_r p a b : p +:+ a = p +:+ b -> a = b.
Proof. induction p as [|c p IH]; simpl; [tauto|]. intros [= H]. now apply IH. Qed.

Lemma numbered_S prefix n :
  numbered prefix (S n) = numbered prefix n ++ [prefix +:+ Str.of_nat (n + 1)].
Proof.
  unfold numbered. rewrite List.seq_S, List.map_app. cbn [List.map].
  now rewrite (Nat.add_comm 1 n).
Qed.

Lemma length_numbered prefix n : length (numbered prefix n) = n.
Proof. unfold numbered. now rewrite List.length_map, List.length_seq. Qed.

Lemma NoDup_map_seq (f : nat -> string) start n :
  (forall a b, f a = f b -> a = b) -> NoDup (List.map f (List.seq start n)).
Proof.
  intros Hinj. revert start. induction n as [|n IH]; intros start; cbn; constructor.
  - intros Hin. apply list_elem_of_In, List.in_map_iff in Hin as (j & Hj & Hin).
    apply Hinj in Hj. subst j. apply List.in_seq in Hin. lia.
  - apply IH.
Qed.

Lemma numbered_NoDup prefix n : NoDup (numbered prefix n).
Proof.
  apply NoDup_map_seq. intros a b H. now apply of_nat_inj, (append_inj_r prefix).
Qed.

Section Keys.
Context {V : Type}.
Implicit Types (mp : list (string * V)).

Lemma keys_set_NoDup k v mp : NoDup (JsMap.keys mp) -> NoDup (JsMap.keys (JsMap.set k v mp)).
Proof.
  unfold JsMap.keys. induction mp as [|[k' v'] mp IH]; cbn [JsMap.set List.map fst]; intros H.
  - apply NoDup_singleton.
  - apply NoDup_cons in H as [Hnin Hnd].
    destruct (String.eqb_spec k' k) as [->|Hne]; cbn [List.map fst].
    + now apply NoDup_cons.
    + apply NoDup_cons. split; [|now apply IH].
      intros Hin. apply list_elem_of_In, (keys_set k v mp k') in Hin as [Heq|Hin];
        [congruence | now apply Hnin, list_elem_of_In].
Qed.

End Keys.

Lemma upsert_NoDup k inline nodes :
  NoDup (JsMap.keys nodes) -> NoDup (JsMap.keys (upsert k inline nodes)).
Proof.
  intros H. unfold upsert. destruct inline; [now apply keys_set_NoDup|].
  destruct (JsMap.has k nodes); [exact H | now apply keys_set_NoDup].
Qed.

Lemma ensure_entity_NoDup name es :
  NoDup (JsMap.keys es) -> NoDup (JsMap.keys (ensure_entity name es)).
Proof.
  intros H. unfold ensure_entity. destruct (JsMap.has name es); [exact H|].
  now apply keys_set_NoDup.
Qed.

Lemma push_attribute_NoDup name a es :
  NoDup (JsMap.keys es) -> NoDup (JsMap.keys (push_attribute name a es)).
Proof.
  intros H. unfold push_attribute. destruct (JsMap.get name es); [|exact H].
  now apply keys_set_NoDup.
Qed.

(** *** Flowchart *)

Lemma flow_step_NoDup st raw :
  NoDup (JsMap.keys (fs_nodes st)) -> NoDup (JsMap.keys (fs_nodes (flow_step st raw))).
Proof.
  intros H. unfold flow_step.
  destruct (Str.is_empty (Str.trim raw) || Str.startsWith "%%" (Str.trim raw)); [exact H|].
  destruct (Str.startsWith "subgraph" (Str.trim raw)).
  { destruct (exec subgraphPattern _); exact H. }
  destruct (String.eqb (Str.trim raw) "end").
  { destruct (fs_current st); exact H. }
  destruct (parseConnection (Str.trim raw)) as [c|].
  - cbn [fs_nodes]. now do 2 apply upsert_NoDup.
  - destruct (exec nodeDefPattern (Str.trim raw)); [|exact H].
    cbn [fs_nodes]. now apply keys_set_NoDup.
Qed.

Lemma flow_scan_ok lines : flow_ok (flow_scan lines).
Proof.
  unfold flow_scan. apply fold_left_inv; [intros; now apply flow_step_ok|].
  split; [intros ? ? [] | intros ? []].
Qed.

Lemma parseFlowchart_distinct lines direction :
  NoDup (node_ids (parseFlowchart lines direction)).
Proof.
  unfold parseFlowchart, node_ids. cbn [body].
  rewrite (keyed_values id _ (proj1 (flow_scan_ok lines))).
  unfold flow_scan. apply fold_left_inv; [intros; now apply flow_step_NoDup | constructor].
Qed.

Lemma flow_step_edge_ids st raw :
  List.map e_id (fs_edges st) = numbered "e" (length (fs_edges st)) ->
  List.map e_id (fs_edges (flow_step st raw)) =
  numbered "e" (length (fs_edges (flow_step st raw))).
Proof.
  intros H. unfold flow_step.
  destruct (Str.is_empty (Str.trim raw) || Str.startsWith "%%" (Str.trim raw)); [exact H|].
  destruct (Str.startsWith "subgraph" (Str.trim raw)).
  { destruct (exec subgraphPattern _); exact H. }
  destruct (String.eqb (Str.trim raw) "end").
  { destruct (fs_current st); exact H. }
  destruct (parseConnection (Str.trim raw)) as [c|].
  - cbn [fs_edges]. rewrite List.map_app, List.length_app, H. cbn [List.map length e_id].
    rewrite Nat.add_1_r at 2. now rewrite numbered_S.
  - destruct (exec nodeDefPattern (Str.trim raw)); exact H.
Qed.

Lemma parseFlowchart_edge_ids lines direction :
  edge_ids (parseFlowchart lines direction) =
  numbered "e" (length (edge_ids (parseFlowchart lines direction))).
Proof.
  unfold parseFlowchart, edge_ids. cbn [body]. rewrite List.length_map.
  unfold flow_scan. apply fold_left_inv; [intros; now apply flow_step_edge_ids | reflexivity].
Qed.

(** *** Sequence diagrams *)

Lemma message_edges_ids ms : forall i,
  List.map e_id (message_edges i ms) =
  List.map (fun j => "e" +:+ Str.of_nat j) (List.seq (i + 1) (length ms)).
Proof.
  induction ms as [|m0 ms IH]; intros i; [reflexivity|].
  cbn [message_edges List.map length List.seq e_id]. f_equal.
  rewrite IH. reflexivity.
Qed.

Lemma parseSequenceDiagram_edge_ids lines :
  edge_ids (parseSequenceDiagram lines) =
  numbered "e" (length (edge_ids (parseSequenceDiagram lines))).
Proof.
  unfold parseSequenceDiagram, edge_ids. cbn [body].
  rewrite message_edges_ids, List.length_map, List.length_seq. reflexivity.
Qed.

(** *** Entity-relationship diagrams *)

Lemma er_rest_numbered st line : er_numbered st -> er_numbered (er_rest st line).
Proof.
  intros [Hk Hr]. unfold er_rest.
  destruct (exec relPattern line) as [mt|].
  - split; cbn [er_entities er_relationships].
    + now do 2 apply ensure_entity_NoDup.
    + rewrite List.map_app, List.length_app, Hr. cbn [List.map length r_id].
      rewrite Nat.add_1_r at 2. now rewrite numbered_S.
  - destruct (exec singleLineAttrPattern line) as [mt|]; [|now split].
    split; cbn [er_entities er_relationships]; [|exact Hr].
    now apply push_attribute_NoDup, ensure_entity_NoDup.
Qed.

Lemma er_step_numbered st raw : er_numbered st -> er_numbered (er_step st raw).
Proof.
  intros Hok. pose proof Hok as [Hk Hr]. unfold er_step.
  destruct (Str.is_empty (Str.trim raw) || Str.startsWith "%%" (Str.trim raw));
    [exact Hok|].
  destruct (String.eqb (Str.trim raw) "}"); [now split|].
  destruct (exec entityBlockPattern (Str.trim raw)) as [mt|].
  - split; cbn [er_entities er_relationships]; [now apply ensure_entity_NoDup | exact Hr].
  - destruct (er_inEntityBlock st); [|now apply er_rest_numbered].
    destruct (er_currentEntity st) as [cur|]; [|now apply er_rest_numbered].
    destruct (exec attrPattern (Str.trim raw)) as [mt|]; [|now apply er_rest_numbered].
    split; cbn [er_entities er_relationships]; [now apply push_attribute_NoDup | exact Hr].
Qed.

Lemma er_scan_ok lines st0 :
  er_ok st0 -> er_ok (List.fold_left er_step lines st0).
Proof. apply fold_left_inv. intros; now apply er_step_ok. Qed.

Lemma parseERDiagram_numbered lines :
  NoDup (node_ids (parseERDiagram lines)) /\
  edge_ids (parseERDiagram lines) = numbered "r" (length (edge_ids (parseERDiagram lines))).
Proof.
  unfold parseERDiagram, node_ids, edge_ids. cbn [body]. rewrite List.length_map.
  set (st0 := {| er_entities := []; er_relationships := [];
                 er_currentEntity := None; er_inEntityBlock := false |}).
  assert (H0 : er_ok st0) by (split; [intros ? ? []|intros ? []]).
  rewrite (keyed_values ent_id _ (proj1 (er_scan_ok (List.tl lines) st0 H0))).
  apply (fold_left_inv er_numbered); [intros; now apply er_step_numbered|].
  split; [constructor | reflexivity].
Qed.

(** *** Mindmaps *)

Lemma mind_ids_S n : mind_ids (S n) = mind_ids n ++ ["node" +:+ Str.of_nat n].
Proof. unfold mind_ids. now rewrite List.seq_S, List.map_app. Qed.

Lemma mind_ids_NoDup n : NoDup (mind_ids n).
Proof.
  apply NoDup_map_seq. intros a b H. now apply of_nat_inj, (append_inj_r "node").
Qed.

Lemma mind_step_numbered st line : mind_numbered st -> mind_numbered (mind_step st line).
Proof.
  intros Hok. pose proof Hok as [Hn He]. unfold mind_step.
  destruct (Str.is_empty (Str.trim line)); [exact Hok|].
  destruct (mind_shape (Str.trim line)) as [lbl shp].
  set (level := _ / 2). set (node := Build_MindNode _ _ _ _ _ _ _).
  split; cbn [ms_nodes ms_edges ms_nodeId].
  - rewrite List.map_app, Hn, mind_ids_S. reflexivity.
  - destruct level as [|parentLevel]; [exact He|].
    destruct (_ !! parentLevel) as [parent|]; [|exact He].
    rewrite List.map_app, List.length_app, He. cbn [List.map length e_id].
    rewrite Nat.add_1_r at 2. now rewrite numbered_S.
Qed.

Lemma mind_step_count st line :
  ms_nodeId (mind_step st line) =
  ms_nodeId st + (if Str.nonblank line then 1 else 0).
Proof.
  unfold mind_step, Str.nonblank.
  destruct (Str.is_empty (Str.trim line)); cbn [negb]; [lia|].
  destruct (mind_shape (Str.trim line)). cbn [ms_nodeId]. lia.
Qed.

Lemma mind_scan_count lines : forall st,
  ms_nodeId (List.fold_left mind_step lines st) =
  ms_nodeId st + length (List.filter Str.nonblank lines).
Proof.
  induction lines as [|l ls IH]; intros st; cbn [List.fold_left List.filter]; [cbn; lia|].
  rewrite IH, mind_step_count. destruct (Str.nonblank l); cbn [length]; lia.
Qed.

Lemma parseMindmap_numbered lines :
  node_ids (parseMindmap lines) = mind_ids (length (List.filter Str.nonblank (List.tl lines))) /\
  edge_ids (parseMindmap lines) = numbered "e" (length (edge_ids (parseMindmap lines))).
Proof.
  unfold parseMindmap, node_ids, edge_ids. cbn [body]. rewrite List.length_map.
  set (st0 := {| ms_nodes := []; ms_edges := []; ms_nodeStack := ∅; ms_nodeId := 0 |}).
  assert (H : mind_numbered (List.fold_left mind_step (List.tl lines) st0)).
  { apply (fold_left_inv mind_numbered); [intros; now apply mind_step_numbered|].
    split; reflexivity. }
  destruct H as [Hn He]. split; [|exact He].
  rewrite Hn, mind_scan_count. reflexivity.
Qed.

(** *** The dispatch of [parseMermaid] *)

Lemma parseMermaid_cases input d :
  parseMermaid input = Return d ->
  exists lines,
    (exists direction, d = parseFlowchart lines direction) \/
    d = parseSequenceDiagram lines \/ d = parseERDiagram lines \/ d = parseMindmap lines.
Proof.
  unfold parseMermaid.
  destruct (List.filter Str.nonblank (Str.split_lines (parser_code input))) as [|l ls];
    [discriminate|].
  destruct (String.eqb _ "flowchart"); [intros [= <-]; eauto 6|].
  destruct (String.eqb _ "sequence"); [intros [= <-]; eauto 6|].
  destruct (String.eqb _ "erDiagram"); [intros [= <-]; eauto 6|].
  destruct (String.eqb _ "mindmap"); intros [= <-]; eauto 6.
Qed.

End ScanFacts.

Import ScanFacts.

(** X1.  Apart from sequence diagrams, the nodes [parseMermaid] returns have
    pairwise distinct ids: a flowchart node or an entity mentioned on several
    lines is listed once, and every mindmap line gets an id of its own. *)
Theorem node_ids_distinct (input : string) (d : Diagram) :
  parseMermaid input = Return d ->
  type d <> "sequence" ->
  NoDup (node_ids d).
Proof.
  intros Hd Hty. apply parseMermaid_cases in Hd as (lines & [(dir & ->)|[->|[->| ->]]]).
  - apply parseFlowchart_distinct.
  - now destruct Hty.
  - apply parseERDiagram_numbered.
  - rewrite (proj1 (parseMindmap_numbered lines)). apply mind_ids_NoDup.
Qed.

Lemma node_ids_distinct_witness :
  exists d, parseMermaid sample_clean = Return d /\ NoDup (node_ids d).
Proof.
  eassert (Hp : parseMermaid sample_clean = Return _) by (vm_compute; reflexivity).
  eexists. split; [exact Hp|].
  apply (node_ids_distinct sample_clean _ Hp). discriminate.
Defined.

(** A participant declared twice is listed twice. *)
Example participant_listed_twice :
  exists d, parseMermaid twice_declared_input = Return d /\ node_ids d = ["A"; "A"].
Proof. eexists. split; vm_compute; reflexivity. Qed.

(** X2.  Every scanner numbers its edges in the order of the lines that
    create them: the ids are e1, e2, ... (r1, r2, ... for the relationships of
    an entity-relationship diagram) without a gap, hence pairwise distinct. *)
Theorem edge_ids_numbered (input : string) (d : Diagram) :
  parseMermaid input = Return d ->
  edge_ids d = numbered (edge_prefix d) (length (edge_ids d)) /\ NoDup (edge_ids d).
Proof.
  intros Hd.
  assert (H : edge_ids d = numbered (edge_prefix d) (length (edge_ids d))).
  { apply parseMermaid_cases in Hd as (lines & [(dir & ->)|[->|[->| ->]]]).
    - apply parseFlowchart_edge_ids.
    - apply parseSequenceDiagram_edge_ids.
    - apply parseERDiagram_numbered.
    - apply parseMindmap_numbered. }
  split; [exact H|]. rewrite H. apply numbered_NoDup.
Qed.

Lemma edge_ids_numbered_witness :
  exists d, parseMermaid sample_clean = Return d /\ edge_ids d = ["e1"; "e2"].
Proof.
  eassert (Hp : parseMermaid sample_clean = Return _) by (vm_compute; reflexivity).
  eexists. split; [exact Hp|].
  exact (proj1 (edge_ids_numbered sample_clean _ Hp)).
Defined.

(** X3.  A mindmap has exactly one node for each non-blank line after its
    first line, and their ids are node0, node1, ... in line order. *)
Theorem mindmap_nodes_numbered (lines : list string) :
  node_ids (parseMindmap lines) =
  mind_ids (length (List.filter Str.nonblank (List.tl lines))).
Proof. apply parseMindmap_numbered. Qed.

(** ** What a match captures *)

Module CaptureFacts.

Ltac inv_seq H st1 H1 H2 :=
  inversion H as [| |? ? ? st1 ? H1 H2| | | | | | | |]; subst; clear H.

Ltac inv_grp H st1 H1 :=
  inversion H as [| | | | | | |? ? ? st1 H1| | |]; subst; clear H.

(** A run only adds captures, and only of its own groups. *)
Lemma steps_caps r st st' :
  steps r st st' ->
  exists ext, caps st' = ext ++ caps st /\ forall i v, In (i, v) ext -> In i (groups r).
Proof.
  induction 1 as [st|p pv c s cs Hp|r1 r2 st st1 st2 _ IH1 _ IH2|r1 r2 st st' _ IH
                 |r1 r2 st st' _ IH|g r st|g r st st1 st2 _ IH1 _ IH2|i r st st' _ IH
                 |st Hp|st Hr|st Hx]; cbn [groups caps];
    try (exists []; split; [reflexivity | intros ? ? []]).
  - destruct IH1 as (e1 & E1 & H1). destruct IH2 as (e2 & E2 & H2).
    exists (e2 ++ e1). split; [now rewrite E2, E1, List.app_assoc|].
    intros i v Hin. apply in_or_app. apply in_app_or in Hin as [Hin|Hin]; eauto.
  - destruct IH as (e & E & He). exists e. split; [exact E|].
    intros i v Hin. apply in_or_app. eauto.
  - destruct IH as (e & E & He). exists e. split; [exact E|].
    intros i v Hin. apply in_or_app. eauto.
  - destruct IH1 as (e1 & E1 & H1). destruct IH2 as (e2 & E2 & H2).
    exists (e2 ++ e1). split; [now rewrite E2, E1, List.app_assoc|].
    intros i v Hin. apply in_app_or in Hin as [Hin|Hin]; eauto.
  - destruct IH as (e & E & He). exists ((i, consumed st st') :: e).
    split; [now rewrite E|].
    intros j v [[= <- <-]|Hin]; [now left | right; eauto].
Qed.

Lemma get_cap_ext i ext cs :
  (forall v, ~ In (i, v) ext) -> get_cap i (ext ++ cs) = get_cap i cs.
Proof.
  induction ext as [|[j v] ext IH]; intros H; [reflexivity|].
  cbn [List.app get_cap]. destruct (Nat.eqb_spec i j) as [->|Hne].
  - destruct (H v). now left.
  - apply IH. intros w Hin. apply (H w). now right.
Qed.

(** The captures of the groups that a later part of the pattern does not
    hold survive that part. *)
Lemma get_cap_later r st st' i :
  steps r st st' -> ~ In i (groups r) -> get_cap i (caps st') = get_cap i (caps st).
Proof.
  intros Hs Hi. apply steps_caps in Hs as (ext & -> & Hext).
  apply get_cap_ext. intros v Hin. apply Hi. eauto.
Qed.

(** A run consumes a prefix of the remaining text. *)
Lemma steps_rest r st st' : steps r st st' -> exists w, rest st = w +:+ rest st'.
Proof.
  induction 1 as [st|p pv c s cs Hp|r1 r2 st st1 st2 _ IH1 _ IH2|r1 r2 st st' _ IH
                 |r1 r2 st st' _ IH|g r st|g r st st1 st2 _ IH1 _ IH2|i r st st' _ IH
                 |st Hp|st Hr|st Hx]; cbn [rest];
    try (exists ""; reflexivity); try exact IH.
  - exists (String c ""). reflexivity.
  - destruct IH1 as (w1 & E1). destruct IH2 as (w2 & E2).
    exists (w1 +:+ w2). now rewrite E1, E2, app_assoc.
  - destruct IH1 as (w1 & E1). destruct IH2 as (w2 & E2).
    exists (w1 +:+ w2). now rewrite E1, E2, app_assoc.
Qed.

Lemma consumed_app w st st' : rest st = w +:+ rest st' -> consumed st st' = w.
Proof. intros H. unfold consumed. rewrite H. apply take_app_len. Qed.

Lemma steps_alts r0 rs : forall st st',
  steps (alts r0 rs) st st' -> exists r, In r (r0 :: rs) /\ steps r st st'.
Proof.
  revert r0. induction rs as [|r1 rs IH]; intros r0 st st' H; cbn [alts] in H.
  - exists r0. split; [now left | exact H].
  - inversion H as [| | |? ? ? ? H1|? ? ? ? H1| | | | | |]; subst.
    + exists r0. split; [now left | exact H1].
    + apply IH in H1 as (r & Hin & Hr). exists r. split; [now right | exact Hr].
Qed.

(** A group over alternative literals captures one of them. *)
Lemma steps_grp_lits i s0 ss st st' :
  steps (Grp i (alts (lit s0) (List.map lit ss))) st st' ->
  exists s, In s (s0 :: ss) /\ caps st' = (i, s) :: caps st.
Proof.
  intros H. inv_grp H st1 H1. cbn [caps].
  apply steps_alts in H1 as (r & Hin & Hr).
  change (lit s0 :: List.map lit ss) with (List.map lit (s0 :: ss)) in Hin.
  apply List.in_map_iff in Hin as (s & <- & Hin).
  exists s. split; [exact Hin|].
  rewrite (steps_lit_caps s _ _ Hr), (consumed_app s) by now apply steps_lit_rest.
  reflexivity.
Qed.

(** A group over a non-empty run of one character class captures an
    identifier of that class. *)
Lemma steps_grp_plus i g p st st' :
  steps (Grp i (Plus g (Chr p))) st st' ->
  exists w, caps st' = (i, w) :: caps st /\ w <> "" /\ Str.all p w = true /\
            rest st = w +:+ rest st'.
Proof.
  intros H. inv_grp H st1 H1. cbn [caps rest]. unfold Plus in H1.
  inv_seq H1 st2 Hc Hrun.
  apply steps_class_run in Hrun as (w & Hw & Hall & Hcaps).
  inversion Hc as [|? pv c s cs Hp| | | | | | | | |]; subst; clear Hc.
  cbn [rest caps] in *. subst s. exists (String c w). rewrite Hcaps.
  split; [|split; [discriminate|split; [|reflexivity]]].
  - f_equal. f_equal. now apply consumed_app.
  - cbn [Str.all]. now rewrite Hp.
Qed.

Lemma all_app p a b : Str.all p (a +:+ b) = Str.all p a && Str.all p b.
Proof.
  induction a as [|c a IH]; cbn [String.append Str.all]; [reflexivity|].
  now rewrite IH, andb_assoc.
Qed.

End CaptureFacts.

Import CaptureFacts.

(** ** Arrow tokens *)

Lemma connection_arrow_capture line mt :
  exec connectionPattern line = Some mt ->
  exists tok, In tok connection_arrows /\ group 3 mt = Some tok.
Proof.
  intros Hex. apply exec_at_sound in Hex as (a & b & p' & _ & _ & Hs).
  unfold group. destruct mt as [idx fin]. cbn [final] in *.
  unfold connectionPattern in Hs. cbn [seqs] in Hs.
  inv_seq Hs st1 Hbol Hs1. inv_seq Hs1 st2 Hg1 Hs2. inv_seq Hs2 st3 Hg2 Hs3.
  inv_seq Hs3 st4 Hws Hs4. inv_seq Hs4 st5 Hg3 Hs5.
  rewrite (get_cap_later _ _ _ 3 Hs5) by (cbn; intuition discriminate).
  apply (steps_grp_lits 3 "-->" ["---"; "-.->"; "-.-"; "==>"]) in Hg3 as (tok & Hin & ->).
  exists tok. split; [exact Hin|]. cbn [get_cap Nat.eqb]. reflexivity.
Qed.

(** X4.  The arrow type of a parsed connection is the row of [arrowTypes]
    under the connection's own arrow token, one of the five plain tokens; the
    two rows for labelled arrows are never selected, so [hasLabel] is false
    even for a connection that carries a label. *)
Theorem connection_arrow_row (line : string) (c : Connection) :
  parseConnection line = Some c ->
  (exists tok, In tok connection_arrows /\
               JsMap.get tok arrowTypes = Some (c_arrowType c)) /\
  hasLabel (c_arrowType c) = false.
Proof.
  unfold parseConnection. destruct (exec connectionPattern line) as [mt|] eqn:Hex;
    [|discriminate].
  destruct (connection_arrow_capture line mt Hex) as (tok & Hin & Hg).
  unfold group_text. rewrite Hg.
  destruct (exec inlineDefPattern _); intros [= <-]; cbn [c_arrowType];
    (split; [exists tok; split; [exact Hin|] |]);
    cbn in Hin; intuition (subst; reflexivity).
Qed.

Lemma connection_arrow_row_witness :
  exists c, parseConnection "A -->|yes| B" = Some c /\ c_label c = "yes" /\
            hasLabel (c_arrowType c) = false.
Proof.
  eassert (Hp : parseConnection "A -->|yes| B" = Some _) by (vm_compute; reflexivity).
  eexists. split; [exact Hp|]. split; [reflexivity|].
  exact (proj2 (connection_arrow_row "A -->|yes| B" _ Hp)).
Defined.

(** ** Directions *)

Module DirectionFacts.

Lemma ci_upper c x :
  In c ["t"; "d"; "b"; "l"; "r"]%char ->
  Ascii.eqb (Char.lower x) (Char.lower c) && Char.in_range 0 127 x = true ->
  Char.upper x = Char.upper c.
Proof.
  intros Hin.
  repeat (destruct Hin as [<-|Hin];
          [destruct x as [[] [] [] [] [] [] [] []]; vm_compute;
           intros H; try discriminate H; reflexivity|]).
  destruct Hin.
Qed.

Lemma steps_ci s : forall st st',
  Str.all (fun c => bool_decide (In c ["t"; "d"; "b"; "l"; "r"]%char)) s = true ->
  steps (ci s) st st' ->
  exists w, rest st = w +:+ rest st' /\ caps st' = caps st /\
            Str.toUpperCase w = Str.toUpperCase s.
Proof.
  induction s as [|c s IH]; intros st st' Hall H; cbn in H.
  - inversion H; subst. exists "". repeat split.
  - cbn [Str.all] in Hall. apply andb_prop in Hall as [Hc Hall].
    apply bool_decide_eq_true in Hc.
    inv_seq H st1 H1 H2. inversion H1; subst; clear H1.
    apply (IH _ _ Hall) in H2 as (w & Hw & Hcaps & Hup). cbn [rest caps] in *.
    exists (String c0 w). rewrite Hw, Hcaps. split; [reflexivity|]. split; [reflexivity|].
    unfold Str.toUpperCase in *. cbn [Str.map]. rewrite Hup. f_equal.
    now apply ci_upper.
Qed.

Lemma direction_capture line mt :
  exec directionPattern line = Some mt ->
  exists t, In t directions /\ option_map Str.toUpperCase (group 1 mt) = Some t.
Proof.
  intros Hex. apply exec_at_sound in Hex as (a & b & p' & _ & _ & Hs).
  unfold group. destruct mt as [idx fin]. cbn [final] in *.
  unfold directionPattern in Hs. cbn [seqs] in Hs.
  inv_seq Hs st1 Hb1 Hs1. inv_seq Hs1 st2 Hg Hb2.
  inversion Hb2; subst; clear Hb2. inversion Hb1; subst; clear Hb1.
  inv_grp Hg st3 Ha. cbn [caps get_cap Nat.eqb option_map].
  apply (steps_alts (ci "td") [ci "tb"; ci "bt"; ci "lr"; ci "rl"]) in Ha
    as (r & Hin & Hr).
  assert (Hw : exists s, In s ["td"; "tb"; "bt"; "lr"; "rl"] /\ r = ci s).
  { destruct Hin as [<-|[<-|[<-|[<-|[<-|[]]]]]];
      [exists "td"|exists "tb"|exists "bt"|exists "lr"|exists "rl"];
      (split; [cbn; tauto | reflexivity]). }
  destruct Hw as (s & Hs & ->).
  apply steps_ci in Hr as (w & Hw & _ & Hup).
  - rewrite (consumed_app w) by exact Hw. rewrite Hup.
    exists (Str.toUpperCase s). split; [|reflexivity].
    cbn in Hs. intuition (subst; cbn; tauto).
  - cbn in Hs. intuition (subst; reflexivity).
Qed.

Lemma detect_direction lines :
  (d_type (detectDiagramType lines) = "flowchart" /\
   exists t, In t directions /\ d_direction (detectDiagramType lines) = Some t) \/
  (d_type (detectDiagramType lines) <> "flowchart" /\
   d_direction (detectDiagramType lines) = None).
Proof.
  unfold detectDiagramType.
  destruct (Str.startsWith "flowchart" _ || Str.startsWith "graph" _).
  - left. split; [reflexivity|]. cbn [d_direction].
    destruct (exec directionPattern _) as [mt|] eqn:Hex.
    + apply direction_capture in Hex as (t & Hin & ->).
      exists t. split; [exact Hin|].
      cbn in Hin. intuition (subst; reflexivity).
    + exists "TD". split; [cbn; tauto | reflexivity].
  - right.
    repeat (match goal with |- context [if ?b then _ else _] => destruct b end;
            try (split; [discriminate | reflexivity])).
Qed.

End DirectionFacts.

Import DirectionFacts.

(** X5.  The direction of every flowchart [parseMermaid] returns is one of
    TD, TB, BT, LR and RL (TD when the declaration names none), so the
    Markdown overview always spells the layout out in words. *)
Theorem flowchart_direction (input : string) (d : Diagram) :
  parseMermaid input = Return d ->
  type d = "flowchart" ->
  exists t, In t directions /\ direction_of d = Some t /\
            In (Markdown.getDirectionDescription t) direction_phrases.
Proof.
  unfold parseMermaid.
  destruct (List.filter Str.nonblank (Str.split_lines (parser_code input))) as [|l ls];
    [discriminate|].
  assert (Hphrase : forall t, In t directions ->
            In (Markdown.getDirectionDescription t) direction_phrases).
  { intros t Hin. cbn in Hin. intuition (subst; cbn; tauto). }
  destruct (detect_direction (l :: ls)) as [(Hty & t & Hin & Hdir)|(Hty & Hdir)].
  - rewrite Hty, Hdir. cbn [String.eqb Ascii.eqb Bool.eqb]. intros [= <-] _.
    exists t. split; [exact Hin|]. split; [reflexivity | now apply Hphrase].
  - rewrite Hdir. destruct (String.eqb_spec (d_type (detectDiagramType (l :: ls))) "flowchart");
      [contradiction|].
    destruct (String.eqb _ "sequence"); [intros [= <-]; discriminate|].
    destruct (String.eqb _ "erDiagram"); [intros [= <-]; discriminate|].
    destruct (String.eqb _ "mindmap"); [intros [= <-]; discriminate|].
    intros [= <-] _. exists "TD". split; [cbn; tauto|]. split; [reflexivity|].
    apply Hphrase. cbn; tauto.
Qed.

Lemma flowchart_direction_witness :
  exists d t, parseMermaid sample_clean = Return d /\ direction_of d = Some t /\
              In t directions.
Proof.
  eassert (Hp : parseMermaid sample_clean = Return _) by (vm_compute; reflexivity).
  destruct (flowchart_direction sample_clean _ Hp eq_refl) as (t & Hin & Ht & _).
  eexists _, t. split; [exact Hp|]. split; [exact Ht | exact Hin].
Defined.

(** ** Connection lines between bare identifiers *)

Module ForwardFacts.

Section Forward.
Context {A : Type}.
Implicit Types (k : mstate -> option A).

Lemma m_alt r1 r2 k st :
  m (Alt r1 r2) k st = match m r1 k st with Some x => Some x | None => m r2 k st end.
Proof. reflexivity. Qed.

Lemma m_opt_skip r k st x : m r k st = None -> k st = Some x -> m (Opt r) k st = Some x.
Proof. intros Hr Hk. unfold Opt. rewrite m_alt, Hr. exact Hk. Qed.

Lemma m_lit_miss s : forall k st, Str.startsWith s (rest st) = false -> m (lit s) k st = None.
Proof.
  induction s as [|c s IH]; intros k [pv t cs]; cbn [rest Str.startsWith lit]; [discriminate|].
  intros H. rewrite m_seq. destruct t as [|a t]; [reflexivity|].
  rewrite m_chr. unfold Char.only. destruct (Ascii.eqb c a); [|reflexivity].
  apply IH. exact H.
Qed.

(** A group over a greedy non-empty class run takes the whole run when the
    continuation accepts the state after it. *)
Lemma m_grp_plus i p k pv w r cs x :
  w <> "" -> Str.all p w = true ->
  match r with EmptyString => True | String c _ => p c = false end ->
  k (MState (last_or pv w) r ((i, w) :: cs)) = Some x ->
  m (Grp i (Plus true (Chr p))) k (MState pv (w +:+ r) cs) = Some x.
Proof.
  intros Hne Hall Hr Hk. destruct w as [|c w]; [congruence|].
  cbn [Str.all] in Hall. apply andb_prop in Hall as [Hc Hall].
  rewrite m_grp. unfold Plus. rewrite m_seq. cbn [String.append]. rewrite m_chr, Hc.
  apply m_star_class_greedy; [exact Hall | exact Hr |].
  unfold consumed. cbn [rest prev caps].
  change (String c (w +:+ r)) with (String c w +:+ r).
  rewrite (take_app_len (String c w) r). exact Hk.
Qed.

Lemma m_grp_plus_end i p k pv w cs x :
  w <> "" -> Str.all p w = true ->
  k (MState (last_or pv w) "" ((i, w) :: cs)) = Some x ->
  m (Grp i (Plus true (Chr p))) k (MState pv w cs) = Some x.
Proof.
  intros Hne Hall Hk. rewrite <- (app_empty_r w) at 1.
  now apply m_grp_plus.
Qed.

(** Alternative literals: the first one that the text starts with is taken
    when the continuation accepts the state after it. *)
Lemma m_alts_lits tok k pv r cs x : forall before s0 ss after,
  s0 :: ss = before ++ tok :: after ->
  (forall s, In s before -> Str.startsWith s (tok +:+ r) = false) ->
  k (MState (last_or pv tok) r cs) = Some x ->
  m (alts (lit s0) (List.map lit ss)) k (MState pv (tok +:+ r) cs) = Some x.
Proof.
  induction before as [|s before IH]; intros s0 ss after Heq Hmiss Hk.
  - injection Heq as -> ->. destruct after as [|s1 after]; cbn [List.map alts].
    + rewrite m_lit. exact Hk.
    + rewrite m_alt, m_lit, Hk. reflexivity.
  - injection Heq as -> ->. destruct before as [|s1 before]; cbn [List.app List.map alts].
    + rewrite m_alt, m_lit_miss by (apply Hmiss; now left).
      apply (IH tok after after); [reflexivity | intros ? [] | exact Hk].
    + rewrite m_alt, m_lit_miss by (apply Hmiss; now left).
      apply (IH s1 (before ++ tok :: after) after); [reflexivity | | exact Hk].
      intros s' Hin. apply Hmiss. now right.
Qed.

End Forward.

Lemma word_is_dot c : Char.is_word c = true -> Char.is_dot c = true.
Proof. destruct c as [[] [] [] [] [] [] [] []]; vm_compute; congruence. Qed.

Lemma word_not_space c : Char.is_word c = true -> Char.is_space c = false.
Proof. destruct c as [[] [] [] [] [] [] [] []]; vm_compute; congruence. Qed.

Lemma word_not_opener c : Char.is_word c = true -> Char.one_of openers c = false.
Proof. destruct c as [[] [] [] [] [] [] [] []]; vm_compute; congruence. Qed.

Lemma all_weaken (p q : ascii -> bool) s :
  (forall c, p c = true -> q c = true) -> Str.all p s = true -> Str.all q s = true.
Proof.
  intros Hpq. induction s as [|c s IH]; cbn [Str.all]; [reflexivity|].
  intros H. apply andb_prop in H as [Hc Hs]. now rewrite (Hpq c Hc), IH.
Qed.

Lemma trim_identifier s : Str.all Char.is_word s = true -> Str.trim s = s.
Proof.
  intros Hall. unfold Str.trim.
  assert (Hs : Str.trimStart s = s).
  { destruct s as [|c s]; [reflexivity|]. cbn [Str.all] in Hall.
    apply andb_prop in Hall as [Hc _]. cbn [Str.trimStart].
    now rewrite (word_not_space c Hc). }
  rewrite Hs. clear Hs. induction s as [|c s IH]; [reflexivity|].
  cbn [Str.all] in Hall. apply andb_prop in Hall as [Hc Hall].
  cbn [Str.trimEnd]. rewrite (IH Hall), (word_not_space c Hc). reflexivity.
Qed.

(** An identifier is no inline node definition. *)
Lemma inlineDef_identifier s :
  Str.all Char.is_word s = true -> exec inlineDefPattern s = None.
Proof.
  intros Hall. unfold inlineDefPattern. cbn [seqs]. rewrite exec_anchored.
  destruct (m _ Some _) as [st'|] eqn:E; [|reflexivity]. exfalso.
  apply m_sound in E as (st2 & Hs & _).
  inv_seq Hs st1 Hg1 Hs1. inv_seq Hs1 st3 Hg2 Heol.
  apply steps_grp_plus in Hg1 as (w & _ & _ & _ & Hw). cbn [rest] in Hw.
  inv_grp Hg2 st4 Hb. inv_seq Hb st5 Hop Hb1.
  inversion Hop as [|? pv c t cs Hc| | | | | | | | |]; subst; clear Hop.
  cbn [rest] in Hall. rewrite all_app in Hall. apply andb_prop in Hall as [_ Hall].
  cbn [Str.all] in Hall. apply andb_prop in Hall as [Hwc _].
  pose proof (word_not_opener c Hwc) as Hno.
  change (Char.one_of openers c = true) in Hc. congruence.
Qed.

Lemma bare_connection_exec a tok b :
  identifier a -> identifier b -> In tok connection_arrows ->
  exists st, exec connectionPattern (a +:+ " " +:+ tok +:+ " " +:+ b) = Some (MResult 0 st) /\
             caps st = [(6, b); (3, tok); (1, a)].
Proof.
  intros [Hna Ha] [Hnb Hb] Htok.
  unfold connectionPattern. cbn [seqs]. rewrite exec_anchored.
  assert (Hm : exists st,
            m (Seq (Grp 1 (Plus true (Chr Char.is_word)))
                 (Seq (Opt (Grp 2 (Seq (Chr (Char.one_of openers))
                                     (Seq (Star false (Chr Char.is_dot))
                                        (Chr (Char.one_of closers))))))
                    (Seq (Star true (Chr Char.is_space))
                       (Seq (Grp 3 (alts (lit "-->")
                                      (List.map lit ["---"; "-.->"; "-.-"; "==>"])))
                          (Seq (Opt (Grp 4 (Seq (lit "|")
                                              (Seq (Grp 5 (Star true (Chr (Char.except "|"))))
                                                 (lit "|")))))
                             (Seq (Star true (Chr Char.is_space))
                                (Seq (Grp 6 (Plus true (Chr Char.is_dot))) Eol)))))))
              Some (MState None (a +:+ " " +:+ tok +:+ " " +:+ b) []) = Some st /\
            caps st = [(6, b); (3, tok); (1, a)]).
  { eexists. split.
    - rewrite m_seq. apply m_grp_plus; [exact Hna | exact Ha | reflexivity |].
      rewrite m_seq. apply m_opt_skip.
      { rewrite m_grp, m_seq. reflexivity. }
      rewrite m_seq. apply (m_star_class_greedy _ _ " ").
      { reflexivity. }
      { cbn in Htok. intuition (subst; reflexivity). }
      rewrite m_seq, m_grp.
      assert (Hsplit : exists before after,
                "-->" :: ["---"; "-.->"; "-.-"; "==>"] = before ++ tok :: after /\
                forall s, In s before -> Str.startsWith s (tok +:+ " " +:+ b) = false).
      { cbn in Htok. destruct Htok as [<-|[<-|[<-|[<-|[<-|[]]]]]].
        - exists [], ["---"; "-.->"; "-.-"; "==>"]. split; [reflexivity | intros ? []].
        - exists ["-->"], ["-.->"; "-.-"; "==>"]. split; [reflexivity|].
          intros s [<-|[]]. reflexivity.
        - exists ["-->"; "---"], ["-.-"; "==>"]. split; [reflexivity|].
          intros s [<-|[<-|[]]]; reflexivity.
        - exists ["-->"; "---"; "-.->"], ["==>"]. split; [reflexivity|].
          intros s [<-|[<-|[<-|[]]]]; reflexivity.
        - exists ["-->"; "---"; "-.->"; "-.-"], []. split; [reflexivity|].
          intros s [<-|[<-|[<-|[<-|[]]]]]; reflexivity. }
      destruct Hsplit as (before & after & Hsplit & Hmiss).
      apply (m_alts_lits tok _ _ _ _ _ before "-->" ["---"; "-.->"; "-.-"; "==>"] after
               Hsplit Hmiss).
      unfold consumed. cbn [rest prev caps]. rewrite (take_app_len tok (" " +:+ b)).
      rewrite m_seq. apply m_opt_skip.
      { rewrite m_grp, m_seq. apply m_lit_miss. reflexivity. }
      rewrite m_seq. apply (m_star_class_greedy _ _ " ").
      { reflexivity. }
      { destruct b as [|b0 b']; [exact I|]. cbn [Str.all] in Hb.
        apply andb_prop in Hb as [Hb0 _]. now apply word_not_space. }
      rewrite m_seq. apply m_grp_plus_end; [exact Hnb | |].
      { apply (all_weaken Char.is_word); [exact word_is_dot | exact Hb]. }
      rewrite m_eol_nil. reflexivity.
    - reflexivity. }
  destruct Hm as (st & Hm & Hcaps). exists st. split; [|exact Hcaps].
  etransitivity;
    [|exact (f_equal (fun o => match o with
                               | Some st' => Some (MResult 0 st')
                               | None => None
                               end) Hm)].
  reflexivity.
Qed.

End ForwardFacts.

Import ForwardFacts.

(** X6.  A line made of an identifier, one space, one of the five arrow
    tokens, one space and an identifier parses to the connection between
    the two identifiers, without label and without inline node: the printed
    form of a bare edge reads back as that edge. *)
Theorem bare_connection_parsed (a tok b : string) :
  identifier a -> identifier b -> In tok connection_arrows ->
  parseConnection (a +:+ " " +:+ tok +:+ " " +:+ b) = Some (bare_connection a tok b).
Proof.
  intros Ha Hb Htok.
  destruct (bare_connection_exec a tok b Ha Hb Htok) as (st & Hex & Hcaps).
  unfold parseConnection. rewrite Hex. unfold group_text, group. cbn [final].
  rewrite Hcaps. cbn [get_cap Nat.eqb truthy].
  rewrite (inlineDef_identifier b (proj2 Hb)), (trim_identifier b (proj2 Hb)).
  reflexivity.
Qed.

Lemma bare_connection_parsed_witness :
  parseConnection "Load -.-> Store" = Some (bare_connection "Load" "-.->" "Store").
Proof.
  apply (bare_connection_parsed "Load" "-.->" "Store");
    [split; [discriminate | reflexivity] | split; [discriminate | reflexivity] |].
  simpl. tauto.
Defined.

(** ** Subgraphs *)

Module SubgraphFacts.

Lemma in_push_unique x y l : In x (push_unique y l) <-> x = y \/ In x l.
Proof.
  unfold push_unique, includes_id. destruct (List.existsb (String.eqb y) l) eqn:E.
  - split; [tauto|]. intros [->|H]; [|exact H].
    apply List.existsb_exists in E as (z & Hz & Heq). apply String.eqb_eq in Heq. now subst z.
  - rewrite List.in_app_iff. cbn. intuition congruence.
Qed.

Lemma flow_step_members st raw : members_ok st -> members_ok (flow_step st raw).
Proof.
  intros Hok. pose proof Hok as [Hs Hc]. unfold flow_step.
  destruct (Str.is_empty (Str.trim raw) || Str.startsWith "%%" (Str.trim raw)); [exact Hok|].
  destruct (Str.startsWith "subgraph" (Str.trim raw)).
  { destruct (exec subgraphPattern _); [|exact Hok].
    split; cbn [fs_subgraphs fs_current fs_nodes]; [exact Hs|].
    intros sg x [= <-] []. }
  destruct (String.eqb (Str.trim raw) "end").
  { destruct (fs_current st) as [sg0|] eqn:Ecur; [|exact Hok].
    split; cbn [fs_subgraphs fs_current fs_nodes]; [|discriminate].
    intros sg x Hin Hx. apply in_app_or in Hin as [Hin|[<-|[]]]; eauto. }
  destruct (parseConnection (Str.trim raw)) as [c|].
  - split; cbn [fs_subgraphs fs_current fs_nodes].
    + intros sg x Hin Hx. rewrite !upsert_keys. eauto.
    + destruct (fs_current st) as [sg0|] eqn:Ecur; [|discriminate].
      intros sg x [= <-] Hx. cbn [sg_nodes] in Hx.
      rewrite !in_push_unique in Hx. rewrite !upsert_keys.
      destruct Hx as [->|[->|Hx]]; eauto.
  - destruct (exec nodeDefPattern (Str.trim raw)) as [mt|]; [|exact Hok].
    split; cbn [fs_subgraphs fs_current fs_nodes].
    + intros sg x Hin Hx. rewrite keys_set. eauto.
    + destruct (fs_current st) as [sg0|] eqn:Ecur; [|discriminate].
      intros sg x [= <-] Hx. cbn [sg_nodes] in Hx. rewrite keys_set.
      apply in_app_or in Hx as [Hx|[<-|[]]]; eauto.
Qed.

Lemma flow_step_counted lines st raw :
  counted lines st -> counted (lines ++ [raw]) (flow_step st raw).
Proof.
  unfold counted, flow_step, closes_subgraph, opens_subgraph.
  rewrite !List.filter_app, !List.length_app. cbn [List.filter]. intros [Hc Ho].
  destruct (Str.is_empty (Str.trim raw) || Str.startsWith "%%" (Str.trim raw)).
  { destruct (String.eqb (Str.trim raw) "end");
      destruct (Str.startsWith "subgraph" (Str.trim raw)); cbn [length]; lia. }
  destruct (Str.startsWith "subgraph" (Str.trim raw)).
  { destruct (String.eqb (Str.trim raw) "end"); destruct (exec subgraphPattern _);
      cbn [fs_subgraphs fs_current length]; destruct (fs_current st); lia. }
  destruct (String.eqb (Str.trim raw) "end").
  { destruct (fs_current st) eqn:Ecur; cbn [fs_subgraphs fs_current];
      rewrite ?List.length_app, ?Ecur; cbn [length]; lia. }
  cbn [length]. destruct (parseConnection (Str.trim raw)) as [c|].
  - cbn [fs_subgraphs fs_current]. destruct (fs_current st); lia.
  - destruct (exec nodeDefPattern (Str.trim raw)); cbn [fs_subgraphs fs_current];
      destruct (fs_current st); lia.
Qed.

Lemma flow_scan_counted lines : forall seen st,
  counted seen st -> counted (seen ++ lines) (List.fold_left flow_step lines st).
Proof.
  induction lines as [|l ls IH]; intros seen st H; cbn [List.fold_left].
  - now rewrite List.app_nil_r.
  - replace (seen ++ l :: ls) with ((seen ++ [l]) ++ ls) by now rewrite <- List.app_assoc.
    apply IH. now apply flow_step_counted.
Qed.

End SubgraphFacts.

Import SubgraphFacts.

(** X7.  Every member of a subgraph of a parsed flowchart is the id of one of
    the returned nodes. *)
Theorem subgraph_members_are_nodes (input : string) (d : Diagram) (sg : Subgraph) (x : string) :
  parseMermaid input = Return d ->
  In sg (subgraphs_of d) -> In x (sg_nodes sg) ->
  In x (node_ids d).
Proof.
  intros Hd. apply parseMermaid_cases in Hd as (lines & [(dir & ->)|[->|[->| ->]]]);
    try (intros []).
  unfold parseFlowchart, subgraphs_of, node_ids. cbn [body].
  rewrite (keyed_values id _ (proj1 (flow_scan_ok lines))).
  assert (H : members_ok (flow_scan lines)).
  { unfold flow_scan. apply fold_left_inv; [intros; now apply flow_step_members|].
    split; [intros ? ? [] | discriminate]. }
  apply (proj1 H).
Qed.

Lemma subgraph_members_are_nodes_witness :
  exists d, parseMermaid sample_subgraph = Return d /\
            List.map sg_nodes (subgraphs_of d) = [["A"; "B"]] /\
            In "B" (node_ids d).
Proof.
  eassert (Hp : parseMermaid sample_subgraph = Return _) by (vm_compute; reflexivity).
  eexists. split; [exact Hp|]. split; [reflexivity|].
  eapply (subgraph_members_are_nodes sample_subgraph _ _ "B" Hp);
    [left; reflexivity | right; left; reflexivity].
Defined.

(** X8.  A flowchart reports a subgraph only once it is closed: there are at
    most as many subgraphs as lines that read "end", and at most as many as
    lines that start with "subgraph".  A subgraph still open at the end of
    the text is dropped. *)
Theorem subgraphs_need_end (lines : list string) (direction : option string) :
  length (subgraphs_of (parseFlowchart lines direction))
    <= Nat.min (length (List.filter closes_subgraph (List.tl lines)))
               (length (List.filter opens_subgraph (List.tl lines))).
Proof.
  unfold parseFlowchart, subgraphs_of, flow_scan. cbn [body].
  destruct (flow_scan_counted (List.tl lines) [] flow_init) as [Hc Ho].
  { split; cbn; lia. }
  cbn [List.app] in *. destruct (fs_current _); lia.
Qed.

(** ** The shape of a mindmap *)

Module MindFacts.

Lemma parent_child_more ns n e : parent_child ns e -> parent_child (ns ++ [n]) e.
Proof.
  intros (p & c & Hp & Hc & H). exists p, c.
  repeat split; try apply in_or_app; tauto.
Qed.

Lemma fresh_id n : ~ In ("node" +:+ Str.of_nat n) (mind_ids n).
Proof.
  unfold mind_ids. intros Hin. apply List.in_map_iff in Hin as (j & Hj & Hin).
  apply (append_inj_r "node"), of_nat_inj in Hj. subst j.
  apply List.in_seq in Hin. lia.
Qed.

Lemma mind_ids_mono n x : In x (mind_ids n) -> In x (mind_ids (S n)).
Proof. rewrite mind_ids_S. intros H. apply in_or_app. now left. Qed.

Lemma mind_step_forest st line : forest st -> forest (mind_step st line).
Proof.
  intros Hok. pose proof Hok as (Hs & He & Ht & Hd). unfold mind_step.
  destruct (Str.is_empty (Str.trim line)); [exact Hok|].
  destruct (mind_shape (Str.trim line)) as [lbl shp].
  set (level := _ / 2). set (node := Build_MindNode _ _ _ _ _ _ _).
  assert (Hstack : forall lv p, <[level := node]> (ms_nodeStack st) !! lv = Some p ->
                                In p (ms_nodes st ++ [node]) /\ mn_level p = lv).
  { intros lv p Hp. destruct (decide (level = lv)) as [<-|Hne].
    - rewrite lookup_insert_eq in Hp. injection Hp as <-.
      split; [apply in_or_app; right; now left | reflexivity].
    - rewrite lookup_insert_ne in Hp by exact Hne. destruct (Hs lv p Hp).
      split; [apply in_or_app; now left | assumption]. }
  assert (Hold : forall e, In e (ms_edges st) -> parent_child (ms_nodes st ++ [node]) e)
    by (intros e Hin; now apply parent_child_more, He).
  assert (Hmono : forall e, In e (ms_edges st) -> In (e_target e) (mind_ids (S (ms_nodeId st))))
    by (intros e Hin; now apply mind_ids_mono, Ht).
  split; [exact Hstack|]. cbn [ms_nodes ms_edges ms_nodeStack ms_nodeId].
  destruct level as [|parentLevel] eqn:El; [now repeat split|].
  destruct (<[S parentLevel := node]> (ms_nodeStack st) !! parentLevel) as [parent|] eqn:Ep;
    [|now repeat split].
  destruct (Hstack parentLevel parent Ep) as [Hpin Hplv].
  split; [|split].
  - intros e Hin. apply in_app_or in Hin as [Hin|[<-|[]]]; [now apply Hold|].
    exists parent, node. cbn [e_source e_target].
    repeat split; [exact Hpin | apply in_or_app; right; now left | now rewrite Hplv].
  - intros e Hin. apply in_app_or in Hin as [Hin|[<-|[]]]; [now apply Hmono|].
    cbn [e_target]. rewrite mind_ids_S. apply in_or_app. right. now left.
  - rewrite List.map_app. cbn [List.map e_target mn_id].
    apply NoDup_app. split; [exact Hd|]. split; [|apply NoDup_singleton].
    intros x Hx Hx'. apply list_elem_of_In in Hx, Hx'. destruct Hx' as [<-|[]].
    apply List.in_map_iff in Hx as (e & Hte & Hin).
    apply (fresh_id (ms_nodeId st)).
    change ("node" +:+ Str.of_nat (ms_nodeId st)) with (mn_id node).
    rewrite <- Hte. now apply Ht.
Qed.

Lemma parseMindmap_forest lines :
  (forall e, In e (mind_edges (parseMindmap lines)) ->
             parent_child (mind_nodes (parseMindmap lines)) e) /\
  NoDup (List.map e_target (mind_edges (parseMindmap lines))).
Proof.
  unfold parseMindmap, mind_edges, mind_nodes. cbn [body].
  set (st0 := {| ms_nodes := []; ms_edges := []; ms_nodeStack := ∅; ms_nodeId := 0 |}).
  assert (H : forest (List.fold_left mind_step (List.tl lines) st0)).
  { apply (fold_left_inv forest); [intros; now apply mind_step_forest|].
    split; [|split; [intros ? []|split; [intros ? []|constructor]]].
    intros lv p Hp. change (ms_nodeStack st0) with (∅ : gmap nat MindNode) in Hp.
    rewrite lookup_empty in Hp. discriminate Hp. }
  destruct H as (_ & He & _ & Hd). split; assumption.
Qed.

End MindFacts.

Import MindFacts.

(** X9.  The edges of a mindmap form a forest by indentation: every edge
    joins a node to a node exactly one level deeper, and no node is the
    target of two edges. *)
Theorem mindmap_is_forest (lines : list string) (e : Edge) :
  In e (mind_edges (parseMindmap lines)) ->
  parent_child (mind_nodes (parseMindmap lines)) e /\
  NoDup (List.map e_target (mind_edges (parseMindmap lines))).
Proof.
  intros Hin. split; [now apply parseMindmap_forest | apply parseMindmap_forest].
Qed.

Lemma mindmap_is_forest_witness :
  List.map (fun e => (e_source e, e_target e)) (mind_edges (parseMindmap sample_mindmap)) =
    [("node0", "node1"); ("node1", "node2"); ("node0", "node3")] /\
  NoDup (List.map e_target (mind_edges (parseMindmap sample_mindmap))).
Proof.
  split; [vm_compute; reflexivity|].
  eapply (mindmap_is_forest sample_mindmap). vm_compute. left. reflexivity.
Defined.

(** ** Cardinalities *)

Lemma relationship_capture line mt :
  exec relPattern line = Some mt ->
  (exists c1, In c1 ("" :: cardinality_tokens) /\ group 2 mt = Some c1) /\
  (exists c2, In c2 ("" :: cardinality_tokens) /\ group 3 mt = Some c2).
Proof.
  intros Hex. apply exec_at_sound in Hex as (a & b & p' & _ & _ & Hs).
  unfold group. destruct mt as [idx fin]. cbn [final] in *.
  unfold relPattern in Hs. cbn [seqs] in Hs.
  inv_seq Hs st1 Hg1 Hs1. inv_seq Hs1 st2 Hw1 Hs2. inv_seq Hs2 st3 Hg2 Hs3.
  inv_seq Hs3 st4 Hw2 Hs4. inv_seq Hs4 st5 Hdash Hs5. inv_seq Hs5 st6 Hw3 Hs6.
  inv_seq Hs6 st7 Hg3 Hs7.
  apply (steps_grp_lits 2 "||" ["|o"; "o|"; "o{"; "{o"; "}|"; "|{"; "{"; ""]) in Hg2
    as (c1 & Hin1 & Hc1).
  apply (steps_grp_lits 3 "||" ["|o"; "o|"; "{o"; "o{"; "|{"; "}|"; ""; "{"]) in Hg3
    as (c2 & Hin2 & Hc2).
  split.
  - exists c1. split; [cbn in Hin1 |- *; tauto|].
    rewrite (get_cap_later _ _ _ 2 Hs7) by (cbn; intuition discriminate).
    rewrite Hc2. cbn [get_cap Nat.eqb].
    rewrite (get_cap_later _ _ _ 2 Hw3) by (cbn; tauto).
    rewrite (get_cap_later _ _ _ 2 Hdash) by (cbn; tauto).
    rewrite (get_cap_later _ _ _ 2 Hw2) by (cbn; tauto).
    rewrite Hc1. cbn [get_cap Nat.eqb]. reflexivity.
  - exists c2. split; [cbn in Hin2 |- *; tauto|].
    rewrite (get_cap_later _ _ _ 3 Hs7) by (cbn; intuition discriminate).
    rewrite Hc2. cbn [get_cap Nat.eqb]. reflexivity.
Qed.

Lemma or_default_token c :
  In c ("" :: cardinality_tokens) -> In (or_default c "||") cardinality_tokens.
Proof. cbn. intuition (subst; cbn; tauto). Qed.

Lemma er_rest_cardinalities st line : cardinalities_ok st -> cardinalities_ok (er_rest st line).
Proof.
  intros Hok. unfold er_rest. destruct (exec relPattern line) as [mt|] eqn:Hex.
  - destruct (relationship_capture line mt Hex) as [(c1 & Hin1 & Hc1) (c2 & Hin2 & Hc2)].
    intros r Hin. cbn [er_relationships] in Hin.
    apply in_app_or in Hin as [Hin|[<-|[]]]; [now apply Hok|].
    cbn [r_cardinality1 r_cardinality2]. unfold group_text. rewrite Hc1, Hc2.
    split; now apply or_default_token.
  - destruct (exec singleLineAttrPattern line); exact Hok.
Qed.

Lemma er_step_cardinalities st raw : cardinalities_ok st -> cardinalities_ok (er_step st raw).
Proof.
  intros Hok. unfold er_step.
  destruct (Str.is_empty (Str.trim raw) || Str.startsWith "%%" (Str.trim raw)); [exact Hok|].
  destruct (String.eqb (Str.trim raw) "}"); [exact Hok|].
  destruct (exec entityBlockPattern (Str.trim raw)); [exact Hok|].
  destruct (er_inEntityBlock st); [|now apply er_rest_cardinalities].
  destruct (er_currentEntity st); [|now apply er_rest_cardinalities].
  destruct (exec attrPattern (Str.trim raw)); [exact Hok | now apply er_rest_cardinalities].
Qed.

(** X10.  Both cardinalities of every parsed relationship are one of the
    eight tokens of the relationship pattern, never the empty string: a side
    written without a token gets the default "||". *)
Theorem cardinalities_are_tokens (input : string) (d : Diagram) (r : Relationship) :
  parseMermaid input = Return d ->
  In r (relationships_of d) ->
  In (r_cardinality1 r) cardinality_tokens /\ In (r_cardinality2 r) cardinality_tokens.
Proof.
  intros Hd. apply parseMermaid_cases in Hd as (lines & [(dir & ->)|[->|[->| ->]]]);
    try (intros []).
  unfold parseERDiagram, relationships_of. cbn [body].
  apply (fold_left_inv cardinalities_ok); [intros; now apply er_step_cardinalities|].
  intros ? [].
Qed.

Lemma cardinalities_are_tokens_witness :
  exists d r, parseMermaid sample_er = Return d /\ relationships_of d = [r] /\
              r_cardinality1 r = "||" /\ In (r_cardinality2 r) cardinality_tokens.
Proof.
  eassert (Hp : parseMermaid sample_er = Return _) by (vm_compute; reflexivity).
  eexists _, _. split; [exact Hp|]. split; [reflexivity|]. split; [reflexivity|].
  eapply (cardinalities_are_tokens sample_er _ _ Hp). left. reflexivity.
Defined.

(** ** Findings of the validator *)

Module FindingFacts.

Lemma check_line_lines i raw f :
  In f (fst (check_line i raw) ++ snd (check_line i raw)) -> f_line f = i + 1.
Proof.
  rewrite check_line_issues, check_line_warnings. intros Hin.
  apply in_app_or in Hin as [Hin|Hin].
  - destruct (1 <? _); [|destruct Hin]. destruct Hin as [<-|[]]. reflexivity.
  - destruct (_ || _); [|destruct Hin]. destruct Hin as [<-|[]]. reflexivity.
Qed.

Lemma check_lines_lines lines : forall i f,
  In f (fst (check_lines i lines) ++ snd (check_lines i lines)) ->
  i < f_line f <= i + length lines.
Proof.
  induction lines as [|l ls IH]; intros i f Hin; [destruct Hin|].
  rewrite check_lines_cons in Hin. cbn [fst snd length] in *.
  assert (Hcases : In f (fst (check_line i l) ++ snd (check_line i l)) \/
                   In f (fst (check_lines (S i) ls) ++ snd (check_lines (S i) ls))).
  { rewrite !List.in_app_iff in *. tauto. }
  destruct Hcases as [H|H].
  - apply check_line_lines in H. lia.
  - apply IH in H. lia.
Qed.

Lemma check_lines_styling lines : forall i l,
  In l lines -> styling_line l = true ->
  exists f, In f (snd (check_lines i lines)) /\ f_issue f = "Styling directive found".
Proof.
  induction lines as [|a ls IH]; intros i l Hin Hl; [destruct Hin|].
  rewrite check_lines_cons. cbn [snd]. destruct Hin as [->|Hin].
  - rewrite check_line_warnings. unfold styling_line in Hl. rewrite Hl.
    eexists. split; [left; reflexivity | reflexivity].
  - destruct (IH (S i) l Hin Hl) as (f & Hf & Hi). exists f.
    split; [apply in_or_app; now right | exact Hi].
Qed.

End FindingFacts.

Import FindingFacts.

(** X11.  Every finding of the validator, issue or warning, carries a line
    number between 1 and the number of lines of the text it scans. *)
Theorem finding_lines_in_range (input : string) (f : Finding) :
  In f (findings (validateMermaid input)) ->
  1 <= f_line f <= length (scanned_lines input).
Proof.
  unfold findings, validateMermaid, scanned_lines.
  pose proof (check_lines_lines (Str.split_lines (validator_code input)) 0 f) as Hl.
  destruct (check_lines 0 _) as [is2 ws2]. cbn [issues warnings fst snd] in *.
  assert (Hne : 1 <= length (Str.split_lines (validator_code input))).
  { destruct (Str.split_lines _) eqn:E; [now apply split_lines_nonempty in E | cbn; lia]. }
  intros Hin. rewrite !List.in_app_iff in Hin. rewrite List.in_app_iff in Hl.
  destruct Hin as [[Hin|Hin]|[Hin|Hin]].
  - destruct (negb _); [|destruct Hin]. destruct Hin as [<-|[]]. cbn. lia.
  - specialize (Hl (or_introl Hin)). lia.
  - destruct (_ || _); [|destruct Hin]. destruct (negb _); [|destruct Hin].
    destruct Hin as [<-|[]]. cbn. lia.
  - specialize (Hl (or_intror Hin)). lia.
Qed.

Lemma finding_lines_in_range_witness :
  List.map f_line (findings (validateMermaid sample_chained)) = [2] /\
  length (scanned_lines sample_chained) = 2.
Proof.
  split; [vm_compute; reflexivity|].
  assert (H : In (chained_finding 1) (findings (validateMermaid sample_chained)))
    by (vm_compute; left; reflexivity).
  apply finding_lines_in_range in H. cbn [chained_finding f_line] in H.
  vm_compute. vm_compute in H. lia.
Defined.

(** X12.  A styling directive ([classDef] or [style]) on any scanned line
    gives a warning, never an issue by itself: the compatibility is then
    "medium" when there is no issue, and never "high". *)
Theorem styling_caps_compatibility (input l : string) :
  In l (scanned_lines input) -> styling_line l = true ->
  (exists f, In f (warnings (validateMermaid input)) /\
             f_issue f = "Styling directive found") /\
  compatibility (validateMermaid input) <> "high" /\
  (issues (validateMermaid input) = [] ->
   isValid (validateMermaid input) = true /\
   compatibility (validateMermaid input) = "medium").
Proof.
  unfold scanned_lines, validateMermaid. intros Hin Hl.
  destruct (check_lines_styling _ 0 l Hin Hl) as (f & Hf & Hi).
  destruct (check_lines 0 _) as [is2 ws2]. cbn [snd] in Hf.
  cbn [issues warnings isValid compatibility].
  match goal with
  | |- context [?dw ++ ws2] =>
      assert (Hw : In f (dw ++ ws2)) by (apply in_or_app; now right);
      split; [exists f; split; [exact Hw | exact Hi]|];
      destruct (dw ++ ws2) as [|w ws]; [destruct Hw|]
  end.
  split.
  - destruct (_ ++ is2); cbn; discriminate.
  - intros ->. split; reflexivity.
Qed.

Lemma styling_caps_compatibility_witness :
  compatibility (validateMermaid sample_styled) = "medium".
Proof.
  apply (styling_caps_compatibility sample_styled "style A fill:#f9f").
  - vm_compute. tauto.
  - reflexivity.
  - vm_compute. reflexivity.
Defined.

(** ** The tagged fence *)

Module TaggedFenceFacts.

Lemma mermaid_fenced_trim body : Str.trim (mermaid_fenced body) = mermaid_fenced body.
Proof.
  unfold Str.trim.
  change (Str.trimStart (mermaid_fenced body)) with (mermaid_fenced body).
  change (mermaid_fenced body)
    with (("```mermaid" +:+ String Char.LF body) +:+ String Char.LF backticks).
  apply trimEnd_app_keep; [reflexivity | discriminate].
Qed.

Lemma unwrap_mermaid_fenced body :
  remove_first fenceClosePattern
    (remove_first (fenceOpenPattern "mermaid") (mermaid_fenced body)) = body.
Proof.
  change (mermaid_fenced body)
    with ("```mermaid" +:+ String Char.LF (body +:+ String Char.LF backticks)).
  rewrite remove_open_mermaid. cbn [Ascii.eqb Char.LF Bool.eqb].
  apply remove_fence_close.
Qed.

Lemma parser_code_mermaid_fenced body : parser_code (mermaid_fenced body) = body.
Proof.
  unfold parser_code. rewrite mermaid_fenced_trim.
  change (Str.startsWith "```mermaid" (mermaid_fenced body)) with true. cbv iota.
  apply unwrap_mermaid_fenced.
Qed.

Lemma validator_code_mermaid_fenced body : validator_code (mermaid_fenced body) = body.
Proof.
  unfold validator_code. rewrite mermaid_fenced_trim.
  change (Str.startsWith "```mermaid" (mermaid_fenced body)) with true. cbv iota.
  apply unwrap_mermaid_fenced.
Qed.

Lemma parser_code_plain body :
  Str.trim body = body -> Str.startsWith "```" body = false -> parser_code body = body.
Proof.
  intros Ht Hf. unfold parser_code. rewrite Ht, Hf.
  destruct (Str.startsWith "```mermaid" body) eqn:E; [|reflexivity].
  exfalso. peel E. cbn in Hf. discriminate Hf.
Qed.

Lemma validator_code_plain body :
  Str.trim body = body -> Str.startsWith "```" body = false -> validator_code body = body.
Proof.
  intros Ht Hf. unfold validator_code. rewrite Ht.
  destruct (Str.startsWith "```mermaid" body) eqn:E; [|reflexivity].
  exfalso. peel E. cbn in Hf. discriminate Hf.
Qed.

End TaggedFenceFacts.

Import TaggedFenceFacts.

(** X13.  A fence with the language tag is transparent to both entry points:
    for a text without surrounding space that does not itself start with a
    fence, wrapping it in the tagged fence changes neither the result of
    [parseMermaid] nor the report of [validateMermaid]. *)
Theorem tagged_fence_is_transparent (body : string) :
  Str.trim body = body -> Str.startsWith "```" body = false ->
  parseMermaid (mermaid_fenced body) = parseMermaid body /\
  validateMermaid (mermaid_fenced body) = validateMermaid body.
Proof.
  intros Ht Hf. unfold parseMermaid, validateMermaid.
  rewrite parser_code_mermaid_fenced, validator_code_mermaid_fenced.
  rewrite (parser_code_plain body Ht Hf), (validator_code_plain body Ht Hf).
  split; reflexivity.
Qed.

Lemma tagged_fence_is_transparent_witness :
  parseMermaid (mermaid_fenced sample_clean) = parseMermaid sample_clean /\
  validateMermaid (mermaid_fenced sample_clean) = validateMermaid sample_clean.
Proof. apply (tagged_fence_is_transparent sample_clean); reflexivity. Defined.

(** ** Escaping *)

Module EscapeFacts.

Import Emit.

Lemma replace_all_app c by_text a b :
  replace_all c by_text (a +:+ b) = replace_all c by_text a +:+ replace_all c by_text b.
Proof.
  induction a as [|x a IH]; cbn [String.append replace_all]; [reflexivity|].
  rewrite IH. destruct (Ascii.eqb x c); [now rewrite app_assoc | reflexivity].
Qed.

Lemma replace_five_app a b : replace_five (a +:+ b) = replace_five a +:+ replace_five b.
Proof. unfold replace_five. now rewrite !replace_all_app. Qed.

Lemma replace_five_unit c : replace_five (String c "") = escape_unit c.
Proof.
  unfold replace_five, escape_unit. cbn [replace_all].
  destruct (Ascii.eqb_spec c "&") as [->|H1]; [reflexivity|].
  cbn [replace_all String.append].
  destruct (Ascii.eqb_spec c "<") as [->|H2]; [reflexivity|].
  cbn [replace_all String.append].
  destruct (Ascii.eqb_spec c ">") as [->|H3]; [reflexivity|].
  cbn [replace_all String.append].
  destruct (Ascii.eqb_spec c dquote) as [->|H4]; [reflexivity|].
  cbn [replace_all String.append].
  destruct (Ascii.eqb_spec c "'") as [->|H5]; reflexivity.
Qed.

Lemma replace_five_each s : replace_five s = escape_each s.
Proof.
  induction s as [|c s IH]; [reflexivity|].
  change (String c s) with (String c "" +:+ s).
  rewrite replace_five_app, replace_five_unit, IH. reflexivity.
Qed.

Lemma escapeXml_each s : escapeXml s = escape_each s.
Proof.
  unfold escapeXml. destruct s as [|c s]; [reflexivity|].
  cbn [Str.is_empty]. apply (replace_five_each (String c s)).
Qed.

Lemma escape_unit_clean c : Str.all (fun a => negb (markup a)) (escape_unit c) = true.
Proof.
  unfold escape_unit.
  destruct (Ascii.eqb_spec c "&") as [->|H1]; [reflexivity|].
  destruct (Ascii.eqb_spec c "<") as [->|H2]; [reflexivity|].
  destruct (Ascii.eqb_spec c ">") as [->|H3]; [reflexivity|].
  destruct (Ascii.eqb_spec c dquote) as [->|H4]; [reflexivity|].
  destruct (Ascii.eqb_spec c "'") as [->|H5]; [reflexivity|].
  cbn [Str.all]. unfold markup.
  apply Ascii.eqb_neq in H2, H3, H4, H5. now rewrite H2, H3, H4, H5.
Qed.

Lemma escape_each_inj : forall s t, escape_each s = escape_each t -> s = t.
Proof.
  induction s as [|c s IH]; intros [|d t]; cbn [escape_each]; unfold escape_unit.
  - reflexivity.
  - repeat (match goal with |- context [Ascii.eqb ?a ?k] => destruct (Ascii.eqb a k) end);
      discriminate.
  - repeat (match goal with |- context [Ascii.eqb ?a ?k] => destruct (Ascii.eqb a k) end);
      discriminate.
  - repeat (match goal with
            | |- context [Ascii.eqb ?a ?k] => destruct (Ascii.eqb_spec a k)
            end);
      subst; cbn [String.append]; intros H; try discriminate H;
      injection H; intros; subst; try congruence; f_equal; auto.
Qed.

End EscapeFacts.

Import EscapeFacts.

(** X14.  The five replacements of [escapeXml], run one after the other,
    amount to one pass that replaces each code unit by its own entity:
    nothing is escaped twice, and the ampersands of the entities written for
    the other four characters are left alone. *)
Theorem escapeXml_single_pass (s : string) : Emit.escapeXml s = escape_each s.
Proof. apply escapeXml_each. Qed.

(** X15.  The text [escapeXml] returns holds no quote and no angle bracket,
    so it cannot end the attribute it is written into, and distinct texts
    have distinct escaped forms. *)
Theorem escapeXml_is_safe (s t : string) :
  Str.all (fun a => negb (markup a)) (Emit.escapeXml s) = true /\
  (Emit.escapeXml s = Emit.escapeXml t -> s = t).
Proof.
  rewrite !escapeXml_each. split; [|apply escape_each_inj].
  induction s as [|c s IH]; [reflexivity|].
  cbn [escape_each]. now rewrite all_app, escape_unit_clean, IH.
Qed.

(** ** The duplicate filter *)

Module FilterFacts.

Import Emit.

Lemma filter_seen_keys seen edges :
  NoDup (List.map edge_key (filter_seen seen edges)) /\
  (forall e, In e (filter_seen seen edges) -> In e edges /\ edge_key e ∉ seen) /\
  (forall e, In e edges ->
     edge_key e ∈ seen \/
     exists e', In e' (filter_seen seen edges) /\ edge_key e' = edge_key e).
Proof.
  revert seen. induction edges as [|a es IH]; intros seen; cbn [filter_seen].
  - split; [constructor|]. split; intros e [].
  - destruct (decide (edge_key a ∈ seen)) as [Hin|Hnin].
    + destruct (IH seen) as (Hnd & Hsub & Hcov). split; [exact Hnd|]. split.
      * intros e He. destruct (Hsub e He). split; [now right | assumption].
      * intros e [<-|He]; [now left | now apply Hcov].
    + destruct (IH ({[edge_key a]} ∪ seen)) as (Hnd & Hsub & Hcov).
      split; [|split].
      * cbn [List.map]. apply NoDup_cons. split; [|exact Hnd].
        intros Hk. apply list_elem_of_In, List.in_map_iff in Hk as (e & Hke & He).
        destruct (Hsub e He) as [_ Hn]. apply Hn. rewrite Hke. set_solver.
      * intros e [<-|He]; [split; [now left | exact Hnin]|].
        destruct (Hsub e He) as [Hi Hn]. split; [now right | set_solver].
      * intros e [<-|He]; [right; exists a; split; [now left | reflexivity]|].
        destruct (Hcov e He) as [Hs|(e' & He' & Hk)].
        -- apply elem_of_union in Hs as [Hs|Hs]; [|now left].
           apply elem_of_singleton in Hs. right. exists a. split; [now left | now symmetry].
        -- right. exists e'. split; [now right | exact Hk].
Qed.

Lemma filter_seen_sublist seen edges : sublist (filter_seen seen edges) edges.
Proof.
  revert seen. induction edges as [|a es IH]; intros seen; cbn [filter_seen].
  - constructor.
  - destruct (decide (edge_key a ∈ seen)); [apply sublist_cons | apply sublist_skip]; apply IH.
Qed.

Lemma filter_seen_distinct edges : forall seen,
  NoDup (List.map edge_key edges) ->
  (forall e, In e edges -> edge_key e ∉ seen) ->
  filter_seen seen edges = edges.
Proof.
  induction edges as [|a es IH]; intros seen Hnd Hfresh; cbn [filter_seen]; [reflexivity|].
  cbn [List.map] in Hnd. apply NoDup_cons in Hnd as [Ha Hnd].
  destruct (decide (edge_key a ∈ seen)) as [Hin|Hnin].
  - destruct (Hfresh a); [now left | exact Hin].
  - f_equal. apply IH; [exact Hnd|]. intros e He Hk.
    apply elem_of_union in Hk as [Hk|Hk]; [|now apply (Hfresh e (or_intror He))].
    apply elem_of_singleton in Hk. apply Ha. rewrite <- Hk.
    apply list_elem_of_In, List.in_map. exact He.
Qed.

(** Two keys with identifiers as sources agree only on equal endpoints. *)
Lemma key_inj s1 : forall s2 t1 t2,
  Str.all Char.is_word s1 = true -> Str.all Char.is_word s2 = true ->
  s1 +:+ "->" +:+ t1 = s2 +:+ "->" +:+ t2 -> s1 = s2 /\ t1 = t2.
Proof.
  induction s1 as [|c s1 IH]; intros [|d s2] t1 t2 H1 H2; cbn [String.append Str.all] in *.
  - intros [= ->]. now split.
  - intros [= <- _]. discriminate H2.
  - intros [= -> _]. discriminate H1.
  - intros [= <- H]. apply andb_prop in H1 as [_ H1]. apply andb_prop in H2 as [_ H2].
    destruct (IH s2 t1 t2 H1 H2 H) as [-> ->]. now split.
Qed.

Lemma parseConnection_source line c :
  parseConnection line = Some c -> identifier (c_source c).
Proof.
  unfold parseConnection. destruct (exec connectionPattern line) as [mt|] eqn:Hex;
    [|discriminate].
  assert (Hid : identifier (group_text 1 mt)).
  { apply exec_at_sound in Hex as (a & b & p' & _ & _ & Hs).
    unfold group_text, group. destruct mt as [idx fin]. cbn [final] in *.
    unfold connectionPattern in Hs. cbn [seqs] in Hs.
    inv_seq Hs st1 Hbol Hs1. inv_seq Hs1 st2 Hg1 Hs2.
    rewrite (get_cap_later _ _ _ 1 Hs2) by (cbn; intuition discriminate).
    apply steps_grp_plus in Hg1 as (w & -> & Hne & Hall & _).
    cbn [get_cap Nat.eqb]. now split. }
  destruct (exec inlineDefPattern _); intros [= <-]; exact Hid.
Qed.

Lemma flow_step_sources st raw :
  (forall e, In e (fs_edges st) -> identifier (e_source e)) ->
  forall e, In e (fs_edges (flow_step st raw)) -> identifier (e_source e).
Proof.
  intros H. unfold flow_step.
  destruct (Str.is_empty (Str.trim raw) || Str.startsWith "%%" (Str.trim raw)); [exact H|].
  destruct (Str.startsWith "subgraph" (Str.trim raw)).
  { destruct (exec subgraphPattern _); exact H. }
  destruct (String.eqb (Str.trim raw) "end").
  { destruct (fs_current st); exact H. }
  destruct (parseConnection (Str.trim raw)) as [c|] eqn:Ec.
  - cbn [fs_edges]. intros e Hin. apply in_app_or in Hin as [Hin|[<-|[]]]; [now apply H|].
    cbn [e_source]. exact (parseConnection_source _ _ Ec).
  - destruct (exec nodeDefPattern (Str.trim raw)); exact H.
Qed.

End FilterFacts.

Import FilterFacts.

(** X16.  The duplicate filter of [convertToDrawio] keeps the edges in their
    order and drops only edges whose key an earlier kept edge has: the kept
    edges have pairwise distinct keys, every edge has a kept edge with its
    key, and a list without repeated key passes unchanged. *)
Theorem drawn_edges_first_of_each_key (edges : list Edge) :
  sublist (Emit.drawn_edges edges) edges /\
  NoDup (List.map Emit.edge_key (Emit.drawn_edges edges)) /\
  (forall e, In e edges ->
     exists e', In e' (Emit.drawn_edges edges) /\ Emit.edge_key e' = Emit.edge_key e) /\
  (NoDup (List.map Emit.edge_key edges) -> Emit.drawn_edges edges = edges).
Proof.
  unfold Emit.drawn_edges.
  destruct (filter_seen_keys ∅ edges) as (Hnd & _ & Hcov).
  split; [apply filter_seen_sublist|]. split; [exact Hnd|]. split.
  - intros e He. destruct (Hcov e He) as [Hs|H]; [set_solver | exact H].
  - intros H. apply filter_seen_distinct; [exact H | set_solver].
Qed.

(** X17.  On the edges of a parsed flowchart the key of the duplicate filter
    identifies the pair of endpoints: the source of a parsed edge is an
    identifier, so two edges with the same key join the same two nodes, and
    the filter merges parallel edges only. *)
Theorem parsed_edge_keys_are_exact (input : string) (d : Diagram) (e1 e2 : Edge) :
  parseMermaid input = Return d ->
  In e1 (flow_edges d) -> In e2 (flow_edges d) ->
  Emit.edge_key e1 = Emit.edge_key e2 ->
  e_source e1 = e_source e2 /\ e_target e1 = e_target e2.
Proof.
  intros Hd. apply parseMermaid_cases in Hd as (lines & [(dir & ->)|[->|[->| ->]]]);
    try (intros []).
  unfold parseFlowchart, flow_edges, flow_scan. cbn [body].
  assert (H : forall e, In e (fs_edges (List.fold_left flow_step (List.tl lines) flow_init)) ->
                        identifier (e_source e)).
  { apply (fold_left_inv (fun st => forall e, In e (fs_edges st) -> identifier (e_source e)));
      [intros; eapply flow_step_sources; eassumption | intros ? []]. }
  intros H1 H2 Hk. apply key_inj; [apply (H e1 H1) | apply (H e2 H2) | exact Hk].
Qed.

Lemma parsed_edge_keys_are_exact_witness :
  exists d e1 e2,
    parseMermaid sample_repeated = Return d /\
    List.map Emit.edge_key (flow_edges d) = ["A->B"; "A->B"; "B->A"] /\
    e_id e1 = "e1" /\ e_id e2 = "e2" /\
    e_source e1 = e_source e2 /\ e_target e1 = e_target e2.
Proof.
  eassert (Hp : parseMermaid sample_repeated = Return _) by (vm_compute; reflexivity).
  eexists _, _, _. split; [exact Hp|]. split; [reflexivity|].
  split; [|split]; [| |eapply (parsed_edge_keys_are_exact sample_repeated _ _ _ Hp)];
    [| |left; reflexivity|right; left; reflexivity|reflexivity]; reflexivity.
Defined.

(** ** Entry and exit points *)

Module TerminalFacts.

Lemma entry_filter nodes edges n :
  In n nodes ->
  negb (bool_decide (id n ∈ (list_to_set (List.map e_target edges) : gset string))) =
  no_neighbours (inEdges nodes edges) n.
Proof.
  intros Hin. pose proof (zero_in_spec nodes edges n Hin) as Hz.
  destruct (no_neighbours (inEdges nodes edges) n) eqn:E.
  - apply negb_true_iff, bool_decide_eq_false. intros Hel.
    apply elem_of_list_to_set, list_elem_of_In, List.in_map_iff in Hel as (e & He & Hie).
    exact (proj1 Hz eq_refl e Hie He).
  - apply negb_false_iff, bool_decide_eq_true.
    destruct (decide (id n ∈ (list_to_set (List.map e_target edges) : gset string)))
      as [Hel|Hnel]; [exact Hel|].
    assert (Hzi : zero_in edges n).
    { intros e He Heq. apply Hnel. apply elem_of_list_to_set, list_elem_of_In.
      rewrite <- Heq. now apply List.in_map. }
    apply Hz in Hzi. congruence.
Qed.

Lemma exit_filter nodes edges n :
  In n nodes ->
  negb (bool_decide (id n ∈ (list_to_set (List.map e_source edges) : gset string))) =
  no_neighbours (outEdges nodes edges) n.
Proof.
  intros Hin. pose proof (zero_out_spec nodes edges n Hin) as Hz.
  destruct (no_neighbours (outEdges nodes edges) n) eqn:E.
  - apply negb_true_iff, bool_decide_eq_false. intros Hel.
    apply elem_of_list_to_set, list_elem_of_In, List.in_map_iff in Hel as (e & He & Hie).
    exact (proj1 Hz eq_refl e Hie He).
  - apply negb_false_iff, bool_decide_eq_true.
    destruct (decide (id n ∈ (list_to_set (List.map e_source edges) : gset string)))
      as [Hel|Hnel]; [exact Hel|].
    assert (Hzo : zero_out edges n).
    { intros e He Heq. apply Hnel. apply elem_of_list_to_set, list_elem_of_In.
      rewrite <- Heq. now apply List.in_map. }
    apply Hz in Hzo. congruence.
Qed.

Lemma findEntryPoints_filter nodes edges :
  Markdown.findEntryPoints nodes edges =
  List.filter (no_neighbours (inEdges nodes edges)) nodes.
Proof.
  unfold Markdown.findEntryPoints. apply List.filter_ext_in.
  intros n Hin. now apply entry_filter.
Qed.

Lemma findExitPoints_filter nodes edges :
  Markdown.findExitPoints nodes edges =
  List.filter (no_neighbours (outEdges nodes edges)) nodes.
Proof.
  unfold Markdown.findExitPoints. apply List.filter_ext_in.
  intros n Hin. now apply exit_filter.
Qed.

(** An entry point is a node without incoming edge. *)
Lemma in_entry nodes edges n :
  In n (Markdown.findEntryPoints nodes edges) <-> In n nodes /\ zero_in edges n.
Proof.
  rewrite findEntryPoints_filter, List.filter_In.
  split; intros [Hin H]; (split; [exact Hin|]); now apply (zero_in_spec nodes edges n Hin).
Qed.

Lemma in_exit nodes edges n :
  In n (Markdown.findExitPoints nodes edges) <-> In n nodes /\ zero_out edges n.
Proof.
  rewrite findExitPoints_filter, List.filter_In.
  split; intros [Hin H]; (split; [exact Hin|]); now apply (zero_out_spec nodes edges n Hin).
Qed.

Lemma filter_nil_iff {A} (f : A -> bool) l :
  List.filter f l = [] <-> forall a, In a l -> f a = false.
Proof.
  induction l as [|x l IH]; cbn [List.filter]; [split; [intros _ ? [] | reflexivity]|].
  destruct (f x) eqn:E.
  - split; [discriminate|]. intros H. rewrite (H x) in E by now left. discriminate.
  - rewrite IH. split; [intros H a [<-|Ha]; auto | intros H a Ha; apply H; now right].
Qed.

Lemma hasStartNode_false nodes n :
  hasStartNode nodes = false -> In n nodes -> id n <> "Start".
Proof.
  unfold hasStartNode. intros H Hin Heq.
  assert (Ht : List.existsb (fun node => String.eqb (id node) "Start" ||
                String.eqb (Str.toLowerCase (label node)) "start") nodes = true).
  { apply List.existsb_exists. exists n. split; [exact Hin|]. rewrite Heq. reflexivity. }
  congruence.
Qed.

Lemma hasStopNode_false nodes n :
  hasStopNode nodes = false -> In n nodes -> id n <> "Stop".
Proof.
  unfold hasStopNode. intros H Hin Heq.
  assert (Ht : List.existsb (fun node =>
                String.eqb (id node) "Stop" || String.eqb (id node) "End" ||
                String.eqb (Str.toLowerCase (label node)) "stop" ||
                String.eqb (Str.toLowerCase (label node)) "end") nodes = true).
  { apply List.existsb_exists. exists n. split; [exact Hin|]. rewrite Heq. reflexivity. }
  congruence.
Qed.

Lemma nonempty_filter {A} (f : A -> bool) l a :
  In a l -> f a = true -> (0 <? length (List.filter f l)) = true.
Proof.
  intros Hin Hf. apply Nat.ltb_lt.
  assert (H : In a (List.filter f l)) by (apply List.filter_In; now split).
  destruct (List.filter f l); [destruct H | cbn; lia].
Qed.

(** The graph after the synthesis, when both terminals are added. *)
Lemma synthesize_both nodes edges :
  hasStartNode nodes = false -> hasStopNode nodes = false ->
  (exists n, In n nodes /\ zero_in edges n) ->
  (exists n, In n nodes /\ zero_out edges n) ->
  synthesize nodes edges =
  (startNode :: nodes ++ [stopNode],
   List.rev (List.map start_edge (List.filter (no_neighbours (inEdges nodes edges)) nodes))
   ++ edges ++
   List.map stop_edge (List.filter (no_neighbours (outEdges nodes edges)) nodes)).
Proof.
  intros Hs Ht (n1 & Hin1 & Hz1) (n2 & Hin2 & Hz2).
  rewrite synthesize_shape, Hs, Ht. cbn [negb andb].
  rewrite (nonempty_filter _ nodes n1 Hin1) by now apply zero_in_spec.
  rewrite (nonempty_filter _ nodes n2 Hin2) by now apply zero_out_spec.
  reflexivity.
Qed.

End TerminalFacts.

Import TerminalFacts.

(** X18.  The entry points and the exit points that the Markdown flow
    analysis lists are the nodes that the Draw.io converter would wire the
    synthetic Start node to and the synthetic Stop node from. *)
Theorem flow_analysis_matches_synthesis (nodes : list Node) (edges : list Edge) :
  Markdown.findEntryPoints nodes edges =
    List.filter (no_neighbours (inEdges nodes edges)) nodes /\
  Markdown.findExitPoints nodes edges =
    List.filter (no_neighbours (outEdges nodes edges)) nodes.
Proof. split; [apply findEntryPoints_filter | apply findExitPoints_filter]. Qed.

(** X19.  When the synthesis adds both terminals to a graph whose edges join
    nodes of the graph, the result has Start as its only entry point and Stop
    as its only exit point. *)
Theorem synthesis_single_entry_and_exit (nodes : list Node) (edges : list Edge) :
  closed_graph nodes edges ->
  hasStartNode nodes = false -> hasStopNode nodes = false ->
  (exists n, In n nodes /\ zero_in edges n) ->
  (exists n, In n nodes /\ zero_out edges n) ->
  Markdown.findEntryPoints (fst (synthesize nodes edges)) (snd (synthesize nodes edges))
    = [startNode] /\
  Markdown.findExitPoints (fst (synthesize nodes edges)) (snd (synthesize nodes edges))
    = [stopNode].
Proof.
  intros Hcl Hs Ht Hzi Hzo. rewrite (synthesize_both nodes edges Hs Ht Hzi Hzo).
  cbn [fst snd].
  set (starts := List.filter (no_neighbours (inEdges nodes edges)) nodes).
  set (stops := List.filter (no_neighbours (outEdges nodes edges)) nodes).
  set (es := List.rev (List.map start_edge starts) ++ edges ++ List.map stop_edge stops).
  assert (Hst : forall n, In n starts <-> In n nodes /\ zero_in edges n).
  { intros n. unfold starts. rewrite List.filter_In.
    split; intros [Hin H]; (split; [exact Hin|]); now apply (zero_in_spec nodes edges n Hin). }
  assert (Hsp : forall n, In n stops <-> In n nodes /\ zero_out edges n).
  { intros n. unfold stops. rewrite List.filter_In.
    split; intros [Hin H]; (split; [exact Hin|]); now apply (zero_out_spec nodes edges n Hin). }
  assert (Hes : forall e, In e es <->
            (exists n, In n starts /\ e = start_edge n) \/ In e edges \/
            (exists n, In n stops /\ e = stop_edge n)).
  { intros e. unfold es. rewrite !List.in_app_iff, <- List.in_rev, !List.in_map_iff.
    split; intros [(n & H1 & H2)|[H|(n & H1 & H2)]]; eauto 6. }
  assert (Hdec_in : forall n, In n nodes -> ~ zero_in es n).
  { intros n Hin Hz.
    destruct (no_neighbours (inEdges nodes edges) n) eqn:E.
    - apply (Hz (start_edge n)); [|reflexivity]. apply Hes. left. exists n.
      split; [|reflexivity]. apply Hst.
      split; [exact Hin | exact (proj1 (zero_in_spec nodes edges n Hin) E)].
    - assert (Hnz : ~ zero_in edges n)
        by (intros H; apply (zero_in_spec nodes edges n Hin) in H; congruence).
      apply Hnz. intros e He. apply Hz. apply Hes. right. now left. }
  assert (Hdec_out : forall n, In n nodes -> ~ zero_out es n).
  { intros n Hin Hz.
    destruct (no_neighbours (outEdges nodes edges) n) eqn:E.
    - apply (Hz (stop_edge n)); [|reflexivity]. apply Hes. right. right. exists n.
      split; [|reflexivity]. apply Hsp.
      split; [exact Hin | exact (proj1 (zero_out_spec nodes edges n Hin) E)].
    - assert (Hnz : ~ zero_out edges n)
        by (intros H; apply (zero_out_spec nodes edges n Hin) in H; congruence).
      apply Hnz. intros e He. apply Hz. apply Hes. right. now left. }
  assert (HidS : forall n, In n nodes -> id n <> "Start")
    by (intros n; now apply hasStartNode_false).
  assert (HidT : forall n, In n nodes -> id n <> "Stop")
    by (intros n; now apply hasStopNode_false).
  assert (Hids : forall x, In x (List.map id nodes) -> x <> "Start" /\ x <> "Stop").
  { intros x Hx. apply List.in_map_iff in Hx as (n & <- & Hn). split; auto. }
  assert (Hstart_in : zero_in es startNode).
  { intros e He. apply Hes in He as [(n & Hn & ->)|[He|(n & Hn & ->)]]; cbn [e_target id startNode].
    - apply HidS. now apply Hst in Hn.
    - apply (Hids _ (proj2 (Hcl e He))).
    - discriminate. }
  assert (Hstop_out : zero_out es stopNode).
  { intros e He. apply Hes in He as [(n & Hn & ->)|[He|(n & Hn & ->)]]; cbn [e_source id stopNode].
    - discriminate.
    - apply (Hids _ (proj1 (Hcl e He))).
    - apply HidT. now apply Hsp in Hn. }
  assert (Hstart_out : ~ zero_out es startNode).
  { destruct Hzi as (n & Hin & Hz). intros H.
    apply (H (start_edge n)); [|reflexivity]. apply Hes. left. exists n.
    split; [now apply Hst | reflexivity]. }
  assert (Hstop_in : ~ zero_in es stopNode).
  { destruct Hzo as (n & Hin & Hz). intros H.
    apply (H (stop_edge n)); [|reflexivity]. apply Hes. right. right. exists n.
    split; [now apply Hsp | reflexivity]. }
  set (ns := startNode :: nodes ++ [stopNode]).
  assert (Hmid_in : List.filter (no_neighbours (inEdges ns es)) (nodes ++ [stopNode]) = []).
  { apply filter_nil_iff. intros n Hin.
    assert (Hn : In n ns) by now right.
    destruct (no_neighbours (inEdges ns es) n) eqn:E; [|reflexivity].
    apply (zero_in_spec ns es n Hn) in E. apply in_app_or in Hin as [Hin|[<-|[]]].
    - now destruct (Hdec_in n Hin).
    - now destruct Hstop_in. }
  assert (Hmid_out : List.filter (no_neighbours (outEdges ns es)) (startNode :: nodes) = []).
  { apply filter_nil_iff. intros n Hin.
    assert (Hn : In n ns).
    { destruct Hin as [<-|Hin]; [now left | right; apply in_or_app; now left]. }
    destruct (no_neighbours (outEdges ns es) n) eqn:E; [|reflexivity].
    apply (zero_out_spec ns es n Hn) in E. destruct Hin as [<-|Hin].
    - now destruct Hstart_out.
    - now destruct (Hdec_out n Hin). }
  rewrite findEntryPoints_filter, findExitPoints_filter. fold ns. split.
  - unfold ns at 2. cbn [List.filter].
    rewrite (proj2 (zero_in_spec ns es startNode (or_introl eq_refl)) Hstart_in).
    now rewrite Hmid_in.
  - change ns with ((startNode :: nodes) ++ [stopNode]) at 2.
    rewrite List.filter_app, Hmid_out. cbn [List.filter List.app].
    assert (Hn : In stopNode ns) by (right; apply in_or_app; right; now left).
    now rewrite (proj2 (zero_out_spec ns es stopNode Hn) Hstop_out).
Qed.

Lemma synthesis_single_entry_and_exit_witness :
  Markdown.findEntryPoints (fst (synthesize chain_nodes chain_edges))
                           (snd (synthesize chain_nodes chain_edges)) = [startNode] /\
  Markdown.findExitPoints (fst (synthesize chain_nodes chain_edges))
                          (snd (synthesize chain_nodes chain_edges)) = [stopNode].
Proof.
  apply (synthesis_single_entry_and_exit chain_nodes chain_edges).
  - intros e [<-|[<-|[]]]; cbn; tauto.
  - reflexivity.
  - reflexivity.
  - exists (default_node "A"). split; [now left|].
    intros e [<-|[<-|[]]]; discriminate.
  - exists (default_node "C"). split; [right; right; now left|].
    intros e [<-|[<-|[]]]; discriminate.
Defined.

(** ** Closed graphs *)

Module ClosedFacts.

Lemma synthesize_closed nodes edges :
  closed_graph nodes edges ->
  closed_graph (fst (synthesize nodes edges)) (snd (synthesize nodes edges)).
Proof.
  intros Hcl. rewrite synthesize_shape. cbn [fst snd].
  set (addStart := negb (hasStartNode nodes) && _).
  set (addStop := negb (hasStopNode nodes) && _).
  intros e He. rewrite !List.map_app, !List.in_app_iff.
  apply in_app_or in He as [He|He]; [|apply in_app_or in He as [He|He]].
  - destruct addStart; [|destruct He].
    apply List.in_rev in He. rewrite ?List.rev_involutive in He.
    apply List.in_map_iff in He as (n & <- & Hn). apply List.filter_In in Hn as [Hn _].
    cbn [start_edge e_source e_target]. split; [left; now left|].
    right. left. now apply List.in_map.
  - destruct (Hcl e He). tauto.
  - destruct addStop; [|destruct He].
    apply List.in_map_iff in He as (n & <- & Hn). apply List.filter_In in Hn as [Hn _].
    cbn [stop_edge e_source e_target]. split; [|right; right; now left].
    right. left. now apply List.in_map.
Qed.

End ClosedFacts.

Import ClosedFacts.

(** X20.  Every edge that the flowchart converter works on, the synthetic
    Start and Stop edges included, joins two of the nodes it works on: no
    edge of a parsed flowchart is left without a position for one of its
    ends. *)
Theorem converted_graph_is_closed (input : string) (d : Diagram)
    (nodes : list Node) (edges : list Edge) :
  parseMermaid input = Return d ->
  convert_graph d = Some (nodes, edges) ->
  closed_graph nodes edges.
Proof.
  intros Hd. apply parseMermaid_cases in Hd as (lines & [(dir & ->)|[->|[->| ->]]]);
    try discriminate.
  unfold convert_graph. cbn [body type parseFlowchart String.eqb Ascii.eqb Bool.eqb].
  intros [= Hsyn].
  pose proof (synthesize_closed (JsMap.values (fs_nodes (flow_scan lines)))
                (fs_edges (flow_scan lines))) as H.
  rewrite Hsyn in H. cbn [fst snd] in H. apply H.
  intros e He. pose proof (parseFlowchart_closed lines dir (e_source e) (e_target e)) as Hc.
  unfold parseFlowchart, edge_ends, node_ids in Hc. cbn [body] in Hc.
  apply Hc. apply List.in_map_iff. exists e. split; [reflexivity | exact He].
Qed.

Lemma converted_graph_is_closed_witness :
  exists d ns es, parseMermaid go_stop2_input = Return d /\
                  convert_graph d = Some (ns, es) /\ closed_graph ns es.
Proof.
  eassert (Hp : parseMermaid go_stop2_input = Return _) by (vm_compute; reflexivity).
  match type of Hp with
  | _ = Return ?d =>
      eassert (Hc : convert_graph d = Some (_, _)) by (vm_compute; reflexivity)
  end.
  eexists _, _, _. split; [exact Hp|]. split; [exact Hc|].
  exact (converted_graph_is_closed go_stop2_input _ _ _ Hp Hc).
Defined.

(** ** What the level assignment records *)

Module TraversalFacts.

(** One call of [assignLevels], unfolded on a consistent state. *)
Lemma assignLevels_step fuel outE nodeId level st :
  consistent st ->
  assignLevels (S fuel) outE nodeId level st =
  if skips nodeId level st then Some st
  else match visit_children fuel outE level (default [] (outE !! nodeId))
               (Some (enter nodeId level st)) with
       | Some st3 => Some (leave nodeId st3)
       | None => None
       end.
Proof.
  intros Hc. cbn [assignLevels]. unfold skips.
  destruct (decide (nodeId ∈ inStack st)); [reflexivity|].
  destruct (decide (nodeId ∈ visited st)) as [Hv|Hv].
  - destruct (nodeLevel st !! nodeId) as [l|] eqn:El; [|reflexivity].
    destruct (l <? level); cbn [negb]; [|reflexivity].
    unfold visit_children, enter. cbn [nodeLevel visited inStack].
    rewrite lookup_insert_eq. cbn [default]. rewrite Nat.max_id, insert_insert_eq.
    reflexivity.
  - assert (El : nodeLevel st !! nodeId = None).
    { apply not_elem_of_dom. unfold consistent in Hc. now rewrite Hc. }
    unfold visit_children, enter. rewrite El. cbn [default]. rewrite Nat.max_0_l.
    reflexivity.
Qed.

Lemma skips_false nodeId level st :
  consistent st -> skips nodeId level st = false ->
  nodeId ∉ inStack st /\ forall l, nodeLevel st !! nodeId = Some l -> l < level.
Proof.
  unfold skips, consistent. intros Hc H.
  destruct (decide (nodeId ∈ inStack st)) as [|Hs]; [discriminate|]. split; [exact Hs|].
  intros l El. destruct (decide (nodeId ∈ visited st)) as [Hv|Hv].
  - rewrite El in H. apply negb_false_iff, Nat.ltb_lt in H. exact H.
  - exfalso. apply Hv. rewrite <- Hc. apply elem_of_dom. eauto.
Qed.

Lemma skips_true nodeId level st :
  consistent st -> skips nodeId level st = true ->
  nodeId ∈ inStack st \/ exists l, nodeLevel st !! nodeId = Some l /\ level <= l.
Proof.
  unfold skips, consistent. intros Hc H.
  destruct (decide (nodeId ∈ inStack st)) as [Hs|Hs]; [now left|]. right.
  destruct (decide (nodeId ∈ visited st)) as [Hv|Hv]; [|discriminate].
  rewrite <- Hc in Hv. apply elem_of_dom in Hv as [l El]. rewrite El in H.
  exists l. split; [exact El|]. apply negb_true_iff, Nat.ltb_ge in H. exact H.
Qed.

Lemma visit_children_cons fuel outE level c cs s :
  visit_children fuel outE level (c :: cs) (Some s) =
  visit_children fuel outE level cs (assignLevels fuel outE c (level + 1) s).
Proof. reflexivity. Qed.

Lemma consistent_enter nodeId level st : consistent st -> consistent (enter nodeId level st).
Proof.
  unfold consistent, enter. cbn [nodeLevel visited]. intros Hc.
  now rewrite dom_insert_L, Hc.
Qed.

Lemma children_are_edges nodes edges u w :
  child (outEdges nodes edges) u w ->
  exists e, In e edges /\ e_source e = u /\ e_target e = w.
Proof.
  intros (cs & Hcs & Hw). unfold outEdges in Hcs.
  assert (Hu : empty_adjacency nodes !! u = Some []).
  { assert (Hd : u ∈ dom (outEdges nodes edges)) by (apply elem_of_dom; eauto).
    rewrite dom_outEdges in Hd.
    apply elem_of_list_to_set, list_elem_of_In, List.in_map_iff in Hd as (n & <- & Hn).
    now apply empty_adjacency_lookup. }
  rewrite (fold_push_lookup e_source e_target edges _ u [] Hu) in Hcs.
  injection Hcs as <-. cbn [List.app] in Hw.
  apply List.in_map_iff in Hw as (e & <- & He). apply List.filter_In in He as [He Hs].
  apply String.eqb_eq in Hs. eauto.
Qed.

Lemma edges_are_children nodes edges e :
  In e edges -> In (e_source e) (List.map id nodes) ->
  child (outEdges nodes edges) (e_source e) (e_target e).
Proof.
  intros He Hs. apply List.in_map_iff in Hs as (n & Hn & Hin).
  unfold child, outEdges.
  rewrite (fold_push_lookup e_source e_target edges _ (e_source e) [])
    by (rewrite <- Hn; now apply empty_adjacency_lookup).
  eexists. split; [reflexivity|]. cbn [List.app]. apply List.in_map.
  apply List.filter_In. split; [exact He | apply String.eqb_refl].
Qed.

(** The loop over the roots, with the roots already handled. *)
Lemma assign_roots_inv (P : list Node -> LevelState -> Prop) fuel nodes edges :
  P [] level_init ->
  (forall handled root s s',
     P handled s ->
     assignLevels fuel (outEdges nodes edges) (id root) 0 s = Some s' ->
     P (handled ++ [root]) s') ->
  forall st, assign_roots fuel nodes edges = Some st -> P (roots nodes edges) st.
Proof.
  intros H0 Hstep. unfold assign_roots.
  assert (H : forall rs handled s st,
            P handled s ->
            List.fold_left
              (fun acc root =>
                 match acc with
                 | Some s => assignLevels fuel (outEdges nodes edges) (id root) 0 s
                 | None => None
                 end) rs (Some s) = Some st ->
            P (handled ++ rs) st).
  { induction rs as [|r rs IH]; intros handled s st Hs Hf; cbn [List.fold_left] in Hf.
    - injection Hf as <-. now rewrite List.app_nil_r.
    - destruct (assignLevels fuel (outEdges nodes edges) (id r) 0 s) as [s1|] eqn:E.
      + replace (handled ++ r :: rs) with ((handled ++ [r]) ++ rs)
          by now rewrite <- List.app_assoc.
        eapply IH; [eapply Hstep; eassumption | exact Hf].
      + exfalso. clear -Hf. induction rs as [|r' rs' IH']; [discriminate | exact (IH' Hf)]. }
  intros st Hst. exact (H (roots nodes edges) [] level_init st H0 Hst).
Qed.

(** *** Levels are lengths of walks *)

Section Recorded.
Context (outE : gmap string (list string)) (Q : string -> nat -> Prop).
Hypothesis Q_child : forall u l w, Q u l -> child outE u w -> Q w (S l).

Lemma assignLevels_recorded : forall fuel nodeId level st st',
  recorded Q st -> Q nodeId level ->
  assignLevels fuel outE nodeId level st = Some st' -> recorded Q st'.
Proof.
  induction fuel as [|fuel IH]; intros nodeId level st st' [Hc Hq] Hn Hrun; [discriminate|].
  rewrite assignLevels_step in Hrun by exact Hc.
  destruct (skips nodeId level st); [injection Hrun as <-; now split|].
  assert (Hkids : forall cs s s3,
            (forall c, In c cs -> child outE nodeId c) -> recorded Q s ->
            visit_children fuel outE level cs (Some s) = Some s3 -> recorded Q s3).
  { induction cs as [|c cs IHc]; intros s s3 Hcs Hs Hv.
    - injection Hv as <-. exact Hs.
    - rewrite visit_children_cons in Hv.
      destruct (assignLevels fuel outE c (level + 1) s) as [s1|] eqn:E;
        [|rewrite visit_children_none in Hv; discriminate].
      apply (IHc s1 s3); [intros; apply Hcs; now right | | exact Hv].
      apply (IH c (level + 1) s s1 Hs); [|exact E].
      rewrite Nat.add_1_r. apply (Q_child nodeId); [exact Hn | apply Hcs; now left]. }
  destruct (visit_children _ _ _ _ _) as [st3|] eqn:Ev; [|discriminate].
  injection Hrun as <-.
  apply (Hkids (default [] (outE !! nodeId)) (enter nodeId level st) st3); [| |exact Ev].
  - intros c Hin. unfold child. destruct (outE !! nodeId) as [cs|]; [eauto | destruct Hin].
  - split; [now apply consistent_enter|].
    intros k l. unfold enter. cbn [nodeLevel].
    destruct (decide (nodeId = k)) as [<-|Hne].
    + rewrite lookup_insert_eq. intros [= <-]. exact Hn.
    + rewrite lookup_insert_ne by exact Hne. apply Hq.
Qed.

End Recorded.

End TraversalFacts.

Import TraversalFacts.

(** X21.  Every level the traversal records for a node is the length of a
    walk from one of the roots to that node along the edges; in particular a
    node without incoming edge is placed at level 0. *)
Theorem levels_are_walk_lengths (nodes : list Node) (edges : list Edge) :
  exists st levels,
    level_assignment (S (length nodes)) nodes edges = Some (st, levels) /\
    (forall k l, nodeLevel st !! k = Some l ->
       exists r, In r (roots nodes edges) /\ walk (outEdges nodes edges) (id r) l k) /\
    (forall n, In n nodes -> zero_in edges n -> levels !! id n = Some 0).
Proof.
  destruct (assign_roots_total nodes edges (S (length nodes)) ltac:(lia)) as (st & Hst & Hc).
  exists st, (default_levels nodes (nodeLevel st)).
  unfold level_assignment. rewrite Hst. split; [reflexivity|].
  set (outE := outEdges nodes edges).
  set (Q := fun k l => exists r, In r (roots nodes edges) /\ walk outE (id r) l k).
  assert (HQ : forall u l w, Q u l -> child outE u w -> Q w (S l)).
  { intros u l w (r & Hr & Hw) Hch. exists r. split; [exact Hr|]. econstructor; eassumption. }
  assert (Hrec : recorded Q st).
  { pose proof (assign_roots_inv
        (fun handled s => (forall r, In r handled -> In r (roots nodes edges)) -> recorded Q s)
        (S (length nodes)) nodes edges) as Hinv.
    apply (Hinv) with (st := st); [| |exact Hst|tauto].
    - intros _. split; [unfold consistent; cbn; apply dom_empty_L|].
      intros k l Hk. cbn in Hk. rewrite lookup_empty in Hk. discriminate.
    - intros handled root s s' IHs Hrun Hsub.
      eapply (assignLevels_recorded outE Q HQ); [| |exact Hrun].
      + apply IHs. intros r Hr. apply Hsub. apply in_or_app. now left.
      + exists root. split; [apply Hsub; apply in_or_app; right; now left | constructor]. }
  destruct Hrec as [_ Hq]. split; [exact Hq|].
  intros n Hin Hz. destruct (nodeLevel st !! id n) as [l|] eqn:El.
  - apply default_levels_keeps. rewrite El. f_equal.
    destruct (Hq _ _ El) as (r & _ & Hw). inversion Hw as [|l' u w Hw' Hch]; [reflexivity|].
    exfalso. apply children_are_edges in Hch as (e & He & _ & Ht). exact (Hz e He Ht).
  - now apply default_levels_fills.
Qed.

(** ** Levels along the edges of an acyclic graph *)

Module DagFacts.

Section Ranked.
Context (outE : gmap string (list string)) (rank : string -> nat).
Hypothesis rank_child : forall u w, child outE u w -> rank u < rank w.

Lemma below_refl st : below st st.
Proof. intros k l H. eauto. Qed.

Lemma below_trans s1 s2 s3 : below s1 s2 -> below s2 s3 -> below s1 s3.
Proof.
  intros H12 H23 k l H. destruct (H12 k l H) as (l2 & H2 & Hle).
  destruct (H23 k l2 H2) as (l3 & H3 & Hle'). exists l3. split; [exact H3 | lia].
Qed.

Lemma below_enter nodeId level st :
  (forall l, nodeLevel st !! nodeId = Some l -> l < level) -> below st (enter nodeId level st).
Proof.
  intros Hlt k l Hk. unfold enter. cbn [nodeLevel].
  destruct (decide (nodeId = k)) as [<-|Hne].
  - rewrite lookup_insert_eq. exists level. split; [reflexivity|].
    specialize (Hlt l Hk). lia.
  - rewrite lookup_insert_ne by exact Hne. eauto.
Qed.

Lemma deep_enter nodeId level st :
  deep outE st -> (forall l, nodeLevel st !! nodeId = Some l -> l < level) ->
  deep outE (enter nodeId level st).
Proof.
  intros Hd Hlt u w Hu Hs Hch. unfold enter in *. cbn [nodeLevel visited inStack] in *.
  assert (Hne : nodeId <> u) by set_solver.
  destruct (Hd u w) as (lu & lw & Hlu & Hlw & Hlt'); [set_solver | set_solver | exact Hch |].
  rewrite lookup_insert_ne by exact Hne.
  destruct (decide (nodeId = w)) as [<-|Hnw].
  - rewrite lookup_insert_eq. exists lu, level. repeat split; [exact Hlu|].
    specialize (Hlt lw Hlw). lia.
  - rewrite lookup_insert_ne by exact Hnw. eauto.
Qed.

Lemma assignLevels_deep : forall fuel nodeId level st st',
  consistent st -> deep outE st ->
  (forall a, a ∈ inStack st -> rank a < rank nodeId) ->
  assignLevels fuel outE nodeId level st = Some st' ->
  post outE nodeId level st st'.
Proof.
  induction fuel as [|fuel IH]; intros nodeId level st st' Hc Hd Hrk Hrun; [discriminate|].
  rewrite assignLevels_step in Hrun by exact Hc.
  destruct (skips nodeId level st) eqn:Esk.
  { injection Hrun as <-. apply skips_true in Esk as [Hs|(l & Hl & Hle)]; [| |exact Hc].
    - specialize (Hrk nodeId Hs). lia.
    - split; [exact Hc|]. split; [exact Hd|]. split; [reflexivity|].
      split; [apply below_refl|]. split; [intros a _; reflexivity|].
      exists l. split; assumption. }
  apply skips_false in Esk as [Hns Hlt]; [|exact Hc].
  set (stack := {[nodeId]} ∪ inStack st).
  assert (Hkids : forall cs s s3,
            (forall c, In c cs -> child outE nodeId c) ->
            consistent s -> deep outE s -> inStack s = stack ->
            visit_children fuel outE level cs (Some s) = Some s3 ->
            consistent s3 /\ deep outE s3 /\ inStack s3 = stack /\ below s s3 /\ frozen s s3 /\
            forall c, In c cs -> reached c (level + 1) s3).
  { induction cs as [|c cs IHc]; intros s s3 Hcs Hcs' Hds Hss Hv.
    - injection Hv as <-.
      split; [exact Hcs'|]. split; [exact Hds|]. split; [exact Hss|].
      split; [apply below_refl|]. split; [intros a _; reflexivity | intros ? []].
    - rewrite visit_children_cons in Hv.
      destruct (assignLevels fuel outE c (level + 1) s) as [s1|] eqn:E;
        [|rewrite visit_children_none in Hv; discriminate].
      destruct (IH c (level + 1) s s1 Hcs' Hds) as (Hc1 & Hd1 & Hs1 & Hb1 & Hf1 & Hr1);
        [|exact E|].
      { intros a Ha. rewrite Hss in Ha. unfold stack in Ha.
        assert (Hrc : rank nodeId < rank c) by (apply rank_child, Hcs; now left).
        apply elem_of_union in Ha as [Ha|Ha].
        - apply elem_of_singleton in Ha. now subst a.
        - specialize (Hrk a Ha). lia. }
      destruct (IHc s1 s3) as (Hc3 & Hd3 & Hs3 & Hb3 & Hf3 & Hr3);
        [intros; apply Hcs; now right | exact Hc1 | exact Hd1 | congruence | exact Hv |].
      split; [exact Hc3|]. split; [exact Hd3|]. split; [exact Hs3|].
      split; [|split].
      + eapply below_trans; eassumption.
      + intros a Ha. rewrite Hf3 by (rewrite Hs1; exact Ha). now apply Hf1.
      + intros c' [<-|Hin]; [|now apply Hr3].
        destruct Hr1 as (l1 & Hl1 & Hle1). destruct (Hb3 _ _ Hl1) as (l3 & Hl3 & Hle3).
        exists l3. split; [exact Hl3 | lia]. }
  destruct (visit_children _ _ _ _ _) as [st3|] eqn:Ev; [|discriminate].
  injection Hrun as <-.
  destruct (Hkids (default [] (outE !! nodeId)) (enter nodeId level st) st3)
    as (Hc3 & Hd3 & Hs3 & Hb3 & Hf3 & Hr3);
    [ | now apply consistent_enter | now apply deep_enter | reflexivity | exact Ev | ].
  { intros c Hin. unfold child. destruct (outE !! nodeId) as [cs|]; [eauto | destruct Hin]. }
  assert (Hown : nodeLevel st3 !! nodeId = Some level).
  { rewrite Hf3 by (unfold enter; cbn [inStack]; set_solver).
    unfold enter. cbn [nodeLevel]. apply lookup_insert_eq. }
  unfold post, leave. cbn [nodeLevel visited inStack]. split; [exact Hc3|]. split; [|split].
  - intros u w Hu Hs Hch. cbn [nodeLevel visited inStack] in *.
    destruct (decide (u = nodeId)) as [->|Hne].
    + destruct Hch as (cs & Hcs & Hw).
      destruct (Hr3 w) as (lw & Hlw & Hle); [rewrite Hcs; exact Hw|].
      exists level, lw. repeat split; [exact Hown | exact Hlw | lia].
    + apply Hd3; [exact Hu | rewrite Hs3; unfold stack; set_solver | exact Hch].
  - rewrite Hs3. unfold stack. set_solver.
  - split; [|split].
    + eapply below_trans; [apply below_enter; exact Hlt | exact Hb3].
    + intros a Ha. rewrite Hf3 by (unfold enter; cbn [inStack]; set_solver).
      unfold enter. cbn [nodeLevel]. apply lookup_insert_ne. set_solver.
    + exists level. split; [exact Hown | lia].
Qed.

End Ranked.

End DagFacts.

Import DagFacts.

(** X22.  In a graph without cycle whose edges join nodes of the graph, the
    traversal visits every node and puts the target of every edge on a
    deeper level than its source. *)
Theorem levels_increase_along_edges (nodes : list Node) (edges : list Edge)
    (rank : string -> nat) :
  closed_graph nodes edges ->
  ranked rank edges ->
  exists st levels,
    level_assignment (S (length nodes)) nodes edges = Some (st, levels) /\
    (forall n, In n nodes -> id n ∈ visited st) /\
    (forall e, In e edges ->
       exists ls lt, levels !! e_source e = Some ls /\ levels !! e_target e = Some lt /\
                     ls < lt).
Proof.
  intros Hcl Hrk.
  destruct (assign_roots_total nodes edges (S (length nodes)) ltac:(lia)) as (st & Hst & Hc).
  exists st, (default_levels nodes (nodeLevel st)).
  unfold level_assignment. rewrite Hst. split; [reflexivity|].
  set (outE := outEdges nodes edges).
  assert (Hrc : forall u w, child outE u w -> rank u < rank w).
  { intros u w Hch. apply children_are_edges in Hch as (e & He & <- & <-). now apply Hrk. }
  assert (Hinv : consistent st /\ deep outE st /\ inStack st = ∅ /\
                 forall r, In r (roots nodes edges) -> id r ∈ visited st).
  { pose proof (assign_roots_inv
        (fun handled s => consistent s /\ deep outE s /\ inStack s = ∅ /\
                          forall r, In r handled -> id r ∈ visited s)
        (S (length nodes)) nodes edges) as Hinv.
    apply Hinv; [| |exact Hst].
    - split; [unfold consistent; cbn; apply dom_empty_L|]. split; [|split; [reflexivity|]].
      + intros u w Hu. cbn in Hu. set_solver.
      + intros r [].
    - intros handled root s s' (Hcs & Hds & Hss & Hvs) Hrun.
      destruct (assignLevels_deep outE rank Hrc (S (length nodes)) (id root) 0 s s' Hcs Hds) as
        (Hc' & Hd' & Hs' & Hb' & _ & (l & Hl & _)); [|exact Hrun|].
      { intros a Ha. rewrite Hss in Ha. set_solver. }
      split; [exact Hc'|]. split; [exact Hd'|]. split; [congruence|].
      unfold consistent in *.
      intros r Hr. apply in_app_or in Hr as [Hr|[<-|[]]].
      + specialize (Hvs r Hr). rewrite <- Hcs in Hvs. apply elem_of_dom in Hvs as [lr Hlr].
        destruct (Hb' _ _ Hlr) as (lr' & Hlr' & _). rewrite <- Hc'. apply elem_of_dom. eauto.
      + rewrite <- Hc'. apply elem_of_dom. eauto. }
  destruct Hinv as (_ & Hdeep & Hstack & Hroots).
  assert (Hvis : forall bound n, rank (id n) < bound -> In n nodes -> id n ∈ visited st).
  { induction bound as [|bound IHm]; intros n Hlt Hin; [lia|].
    destruct (no_neighbours (inEdges nodes edges) n) eqn:E.
    - apply Hroots. unfold roots.
      assert (Hf : In n (List.filter (no_neighbours (inEdges nodes edges)) nodes))
        by (apply List.filter_In; now split).
      destruct (List.filter _ nodes) as [|r rs]; [destruct Hf | exact Hf].
    - assert (Hnz : ~ zero_in edges n)
        by (intros H; apply (zero_in_spec nodes edges n Hin) in H; congruence).
      assert (Hex : exists e, In e edges /\ e_target e = id n).
      { destruct (List.find (fun e => String.eqb (e_target e) (id n)) edges) as [e|] eqn:Ef.
        - apply List.find_some in Ef as [He Ht]. apply String.eqb_eq in Ht. eauto.
        - exfalso. apply Hnz. intros e He Heq.
          pose proof (List.find_none _ _ Ef e He) as Hn. cbn in Hn.
          rewrite Heq, String.eqb_refl in Hn. discriminate. }
      destruct Hex as (e & He & Ht).
      destruct (Hcl e He) as [Hsrc _].
      pose proof Hsrc as Hsrc'. apply List.in_map_iff in Hsrc' as (p & Hp & Hpin).
      assert (Hpv : id p ∈ visited st).
      { apply (IHm p); [|exact Hpin]. specialize (Hrk e He). rewrite <- Hp, Ht in Hrk. lia. }
      destruct (Hdeep (id p) (id n)) as (lu & lw & _ & Hlw & _);
        [exact Hpv | rewrite Hstack; set_solver | |].
      + rewrite Hp, <- Ht. now apply edges_are_children.
      + unfold consistent in Hc. rewrite <- Hc. apply elem_of_dom. eauto. }
  split; [intros n Hin; apply (Hvis (S (rank (id n)))); [lia | exact Hin]|].
  intros e He. destruct (Hcl e He) as [Hsrc _].
  pose proof Hsrc as Hsrc'. apply List.in_map_iff in Hsrc' as (p & Hp & Hpin).
  destruct (Hdeep (e_source e) (e_target e)) as (ls & lt & Hls & Hlt & Hlt');
    [rewrite <- Hp; apply (Hvis (S (rank (id p)))); [lia | exact Hpin] | rewrite Hstack; set_solver
    | now apply edges_are_children |].
  exists ls, lt. split; [|split; [|exact Hlt']]; now apply default_levels_keeps.
Qed.

Lemma levels_increase_along_edges_witness :
  exists st levels,
    level_assignment 4 diamond_nodes diamond_edges = Some (st, levels) /\
    (levels !! "A", levels !! "B", levels !! "C") = (Some 0, Some 1, Some 2).
Proof.
  destruct (levels_increase_along_edges diamond_nodes diamond_edges diamond_rank)
    as (st & levels & Hrun & _ & Hup).
  - intros e [<-|[<-|[<-|[]]]]; cbn; tauto.
  - intros e [<-|[<-|[<-|[]]]]; cbn; lia.
  - exists st, levels. split; [exact Hrun|].
    vm_compute in Hrun. injection Hrun as _ <-. vm_compute. reflexivity.
Defined.

(** ** The number of levels *)

Module BoundFacts.

Lemma bounded_enter nodeId st :
  bounded st -> nodeId ∉ inStack st -> bounded (enter nodeId (size (inStack st)) st).
Proof.
  intros [Hsub Hlv] Hns. unfold bounded, enter. cbn [nodeLevel visited inStack].
  split; [set_solver|]. intros k l.
  assert (Hsz : size ({[nodeId]} ∪ inStack st) = S (size (inStack st))).
  { rewrite size_union by set_solver. now rewrite size_singleton. }
  destruct (decide (nodeId = k)) as [<-|Hne].
  - rewrite lookup_insert_eq. intros [= <-].
    pose proof (subseteq_size ({[nodeId]} ∪ inStack st) ({[nodeId]} ∪ visited st)
                  ltac:(set_solver)) as Hle.
    lia.
  - rewrite lookup_insert_ne by exact Hne. intros Hk. specialize (Hlv k l Hk).
    pose proof (subseteq_size (visited st) ({[nodeId]} ∪ visited st) ltac:(set_solver)).
    lia.
Qed.

(** A call at the level that is the height of the stack keeps the levels
    under the number of visited nodes. *)
Lemma assignLevels_bounded outE : forall fuel nodeId st st',
  consistent st -> bounded st ->
  assignLevels fuel outE nodeId (size (inStack st)) st = Some st' ->
  consistent st' /\ bounded st' /\ inStack st' = inStack st /\ visited st ⊆ visited st'.
Proof.
  induction fuel as [|fuel IH]; intros nodeId st st' Hc Hb Hrun; [discriminate|].
  rewrite assignLevels_step in Hrun by exact Hc.
  destruct (skips nodeId (size (inStack st)) st) eqn:Esk.
  { injection Hrun as <-. split; [exact Hc|]. split; [exact Hb|]. split; reflexivity. }
  apply skips_false in Esk as [Hns _]; [|exact Hc].
  set (stack := {[nodeId]} ∪ inStack st).
  assert (Hsz : size stack = size (inStack st) + 1).
  { unfold stack. rewrite size_union by set_solver. rewrite size_singleton. lia. }
  assert (Hkids : forall cs s s3,
            consistent s -> bounded s -> inStack s = stack ->
            visit_children fuel outE (size (inStack st)) cs (Some s) = Some s3 ->
            consistent s3 /\ bounded s3 /\ inStack s3 = stack /\ visited s ⊆ visited s3).
  { induction cs as [|c cs IHc]; intros s s3 Hcs Hbs Hss Hv.
    - injection Hv as <-. split; [exact Hcs|]. split; [exact Hbs|]. split; [exact Hss|].
      reflexivity.
    - rewrite visit_children_cons in Hv.
      destruct (assignLevels fuel outE c (size (inStack st) + 1) s) as [s1|] eqn:E;
        [|rewrite visit_children_none in Hv; discriminate].
      rewrite <- Hsz, <- Hss in E.
      destruct (IH c s s1 Hcs Hbs E) as (Hc1 & Hb1 & Hs1 & Hv1).
      destruct (IHc s1 s3 Hc1 Hb1 ltac:(congruence) Hv) as (Hc3 & Hb3 & Hs3 & Hv3).
      split; [exact Hc3|]. split; [exact Hb3|]. split; [exact Hs3|].
      etransitivity; eassumption. }
  destruct (visit_children _ _ _ _ _) as [st3|] eqn:Ev; [|discriminate].
  injection Hrun as <-.
  destruct (Hkids (default [] (outE !! nodeId)) (enter nodeId (size (inStack st)) st) st3)
    as (Hc3 & [Hsub3 Hlv3] & Hs3 & Hv3);
    [now apply consistent_enter | now apply bounded_enter | reflexivity | exact Ev |].
  unfold bounded, consistent, leave, enter in *. cbn [nodeLevel visited inStack] in *.
  split; [exact Hc3|]. split; [split; [set_solver | exact Hlv3]|].
  split; [rewrite Hs3; unfold stack; set_solver | set_solver].
Qed.

Lemma roots_are_nodes nodes edges r : In r (roots nodes edges) -> In r nodes.
Proof.
  unfold roots. destruct (List.filter _ nodes) as [|r0 rs] eqn:E.
  - destruct nodes as [|first ns]; [intros [] | intros [<-|[]]; now left].
  - rewrite <- E. intros H. now apply List.filter_In in H as [H _].
Qed.

End BoundFacts.

Import BoundFacts.

(** X23.  When every edge joins two of the nodes, the traversal gives every
    node a level smaller than the number of nodes: the layout never has
    more levels than nodes, cycles in the graph or not. *)
Theorem levels_below_node_count (nodes : list Node) (edges : list Edge) :
  closed_graph nodes edges ->
  exists st levels,
    level_assignment (S (length nodes)) nodes edges = Some (st, levels) /\
    forall n, In n nodes -> exists l, levels !! id n = Some l /\ l < length nodes.
Proof.
  intros Hcl.
  destruct (assign_roots_total nodes edges (S (length nodes)) ltac:(lia)) as (st & Hst & Hc).
  exists st, (default_levels nodes (nodeLevel st)).
  unfold level_assignment. rewrite Hst. split; [reflexivity|].
  set (outE := outEdges nodes edges).
  assert (Hb : bounded st /\ inStack st = ∅).
  { pose proof (assign_roots_inv
        (fun _ s => consistent s /\ bounded s /\ inStack s = ∅)
        (S (length nodes)) nodes edges) as Hinv.
    destruct (Hinv) with (st := st) as (_ & Hb & Hs); [| |exact Hst|now split].
    - split; [unfold consistent; cbn; apply dom_empty_L|].
      split; [|reflexivity]. split; [reflexivity|].
      intros k l Hk. cbn in Hk. rewrite lookup_empty in Hk. discriminate.
    - intros handled root s s' (Hcs & Hbs & Hss) Hrun.
      replace 0 with (size (inStack s)) in Hrun by (rewrite Hss; apply size_empty).
      destruct (assignLevels_bounded _ _ _ _ _ Hcs Hbs Hrun) as (Hc' & Hb' & Hs' & _).
      split; [exact Hc'|]. split; [exact Hb' | congruence]. }
  destruct Hb as [[_ Hlv] _].
  assert (Hin : recorded (fun k _ => In k (List.map id nodes)) st).
  { pose proof (assign_roots_inv
        (fun handled s => (forall r, In r handled -> In r (roots nodes edges)) ->
                          recorded (fun k _ => In k (List.map id nodes)) s)
        (S (length nodes)) nodes edges) as Hinv.
    apply Hinv with (st := st); [| |exact Hst|tauto].
    - intros _. split; [unfold consistent; cbn; apply dom_empty_L|].
      intros k l Hk. cbn in Hk. rewrite lookup_empty in Hk. discriminate.
    - intros handled root s s' IHs Hrun Hsub.
      eapply (assignLevels_recorded outE (fun k _ => In k (List.map id nodes)));
        [| | |exact Hrun].
      + intros u l w _ Hch. apply children_are_edges in Hch as (e & He & _ & <-).
        now apply Hcl.
      + apply IHs. intros r Hr. apply Hsub. apply in_or_app. now left.
      + apply List.in_map, (roots_are_nodes nodes edges), Hsub, in_or_app.
        right. now left. }
  destruct Hin as [_ Hin].
  assert (Hsize : size (visited st) <= length nodes).
  { etransitivity; [|etransitivity; [apply (size_list_to_set_le (List.map id nodes))|]].
    - apply subseteq_size. intros k Hk. unfold consistent in Hc. rewrite <- Hc in Hk.
      apply elem_of_dom in Hk as [l Hk]. apply elem_of_list_to_set, list_elem_of_In.
      exact (Hin k l Hk).
    - now rewrite List.length_map. }
  intros n Hn. destruct (nodeLevel st !! id n) as [l|] eqn:El.
  - exists l. split; [now apply default_levels_keeps|]. specialize (Hlv _ _ El). lia.
  - exists 0. split; [now apply default_levels_fills|].
    destruct nodes; [destruct Hn | cbn; lia].
Qed.

Lemma levels_below_node_count_witness :
  exists st levels,
    level_assignment 3 cycle_nodes cycle_edges = Some (st, levels) /\
    forall n, In n cycle_nodes -> exists l, levels !! id n = Some l /\ l < 2.
Proof.
  apply (levels_below_node_count cycle_nodes cycle_edges).
  intros e [<-|[<-|[]]]; cbn; tauto.
Defined.

(** ** The sequence layout *)

Module SequenceFacts.

Import Emit.

Lemma participant_positions_some ps : forall k positions name,
  is_Some (participant_positions k ps positions !! name) <->
  In name (List.map p_id ps) \/ is_Some (positions !! name).
Proof.
  induction ps as [|p ps IH]; intros k positions name; cbn [participant_positions List.map].
  - cbn. tauto.
  - rewrite IH. destruct (decide (p_id p = name)) as [<-|Hne].
    + rewrite lookup_insert_eq. cbn. intuition eauto.
    + rewrite lookup_insert_ne by exact Hne. cbn. intuition congruence.
Qed.

Lemma participant_positions_box ps : forall k positions name b,
  (forall n b', positions !! n = Some b' -> exists i, b' = participant_box i) ->
  participant_positions k ps positions !! name = Some b ->
  exists i, b = participant_box i.
Proof.
  induction ps as [|p ps IH]; intros k positions name b Hall; cbn [participant_positions].
  - apply Hall.
  - apply IH. intros n b'. destruct (decide (p_id p = n)) as [<-|Hne].
    + rewrite lookup_insert_eq. intros [= <-]. eauto.
    + rewrite lookup_insert_ne by exact Hne. apply Hall.
Qed.

(** The cells of the messages, by the place of the message in the list. *)
Lemma message_lines_spec positions ms : forall k line,
  In line (message_lines k ms positions) <->
  exists i msg fromPos toPos,
    ms !! i = Some msg /\ positions !! msg_from msg = Some fromPos /\
    positions !! msg_to msg = Some toPos /\
    line = {| ml_index := k + i;
              ml_y := 40 + 40 + (k + i + 1) * 60;
              ml_from := b_x fromPos + b_width fromPos / 2;
              ml_to := b_x toPos + b_width toPos / 2;
              ml_dashed := match msg_type msg with dashed => true | _ => false end |}.
Proof.
  induction ms as [|m0 ms IH]; intros k line; cbn [message_lines].
  - split; [intros [] | intros (i & msg & ? & ? & H & _); destruct i; discriminate].
  - assert (Hrest : In line (message_lines (S k) ms positions) <->
                    exists i msg fromPos toPos,
                      (m0 :: ms) !! S i = Some msg /\
                      positions !! msg_from msg = Some fromPos /\
                      positions !! msg_to msg = Some toPos /\
                      line = {| ml_index := k + S i;
                                ml_y := 40 + 40 + (k + S i + 1) * 60;
                                ml_from := b_x fromPos + b_width fromPos / 2;
                                ml_to := b_x toPos + b_width toPos / 2;
                                ml_dashed := match msg_type msg with
                                             | dashed => true
                                             | _ => false
                                             end |}).
    { rewrite IH. split; intros (i & msg & f & t & H1 & H2 & H3 & ->);
        exists i, msg, f, t; (split; [exact H1|]); (split; [exact H2|]);
        (split; [exact H3|]); now rewrite <- ?Nat.add_succ_comm. }
    assert (Hsplit : (exists i msg fromPos toPos,
               (m0 :: ms) !! i = Some msg /\ positions !! msg_from msg = Some fromPos /\
               positions !! msg_to msg = Some toPos /\
               line = {| ml_index := k + i;
                         ml_y := 40 + 40 + (k + i + 1) * 60;
                         ml_from := b_x fromPos + b_width fromPos / 2;
                         ml_to := b_x toPos + b_width toPos / 2;
                         ml_dashed := match msg_type msg with
                                      | dashed => true
                                      | _ => false
                                      end |}) <->
            (exists fromPos toPos,
               positions !! msg_from m0 = Some fromPos /\
               positions !! msg_to m0 = Some toPos /\
               line = {| ml_index := k;
                         ml_y := 40 + 40 + (k + 1) * 60;
                         ml_from := b_x fromPos + b_width fromPos / 2;
                         ml_to := b_x toPos + b_width toPos / 2;
                         ml_dashed := match msg_type m0 with
                                      | dashed => true
                                      | _ => false
                                      end |}) \/
            In line (message_lines (S k) ms positions)).
    { rewrite Hrest. split.
      - intros ([|i] & msg & f & t & H1 & H2 & H3 & H4).
        + left. injection H1 as <-. exists f, t. rewrite Nat.add_0_r in H4. eauto.
        + right. exists i, msg, f, t. eauto.
      - intros [(f & t & H2 & H3 & H4)|(i & msg & f & t & H)].
        + exists 0, m0, f, t. rewrite Nat.add_0_r. eauto.
        + exists (S i), msg, f, t. exact H. }
    rewrite Hsplit.
    destruct (positions !! msg_from m0) as [f|] eqn:Ef;
      [destruct (positions !! msg_to m0) as [t|] eqn:Et|].
    + cbn [In]. split.
      * intros [<-|H]; [left; exists f, t; eauto | now right].
      * intros [(f' & t' & [= <-] & [= <-] & ->)|H]; [now left | now right].
    + split; [now right | intros [(f' & t' & _ & H & _)|H]; [discriminate | exact H]].
    + split; [now right | intros [(f' & t' & H & _)|H]; [discriminate | exact H]].
Qed.

End SequenceFacts.

Import SequenceFacts.

(** X24.  The sequence converter draws a message exactly when both of its
    ends are declared participants.  Every arrow it draws runs between the
    lifelines of the two participants of its message, strictly between the
    top and the bottom of the lifelines, and no two arrows lie at the same
    height. *)
Theorem messages_between_lifelines (participants : list Participant)
    (messages : list Message) :
  let positions := fst (Emit.sequence_layout participants messages) in
  let lines := snd (Emit.sequence_layout participants messages) in
  (forall i msg, messages !! i = Some msg ->
     (exists line, In line lines /\ Emit.ml_index line = i) <->
     (is_participant participants (msg_from msg) /\
      is_participant participants (msg_to msg))) /\
  (forall line, In line lines ->
     exists msg fromPos toPos,
       messages !! Emit.ml_index line = Some msg /\
       positions !! msg_from msg = Some fromPos /\
       positions !! msg_to msg = Some toPos /\
       on_lifeline fromPos messages (Emit.ml_from line) (Emit.ml_y line) /\
       on_lifeline toPos messages (Emit.ml_to line) (Emit.ml_y line)) /\
  (forall line line', In line lines -> In line' lines ->
     Emit.ml_y line = Emit.ml_y line' -> line = line').
Proof.
  unfold Emit.sequence_layout. cbn [fst snd].
  set (positions := Emit.participant_positions 0 participants ∅).
  assert (Hdom : forall name, is_Some (positions !! name) <-> is_participant participants name).
  { intros name. unfold positions, is_participant. rewrite participant_positions_some.
    rewrite lookup_empty. split; [intros [H|[? H]]; [exact H | discriminate] | now left]. }
  assert (Hbox : forall name b, positions !! name = Some b ->
                                exists i, b = Emit.participant_box i).
  { intros name b. apply participant_positions_box. intros n b'.
    rewrite lookup_empty. discriminate. }
  split; [|split].
  - intros i msg Hi. rewrite <- !Hdom. split.
    + intros (line & Hin & Hidx).
      apply message_lines_spec in Hin as (j & msg' & f & t & Hj & Hf & Ht & ->).
      cbn in Hidx. subst j. rewrite Hi in Hj. injection Hj as <-. eauto.
    + intros [[f Hf] [t Ht]]. eexists. split.
      * apply message_lines_spec. exists i, msg, f, t. eauto.
      * reflexivity.
  - intros line Hin.
    apply message_lines_spec in Hin as (j & msg & f & t & Hj & Hf & Ht & ->).
    exists msg, f, t. cbn [Emit.ml_index Emit.ml_from Emit.ml_to Emit.ml_y].
    split; [exact Hj|]. split; [exact Hf|]. split; [exact Ht|].
    apply lookup_lt_Some in Hj.
    destruct (Hbox _ _ Hf) as [a ->]. destruct (Hbox _ _ Ht) as [b ->].
    unfold on_lifeline, Emit.lifeline, Emit.lifelineHeight, Emit.participant_box.
    cbn [Emit.b_x Emit.b_y Emit.b_width Emit.b_height].
    split; (split; [reflexivity | nia]).
  - intros line line' Hin Hin' Hy.
    apply message_lines_spec in Hin as (j & msg & f & t & Hj & Hf & Ht & ->).
    apply message_lines_spec in Hin' as (j' & msg' & f' & t' & Hj' & Hf' & Ht' & ->).
    cbn [Emit.ml_y] in Hy. assert (j = j') by lia. subst j'.
    rewrite Hj in Hj'. injection Hj' as <-.
    rewrite Hf in Hf'. injection Hf' as <-. rewrite Ht in Ht'. injection Ht' as <-.
    reflexivity.
Qed.

(** ** The entity grids *)

Module GridFacts.

Import Emit ERConverter.

(** Two cells of a grid whose boxes fit into the gaps. *)
Lemma cells_apart sx sy gx gy w h1 h2 c1 r1 c2 r2 :
  w <= gx -> h1 <= gy -> h2 <= gy -> c1 <> c2 \/ r1 <> r2 ->
  apart {| b_x := sx + c1 * gx; b_y := sy + r1 * gy; b_width := w; b_height := h1 |}
        {| b_x := sx + c2 * gx; b_y := sy + r2 * gy; b_width := w; b_height := h2 |}.
Proof.
  intros Hw H1 H2 Hne. unfold apart. cbn [b_x b_y b_width b_height].
  destruct (Nat.lt_trichotomy r1 r2) as [Hr|[Hr|Hr]];
    [right; right; left; nia | | right; right; right; nia].
  destruct (Nat.lt_trichotomy c1 c2) as [Hc|[Hc|Hc]];
    [left; nia | lia | right; left; nia].
Qed.

Lemma cell_of_index cols k i j r c r' c' :
  k + i = cols * r + c -> c < cols -> k + j = cols * r' + c' -> c' < cols ->
  i <> j -> c <> c' \/ r <> r'.
Proof.
  intros Hi Hc Hj Hc' Hne. destruct (decide (c = c')) as [->|]; [|now left].
  right. intros ->. lia.
Qed.

(** *** The grid of [drawio-converter.js] *)

Lemma entity_positions_lookup cols es : forall k positions key b,
  entity_positions cols k es positions !! key = Some b ->
  positions !! key = Some b \/
  exists i e, es !! i = Some e /\ ent_id e = key /\ b = entity_box cols (k + i) e.
Proof.
  induction es as [|a es IH]; intros k positions key b H; cbn [entity_positions] in H.
  - now left.
  - apply IH in H as [H|(i & e & Hi & He & ->)].
    + destruct (decide (ent_id a = key)) as [Heq|Hne].
      * rewrite <- Heq, lookup_insert_eq in H. injection H as <-.
        right. exists 0, a. rewrite Nat.add_0_r. eauto.
      * rewrite lookup_insert_ne in H by exact Hne. now left.
    + right. exists (S i), e. rewrite <- Nat.add_succ_comm. eauto.
Qed.

Lemma entity_positions_some cols es : forall k positions key,
  In key (List.map ent_id es) \/ is_Some (positions !! key) ->
  is_Some (entity_positions cols k es positions !! key).
Proof.
  induction es as [|a es IH]; intros k positions key H; cbn [entity_positions].
  - destruct H as [[]|H]; exact H.
  - apply IH. destruct H as [[<-|H]|H]; [right | now left | right].
    + rewrite lookup_insert_eq. eauto.
    + destruct (decide (ent_id a = key)) as [<-|Hne];
        [rewrite lookup_insert_eq; eauto | now rewrite lookup_insert_ne].
Qed.

(** *** The layouts of [er-converter.js] *)

Lemma grid_step_positions cols st a :
  g_positions (grid_step cols st a) =
  <[ent_id a := {| b_x := 100 + g_col st * 300; b_y := 60 + g_row st * 250;
                   b_width := 180; b_height := getEntityHeight a |}]> (g_positions st).
Proof. unfold grid_step. now destruct (cols <=? S (g_col st)). Qed.

Lemma grid_step_cell cols st a k :
  k = cols * g_row st + g_col st -> g_col st < cols ->
  S k = cols * g_row (grid_step cols st a) + g_col (grid_step cols st a) /\
  g_col (grid_step cols st a) < cols.
Proof.
  intros Hk Hc. unfold grid_step.
  destruct (cols <=? S (g_col st)) eqn:E; cbn [g_row g_col].
  - apply Nat.leb_le in E. split; nia.
  - apply Nat.leb_gt in E. split; lia.
Qed.

Lemma grid_lookup cols es : forall st k key b,
  k = cols * g_row st + g_col st -> g_col st < cols ->
  g_positions (List.fold_left (grid_step cols) es st) !! key = Some b ->
  g_positions st !! key = Some b \/
  exists i e r c,
    es !! i = Some e /\ ent_id e = key /\ k + i = cols * r + c /\ c < cols /\
    b = {| b_x := 100 + c * 300; b_y := 60 + r * 250;
           b_width := 180; b_height := getEntityHeight e |}.
Proof.
  induction es as [|a es IH]; intros st k key b Hk Hc H; cbn [List.fold_left] in H.
  - now left.
  - destruct (grid_step_cell cols st a k Hk Hc) as [Hk' Hc'].
    apply (IH _ (S k)) in H as [H|(i & e & r & c & Hi & He & Hcell & Hlt & ->)];
      [| |exact Hk'|exact Hc'].
    + rewrite grid_step_positions in H.
      destruct (decide (ent_id a = key)) as [Heq|Hne].
      * rewrite <- Heq, lookup_insert_eq in H. injection H as <-.
        right. exists 0, a, (g_row st), (g_col st). rewrite Nat.add_0_r. eauto 6.
      * rewrite lookup_insert_ne in H by exact Hne. now left.
    + right. exists (S i), e, r, c. rewrite <- Nat.add_succ_comm. eauto 6.
Qed.

Lemma grid_some cols es : forall st key,
  In key (List.map ent_id es) \/ is_Some (g_positions st !! key) ->
  is_Some (g_positions (List.fold_left (grid_step cols) es st) !! key).
Proof.
  induction es as [|a es IH]; intros st key H; cbn [List.fold_left].
  - destruct H as [[]|H]; exact H.
  - apply IH. rewrite grid_step_positions. destruct H as [[<-|H]|H]; [right | now left | right].
    + rewrite lookup_insert_eq. eauto.
    + destruct (decide (ent_id a = key)) as [<-|Hne];
        [rewrite lookup_insert_eq; eauto | now rewrite lookup_insert_ne].
Qed.

Lemma grid_cols_pos n : 0 < n -> 0 < grid_cols n.
Proof.
  intros Hn. unfold grid_cols.
  destruct (n =? 4); [lia|]. destruct (n <=? 3); [exact Hn|].
  destruct (Nat.sqrt_up n <? 2) eqn:E; [lia|]. apply Nat.ltb_ge in E. lia.
Qed.

Lemma place_others_lookup others : forall k positions key b,
  place_others k others positions !! key = Some b ->
  positions !! key = Some b \/
  exists i e, others !! i = Some e /\ ent_id e = key /\
              b = {| b_x := 100 + (k + i) * 300 * 2; b_y := 60;
                     b_width := 180; b_height := getEntityHeight e |}.
Proof.
  induction others as [|a es IH]; intros k positions key b H; cbn [place_others] in H.
  - now left.
  - apply IH in H as [H|(i & e & Hi & He & ->)].
    + destruct (decide (ent_id a = key)) as [Heq|Hne].
      * rewrite <- Heq, lookup_insert_eq in H. injection H as <-.
        right. exists 0, a. rewrite Nat.add_0_r. eauto.
      * rewrite lookup_insert_ne in H by exact Hne. now left.
    + right. exists (S i), e. rewrite <- Nat.add_succ_comm. eauto.
Qed.

Lemma place_others_some others : forall k positions key,
  In key (List.map ent_id others) \/ is_Some (positions !! key) ->
  is_Some (place_others k others positions !! key).
Proof.
  induction others as [|a es IH]; intros k positions key H; cbn [place_others].
  - destruct H as [[]|H]; exact H.
  - apply IH. destruct H as [[<-|H]|H]; [right | now left | right].
    + rewrite lookup_insert_eq. eauto.
    + destruct (decide (ent_id a = key)) as [<-|Hne];
        [rewrite lookup_insert_eq; eauto | now rewrite lookup_insert_ne].
Qed.

Lemma getEntityHeight_fits e : length (ent_attributes e) <= 8 -> getEntityHeight e <= 250.
Proof. unfold getEntityHeight. lia. Qed.

Lemma lookup_In {A : Type} (l : list A) i x : l !! i = Some x -> In x l.
Proof. intros H. apply list_elem_of_In, list_elem_of_lookup. eauto. Qed.

End GridFacts.

Import GridFacts.

(** X25.  The entity grid of the general converter: when no entity has more
    than three attributes, the boxes of two entities with different ids do
    not overlap. *)
Theorem er_grid_boxes_apart (entities : list Entity) (a b : Entity) :
  (forall e, In e entities -> length (ent_attributes e) <= 3) ->
  In a entities -> In b entities -> ent_id a <> ent_id b ->
  exists boxa boxb,
    Emit.er_positions entities !! ent_id a = Some boxa /\
    Emit.er_positions entities !! ent_id b = Some boxb /\
    apart boxa boxb.
Proof.
  intros Hattr Ha Hb Hne. unfold Emit.er_positions.
  set (cols := Nat.sqrt_up (length entities)).
  assert (Hcols : 0 < cols).
  { apply Nat.sqrt_up_pos. destruct entities; [destruct Ha | cbn; lia]. }
  destruct (entity_positions_some cols entities 0 ∅ (ent_id a)) as [boxa Hboxa];
    [left; now apply List.in_map|].
  destruct (entity_positions_some cols entities 0 ∅ (ent_id b)) as [boxb Hboxb];
    [left; now apply List.in_map|].
  exists boxa, boxb. split; [exact Hboxa|]. split; [exact Hboxb|].
  apply entity_positions_lookup in Hboxa as [H|(i & ea & Hi & Hea & ->)];
    [rewrite lookup_empty in H; discriminate|].
  apply entity_positions_lookup in Hboxb as [H|(j & eb & Hj & Heb & ->)];
    [rewrite lookup_empty in H; discriminate|].
  assert (Hij : i <> j) by (intros ->; congruence).
  pose proof (Hattr ea (lookup_In _ _ _ Hi)) as Hha.
  pose proof (Hattr eb (lookup_In _ _ _ Hj)) as Hhb.
  rewrite !Nat.add_0_l. unfold Emit.entity_box.
  apply (cells_apart 100 40 250 150 160 _ _ (i mod cols) (i / cols) (j mod cols) (j / cols));
    [lia | lia | lia |].
  apply (cell_of_index cols 0 i j (i / cols) (i mod cols) (j / cols) (j mod cols));
    [apply Nat.div_mod_eq | apply Nat.mod_upper_bound; lia
    | apply Nat.div_mod_eq | apply Nat.mod_upper_bound; lia | exact Hij].
Qed.

Lemma er_grid_boxes_apart_witness :
  exists boxa boxb,
    Emit.er_positions [wide_entity "A" 3; wide_entity "B" 0; wide_entity "C" 1] !! "A"
      = Some boxa /\
    Emit.er_positions [wide_entity "A" 3; wide_entity "B" 0; wide_entity "C" 1] !! "C"
      = Some boxb /\
    apart boxa boxb.
Proof.
  apply (er_grid_boxes_apart [wide_entity "A" 3; wide_entity "B" 0; wide_entity "C" 1]
           (wide_entity "A" 3) (wide_entity "C" 1)).
  - intros e [<-|[<-|[<-|[]]]]; cbn; lia.
  - simpl. tauto.
  - simpl. tauto.
  - discriminate.
Defined.

(** X26.  The layout of the entity-relationship converter: when no entity
    has more than eight attributes, the boxes of two entities with different
    ids do not overlap, in the grid as in the arrangement around a junction
    table. *)
Theorem er_layout_boxes_apart (entities : list Entity) (relationships : list Relationship)
    (a b : Entity) :
  (forall e, In e entities -> length (ent_attributes e) <= 8) ->
  In a entities -> In b entities -> ent_id a <> ent_id b ->
  exists boxa boxb,
    ERConverter.calculateERPositions entities relationships !! ent_id a = Some boxa /\
    ERConverter.calculateERPositions entities relationships !! ent_id b = Some boxb /\
    apart boxa boxb.
Proof.
  intros Hattr Ha Hb Hne. unfold ERConverter.calculateERPositions. cbv zeta.
  pose (targeted := fun e : Entity =>
          default 0 (ERConverter.targetCount relationships !! ent_id e)).
  pose (junctionTables := List.filter (fun e => 2 <=? targeted e) entities).
  pose (mainEntities := List.filter (fun e => targeted e <? 2) entities).
  assert (Hgrid :
    exists boxa boxb,
      ERConverter.g_positions
        (List.fold_left (ERConverter.grid_step (ERConverter.grid_cols (length entities)))
           entities {| ERConverter.g_positions := ∅; ERConverter.g_row := 0;
                       ERConverter.g_col := 0 |}) !! ent_id a = Some boxa /\
      ERConverter.g_positions
        (List.fold_left (ERConverter.grid_step (ERConverter.grid_cols (length entities)))
           entities {| ERConverter.g_positions := ∅; ERConverter.g_row := 0;
                       ERConverter.g_col := 0 |}) !! ent_id b = Some boxb /\
      apart boxa boxb).
  { set (cols := ERConverter.grid_cols (length entities)).
    set (st0 := {| ERConverter.g_positions := ∅; ERConverter.g_row := 0;
                   ERConverter.g_col := 0 |}).
    assert (Hcols : 0 < cols).
    { apply grid_cols_pos. destruct entities; [destruct Ha | cbn; lia]. }
    destruct (grid_some cols entities st0 (ent_id a)) as [boxa Hboxa];
      [left; now apply List.in_map|].
    destruct (grid_some cols entities st0 (ent_id b)) as [boxb Hboxb];
      [left; now apply List.in_map|].
    exists boxa, boxb. split; [exact Hboxa|]. split; [exact Hboxb|].
    apply (grid_lookup cols entities st0 0) in Hboxa
      as [H|(i & ea & r & c & Hi & Hea & Hcell & Hc & ->)];
      [unfold st0 in H; cbn [ERConverter.g_positions] in H; rewrite lookup_empty in H;
       discriminate | | cbn; lia | exact Hcols].
    apply (grid_lookup cols entities st0 0) in Hboxb
      as [H|(j & eb & r' & c' & Hj & Heb & Hcell' & Hc' & ->)];
      [unfold st0 in H; cbn [ERConverter.g_positions] in H; rewrite lookup_empty in H;
       discriminate | | cbn; lia | exact Hcols].
    assert (Hij : i <> j) by (intros ->; congruence).
    apply cells_apart;
      [lia | apply getEntityHeight_fits, Hattr, (lookup_In _ _ _ Hi)
      | apply getEntityHeight_fits, Hattr, (lookup_In _ _ _ Hj) |].
    exact (cell_of_index cols 0 i j r c r' c' Hcell Hc Hcell' Hc' Hij). }
  match goal with
  | |- context [if ?c then _ else _] => destruct c eqn:Especial
  end; [|exact Hgrid].
  match goal with
  | |- context [match ?l with [] => _ | _ :: _ => _ end] =>
      destruct l as [|junction rest] eqn:Ejt
  end; [exact Hgrid|].
  change (junctionTables = junction :: rest) in Ejt.
  apply andb_prop in Especial as [_ Hone]. apply Nat.eqb_eq in Hone.
  destruct rest; [|discriminate]. clear Hone.
  set (jbox := {| Emit.b_x := 100 + 300; Emit.b_y := 60 + 250; Emit.b_width := 180;
                  Emit.b_height := ERConverter.getEntityHeight junction |}).
  assert (Hjt : 2 <= targeted junction).
  { assert (Hin : In junction junctionTables) by (rewrite Ejt; now left).
    apply List.filter_In in Hin as [_ H]. now apply Nat.leb_le in H. }
  assert (Hplace : forall e, In e entities ->
            exists box, ERConverter.place_others 0 mainEntities (<[ent_id junction := jbox]> ∅)
                          !! ent_id e = Some box /\
              ((ent_id e = ent_id junction /\ box = jbox) \/
               (ent_id e <> ent_id junction /\
                exists i e', mainEntities !! i = Some e' /\ ent_id e' = ent_id e /\
                  box = {| Emit.b_x := 100 + (0 + i) * 300 * 2; Emit.b_y := 60;
                           Emit.b_width := 180;
                           Emit.b_height := ERConverter.getEntityHeight e' |}))).
  { intros e He.
    assert (Hsome : is_Some (ERConverter.place_others 0 mainEntities
                               (<[ent_id junction := jbox]> ∅) !! ent_id e)).
    { apply place_others_some. destruct (targeted e <? 2) eqn:Et.
      - left. apply List.in_map. apply List.filter_In. now split.
      - right. assert (Hin : In e junctionTables).
        { apply List.filter_In. split; [exact He|].
          apply Nat.ltb_ge in Et. now apply Nat.leb_le. }
        rewrite Ejt in Hin. destruct Hin as [<-|[]]. rewrite lookup_insert_eq. eauto. }
    destruct Hsome as [box Hbox]. exists box. split; [exact Hbox|].
    apply place_others_lookup in Hbox as [H|(i & e' & Hi & He' & ->)].
    - destruct (decide (ent_id junction = ent_id e)) as [Heq|Hneq].
      + rewrite <- Heq, lookup_insert_eq in H. injection H as <-. now left.
      + rewrite lookup_insert_ne, lookup_empty in H by exact Hneq. discriminate.
    - right. split; [|eauto].
      intros Heq. apply lookup_In in Hi. apply List.filter_In in Hi as [_ Hlt].
      apply Nat.ltb_lt in Hlt. unfold targeted in Hlt, Hjt.
      rewrite He', Heq in Hlt. lia. }
  destruct (Hplace a Ha) as (boxa & Hboxa & Hca).
  destruct (Hplace b Hb) as (boxb & Hboxb & Hcb).
  exists boxa, boxb. split; [exact Hboxa|]. split; [exact Hboxb|].
  unfold apart.
  destruct Hca as [[Hja ->]|[Hja (i & ea & Hi & Hea & ->)]];
    destruct Hcb as [[Hjb ->]|[Hjb (j & eb & Hj & Heb & ->)]];
    unfold jbox; cbn [Emit.b_x Emit.b_y Emit.b_width Emit.b_height].
  - congruence.
  - destruct j; [right; left; lia | left; lia].
  - destruct i; [left; lia | right; left; lia].
  - assert (Hij : i <> j) by (intros ->; congruence). lia.
Qed.

Lemma er_layout_boxes_apart_witness :
  exists boxa boxb,
    ERConverter.calculateERPositions
      [wide_entity "A" 8; wide_entity "B" 0; wide_entity "C" 1] [] !! "A" = Some boxa /\
    ERConverter.calculateERPositions
      [wide_entity "A" 8; wide_entity "B" 0; wide_entity "C" 1] [] !! "C" = Some boxb /\
    apart boxa boxb.
Proof.
  apply (er_layout_boxes_apart [wide_entity "A" 8; wide_entity "B" 0; wide_entity "C" 1] []
           (wide_entity "A" 8) (wide_entity "C" 1)).
  - intros e [<-|[<-|[<-|[]]]]; cbn; lia.
  - simpl. tauto.
  - simpl. tauto.
  - discriminate.
Defined.
